(** * EARL: evolutionary actor-critic, population network and runner

    A shallow embedding of [earl/model.py] (class [EvoACModel]) and
    [earl/runner.py] (class [EvoACRunner]), and the properties of the
    hybrid update coordinator that are stated about them.

    Conventions.
    - A tensor is a shape and the bit patterns of its elements, so that
      equality of tensors is bit-for-bit equality.  Tensors carry no
      dtype: those of a bundle are taken to have the dtype of the
      parameters they are copied to.
    - Python exceptions are values of [PyError]; a call that may raise
      returns a [Result].
    - Rewards, fitnesses and probabilities are finite floats, written
      as the rationals they denote; the return of an episode and the
      mean of an evaluation are formed exactly.  The votes of the
      weighted vote are binary64 numbers, added as the code adds them:
      with rounding, overflow to an infinity and NaN.
    - Numerical kernels of torch (layer application, softmax, autograd,
      the optimizer) are fields of the [Torch] interface; gym, the
      storage and the evolutionary algorithm are interfaces as well.
      Apart from the construction of a layer, of the optimizer and of an
      environment, a call into these libraries does not raise here.
    - Device placement, printing and the construction of the logger are
      left out; the calls to the logger are events of a trace. *)

From Stdlib Require Import ZArith QArith Lqa.
From stdpp Require Import base option list strings gmap.

Set Warnings "-register-all,-abstract-large-number".

(* ================================================================== *)
(** * Python exceptions and results *)

Inductive PyError :=
| IndexError
| AttributeError
| UnboundLocalError
| RuntimeError
| ValueError
| ZeroDivisionError
| GymError.

Inductive Result (A : Type) :=
| Ok (a : A)
| Raise (e : PyError).
Arguments Ok {A} a.
Arguments Raise {A} e.

#[global] Instance PyError_eq_dec : EqDecision PyError.
Proof. solve_decision. Defined.

#[global] Instance Result_ret : MRet Result := fun _ a => Ok a.
#[global] Instance Result_bind : MBind Result := fun _ _ f r =>
  match r with
  | Ok a => f a
  | Raise e => Raise e
  end.

Definition is_Ok {A} (r : Result A) : Prop := exists a, r = Ok a.
Definition raises {A} (r : Result A) : Prop := exists e, r = Raise e.

(* ================================================================== *)
(** * model.py: the population network *)

(** A tensor: its shape and the bit patterns of its elements. *)
Record Tensor := { t_shape : list nat; t_bits : list Z }.

#[global] Instance Tensor_eq_dec : EqDecision Tensor.
Proof. solve_decision. Defined.

(** A trainable parameter: its value and its [.grad], which is [None]
    until a backward pass has reached the parameter. *)
Record Param := { p_data : Tensor; p_grad : option Tensor }.

(** A layer is seen through [named_parameters()]: its parameters with
    their names, in declaration order.  A [ModuleList] is a sequence of
    layers. *)
Abbreviation Layer := (list (string * Param)) (only parsing).
Abbreviation ModuleList := (list Layer) (only parsing).

(** [EvoACModel]: [policy_nets] is a plain Python list of [ModuleList]s,
    one per population member. *)
Record EvoACModel := {
  shared_net : ModuleList;
  policy_nets : list ModuleList;
  value_net : ModuleList
}.

(** A tensor object held outside the network.  [parameter.detach()] and
    [parameter.grad.detach()] return tensors that share the storage of
    the live parameter: reading them later reads the parameter's current
    value.  [Fresh] is a tensor with storage of its own. *)
Inductive TensorRef :=
| DataOf (pop layer k : nat)
| GradOf (pop layer k : nat)
| Fresh (t : Tensor).

(** What [extract_params] returns and [insert_params] consumes. *)
Abbreviation Bundle := (list (list TensorRef)) (only parsing).

Definition live (m : EvoACModel) (pop layer k : nat) : option Param :=
  individual ← policy_nets m !! pop;
  l ← individual !! layer;
  snd <$> l !! k.

(** The current value seen through a tensor object. *)
Definition read (m : EvoACModel) (r : TensorRef) : option Tensor :=
  match r with
  | DataOf pop layer k => p_data <$> live m pop layer k
  | GradOf pop layer k => live m pop layer k ≫= p_grad
  | Fresh t => Some t
  end.

Definition named_parameters (layer : Layer) : list (string * Param) := layer.

(** ** [extract_params] *)

(** The inner two loops: [layer_params] is created once per individual
    and every parameter of every layer is appended to it. *)
Definition individual_params (pop : nat) (individual : ModuleList) : list TensorRef :=
  concat (imap (fun li layer =>
                  imap (fun k _ => DataOf pop li k) (named_parameters layer))
               individual).

Definition extract_params (m : EvoACModel) : Bundle :=
  imap individual_params (policy_nets m).

(** ** [extract_grads] *)

(** [parameter.grad.detach()]: an absent gradient is [None], and
    [None.detach()] raises [AttributeError]. *)
Fixpoint layer_grads (pop li k : nat) (ps : list (string * Param))
  : Result (list TensorRef) :=
  match ps with
  | [] => Ok []
  | (_, p) :: ps' =>
      match p_grad p with
      | None => Raise AttributeError
      | Some _ =>
          rest ← layer_grads pop li (S k) ps';
          Ok (GradOf pop li k :: rest)
      end
  end.

Fixpoint individual_grads (pop li : nat) (layers : ModuleList)
  : Result (list TensorRef) :=
  match layers with
  | [] => Ok []
  | layer :: layers' =>
      here ← layer_grads pop li 0 (named_parameters layer);
      rest ← individual_grads pop (S li) layers';
      Ok (here ++ rest)
  end.

Fixpoint population_grads (pop : nat) (individuals : list ModuleList)
  : Result Bundle :=
  match individuals with
  | [] => Ok []
  | individual :: individuals' =>
      here ← individual_grads pop 0 individual;
      rest ← population_grads (S pop) individuals';
      Ok (here :: rest)
  end.

Definition extract_grads (m : EvoACModel) : Result Bundle :=
  population_grads 0 (policy_nets m).

(** ** [insert_params] *)

(** [layer.state_dict()]: parameter name to a tensor sharing the
    parameter's storage.  Buffers, which [state_dict()] also lists and
    which [load_state_dict] then copies onto themselves, are not
    represented. *)
Definition state_dict (pop li : nat) (layer : Layer) : gmap string TensorRef :=
  list_to_map (imap (fun k np => (np.1, DataOf pop li k)) layer).

(** The inner loop of [insert_params] over one layer:
    [state_dict[name] = incoming_params[pop_idx][params_idx]] and
    [params_idx += 1].  Indexing past the end of either list raises
    [IndexError]. *)
Fixpoint fill_state_dict (incoming : Bundle) (pop_idx : nat)
    (names : list string) (params_idx : nat) (sd : gmap string TensorRef)
  : Result (gmap string TensorRef * nat) :=
  match names with
  | [] => Ok (sd, params_idx)
  | name :: names' =>
      match incoming !! pop_idx with
      | None => Raise IndexError
      | Some entry =>
          match entry !! params_idx with
          | None => Raise IndexError
          | Some t =>
              fill_state_dict incoming pop_idx names' (S params_idx)
                              (<[name := t]> sd)
          end
      end
  end.

Definition set_param_data (t : Tensor) (np : string * Param)
  : string * Param :=
  (np.1, {| p_data := t; p_grad := p_grad np.2 |}).

(** [param.copy_(input_param)]: the value is overwritten in place, the
    parameter object (its name, position and gradient) stays. *)
Definition copy_ (m : EvoACModel) (pop li k : nat) (t : Tensor) : EvoACModel :=
  {| shared_net := shared_net m;
     policy_nets := alter (alter (alter (set_param_data t) k) li) pop (policy_nets m);
     value_net := value_net m |}.

(** [layer.load_state_dict(state_dict)]: for every parameter of the
    layer, in order, the entry under its name must be there and must
    have the parameter's shape; its current value is then copied in.
    A missing key or a size mismatch raises [RuntimeError].  Shapes and
    names never change, so they are taken from the layer as it was when
    the loop started; values are read from the live network [m].  A
    call that raises returns no network: what it had already overwritten
    is not represented. *)
Fixpoint load_state_dict (m : EvoACModel) (pop li k : nat)
    (ps : list (string * Param)) (sd : gmap string TensorRef)
  : Result EvoACModel :=
  match ps with
  | [] => Ok m
  | (name, p) :: ps' =>
      match sd !! name with
      | None => Raise RuntimeError
      | Some r =>
          match read m r with
          | None => Raise RuntimeError
          | Some t =>
              if decide (t_shape t = t_shape (p_data p))
              then load_state_dict (copy_ m pop li k t) pop li (S k) ps' sd
              else Raise RuntimeError
          end
      end
  end.

(** [for layer in individual: ...], with the running [params_idx]. *)
Fixpoint insert_layers (incoming : Bundle) (pop_idx li : nat)
    (layers : ModuleList) (params_idx : nat) (m : EvoACModel)
  : Result EvoACModel :=
  match layers with
  | [] => Ok m
  | layer :: layers' =>
      '(sd, params_idx') ← fill_state_dict incoming pop_idx
                             (fst <$> named_parameters layer) params_idx
                             (state_dict pop_idx li layer);
      m' ← load_state_dict m pop_idx li 0 (named_parameters layer) sd;
      insert_layers incoming pop_idx (S li) layers' params_idx' m'
  end.

(** [for pop_idx in range(len(self.policy_nets)): params_idx = 0; ...] *)
Fixpoint insert_individuals (incoming : Bundle) (pop_idx : nat)
    (individuals : list ModuleList) (m : EvoACModel) : Result EvoACModel :=
  match individuals with
  | [] => Ok m
  | individual :: individuals' =>
      m' ← insert_layers incoming pop_idx 0 individual 0 m;
      insert_individuals incoming (S pop_idx) individuals' m'
  end.

Definition insert_params (m : EvoACModel) (incoming : Bundle) : Result EvoACModel :=
  insert_individuals incoming 0 (policy_nets m) m.

(** Parameter names are the keys of a module's parameter dictionary:
    within one layer they are pairwise distinct. *)
Definition wf_layer (layer : Layer) : Prop := NoDup (fst <$> layer).
Definition wf_model (m : EvoACModel) : Prop :=
  Forall (Forall wf_layer) (policy_nets m).

(** A gradient has the shape of its parameter. *)
Definition wf_grad (p : Param) : Prop :=
  match p_grad p with
  | Some g => t_shape g = t_shape (p_data p)
  | None => True
  end.
Definition wf_grads (m : EvoACModel) : Prop :=
  Forall (Forall (Forall (fun np => wf_grad np.2))) (policy_nets m).

(** The shape seen through a tensor object, and the shapes of a bundle. *)
Definition ref_shape (m : EvoACModel) (r : TensorRef) : option (list nat) :=
  t_shape <$> read m r.

Definition bundle_shapes (m : EvoACModel) (b : Bundle)
  : list (list (option (list nat))) :=
  (fun entry : list TensorRef => ref_shape m <$> entry) <$> b.

(** The layout that the docstrings of [extract_params] and
    [insert_params] and the specification announce,
    [[individual][layer][parameter]]: one sub-list per layer.  Written
    from those words, to be compared with [extract_params]. *)
Definition extract_params_by_layer (m : EvoACModel) : list (list (list TensorRef)) :=
  imap (fun pop individual =>
          imap (fun li layer =>
                  imap (fun k _ => DataOf pop li k) (named_parameters layer))
               individual)
       (policy_nets m).

(** Python values made of nested lists of tensors, to compare results of
    different nesting depth. *)
Inductive PyTree :=
| Leaf (r : TensorRef)
| Node (children : list PyTree).

Definition tree_of_bundle (b : Bundle) : PyTree :=
  Node ((fun entry : list TensorRef => Node (Leaf <$> entry)) <$> b).

Definition tree_of_layered (b : list (list (list TensorRef))) : PyTree :=
  Node ((fun entry : list (list TensorRef) =>
           Node ((fun l : list TensorRef => Node (Leaf <$> l)) <$> entry)) <$> b).

(** A bundle mirrors the layout of extraction exactly: as many
    individuals, as many entries for each, and the same shape at every
    position. *)
Definition mirrors (m : EvoACModel) (b : Bundle) : Prop :=
  bundle_shapes m b = bundle_shapes m (extract_params m).

(** The gradient tensor at the position of a parameter tensor. *)
Definition to_grad (r : TensorRef) : TensorRef :=
  match r with
  | DataOf pop li k => GradOf pop li k
  | other => other
  end.

(** Every parameter of a layer has its gradient. *)
Definition grads_present (ps : list (string * Param)) : Prop :=
  Forall (λ np : string * Param, is_Some (p_grad np.2)) ps.

#[global] Instance grads_present_dec ps : Decision (grads_present ps).
Proof. unfold grads_present. apply _. Defined.

(** ** Example networks *)

Definition tensor1 (bits : list Z) : Tensor :=
  {| t_shape := [length bits]; t_bits := bits |}.

Definition linear (w b : Tensor) (gw gb : option Tensor) : Layer :=
  [("weight"%string, {| p_data := w; p_grad := gw |});
   ("bias"%string, {| p_data := b; p_grad := gb |})].

Definition relu : Layer := [].

(** Two individuals, each with a head Linear - ReLU - Linear; no
    backward pass has run yet. *)
Definition two_heads : EvoACModel :=
  {| shared_net := [linear (tensor1 [1; 2]%Z) (tensor1 [0]%Z) None None];
     policy_nets :=
       [ [linear (tensor1 [3; 4]%Z) (tensor1 [5]%Z) None None; relu;
          linear (tensor1 [6; 7]%Z) (tensor1 [8]%Z) None None];
         [linear (tensor1 [13; 14]%Z) (tensor1 [15]%Z) None None; relu;
          linear (tensor1 [16; 17]%Z) (tensor1 [18]%Z) None None] ];
     value_net := [linear (tensor1 [9; 9]%Z) (tensor1 [1]%Z) None None] |}.

(** The same after a backward pass that reached every head. *)
Definition two_heads_with_grads : EvoACModel :=
  {| shared_net := shared_net two_heads;
     policy_nets :=
       (fun individual : ModuleList =>
          (fun layer : Layer =>
             (fun np : string * Param =>
                (np.1, {| p_data := p_data np.2; p_grad := Some (p_data np.2) |}))
             <$> layer)
          <$> individual)
       <$> policy_nets two_heads;
     value_net := value_net two_heads |}.

(** One individual with a single Linear head. *)
Definition one_head : EvoACModel :=
  {| shared_net := [];
     policy_nets := [ [linear (tensor1 [3; 4]%Z) (tensor1 [5]%Z) None None] ];
     value_net := [] |}.

(** A bundle for [one_head] with a surplus entry for individual 0 and a
    surplus individual. *)
Definition surplus_bundle : Bundle :=
  [ [Fresh (tensor1 [30; 40]%Z); Fresh (tensor1 [50]%Z); Fresh (tensor1 [60]%Z)];
    [Fresh (tensor1 [70; 80]%Z); Fresh (tensor1 [90]%Z)] ].

(** ** What [insert_params] never changes *)

(** Name, shape and gradient of a parameter: [copy_] overwrites values
    only. *)
Definition pinfo (np : string * Param) : string * list nat * option Tensor :=
  (np.1, t_shape (p_data np.2), p_grad np.2).

Definition skeleton (m : EvoACModel)
  : list (list (list (string * list nat * option Tensor))) :=
  (fun individual : ModuleList =>
     (fun layer : Layer => pinfo <$> layer) <$> individual) <$> policy_nets m.

Definition nth3 {A} (nets : list (list (list A))) (pop li k : nat) : option A :=
  individual ← nets !! pop;
  layer ← individual !! li;
  layer !! k.

(** The entry that [insert_params] reads for the [j]-th parameter (in
    flat order) of individual [pop], and its shape. *)
Definition incoming_at (incoming : Bundle) (pop j : nat) : option TensorRef :=
  incoming !! pop ≫= (.!! j).

Definition incoming_shape (m : EvoACModel) (incoming : Bundle) (pop j : nat)
  : option (list nat) :=
  incoming_at incoming pop j ≫= ref_shape m.

(* ================================================================== *)
(** * Configuration, random sources and collaborators *)

Record LayerSpec := {
  layer_type : string;
  layer_params : list Z;
  layer_kwargs : list (string * Z)
}.

(** [config['neural_net']]: the three layer lists and the learning
    rate. *)
Record NetConfig := {
  net_shared : list LayerSpec;
  net_policy : list LayerSpec;
  net_value : list LayerSpec;
  net_lr : Q
}.

(** The experiment configuration: [config['earl']['pop_size']],
    [config['neural_net']] and the keys of [config['experiment']] that
    the runner reads.  The loss coefficients only reach the storage
    and are not represented. *)
Record Config := {
  pop_size : nat;
  neural_net : NetConfig;
  exp_env : string;
  exp_num_runs : nat;
  exp_timesteps : Z;
  exp_log_interval : Z;
  exp_print_interval : Z;
  exp_test_strat : string
}.

(** A random source: the sequence of uniform draws in [[0, 1)] it will
    produce and how many have been consumed. *)
Record Rng := { rng_draws : nat -> Q; rng_pos : nat }.

Definition rng_next (g : Rng) : Q * Rng :=
  (rng_draws g (rng_pos g), {| rng_draws := rng_draws g; rng_pos := S (rng_pos g) |}).

Definition rng_skip (n : nat) (g : Rng) : Rng :=
  {| rng_draws := rng_draws g; rng_pos := n + rng_pos g |}.

(** torch: layer construction and application, softmax, the quantities
    of a categorical distribution, the gradients a backward pass leaves
    on the head parameters, and the Adam step on the registered
    parameters.  [policy_nets] is a plain list, so its parameters are
    not registered with the module: [self.parameters()] and hence the
    optimizer cover [shared_net] and [value_net] only. *)
Class Torch (L : Type) := {
  nn_new : LayerSpec -> Rng -> Result Layer * Rng;
  nn_forward : LayerSpec -> Layer -> list Q -> list Q;
  softmax : list Q -> list Q;
  categorical_log_prob : list Q -> nat -> Q;
  categorical_entropy : list Q -> Q;
  backward_grad : L -> nat -> nat -> nat -> option Tensor -> option Tensor;
  adam_step : L -> ModuleList -> ModuleList -> ModuleList * ModuleList
}.

(** gym: [gym.make] (which fails on an identifier it does not know),
    and the environment's [reset], [step], action count and
    [_max_episode_steps], an attribute that only an environment with a
    time limit has. *)
Class Gym (E Obs : Type) := {
  gym_make : string -> option E;
  env_reset : E -> Obs * E;
  env_step : E -> nat -> Obs * Q * bool * E;
  action_space_n : E -> nat;
  max_episode_steps : E -> option nat
}.

(** [earl.storage.EvoACStorage], through the calls the runner makes. *)
Class Storage (S Obs L : Type) := {
  storage_new : nat -> Config -> S;
  reset_storage : S -> S;
  storage_insert : S -> nat -> Q -> nat -> Q -> list Q -> Q -> S;
  insert_fitness : S -> nat -> Q -> S;
  storage_fitnesses : S -> list Q;
  obs2tensor : Obs -> list Q;
  get_loss : S -> L * Q * Q
}.

(** [earl.ea.EA], through the calls the runner makes.  The bundles it
    holds may share storage with the network, so it reads them through
    the network. *)
Class Evolution (EAst : Type) := {
  EA_new : Config -> EAst;
  set_params : EAst -> Bundle -> EAst;
  set_grads : EAst -> Bundle -> EAst;
  set_fitnesses : EAst -> list Q -> EAst;
  create_new_pop : EAst -> EvoACModel -> Rng -> Bundle * EAst * Rng
}.

(* ================================================================== *)
(** * numpy and torch.distributions *)

Definition Qltb (a b : Q) : bool := negb (Qle_bool b a).

Definition sum_Q (l : list Q) : Q := foldr Qplus 0%Q l.

(** [np.argmax] on finite numbers: the first index of a maximal
    element; [ValueError] on an empty sequence. *)
Fixpoint argmax_from (best_i : nat) (best : Q) (i : nat) (l : list Q) : nat :=
  match l with
  | [] => best_i
  | x :: l' =>
      if Qltb best x then argmax_from i x (S i) l'
      else argmax_from best_i best (S i) l'
  end.

Definition np_argmax (l : list Q) : Result nat :=
  match l with
  | [] => Raise ValueError
  | x :: l' => Ok (argmax_from 0 x 1 l')
  end.

(** [np.mean], formed exactly. *)
Definition np_mean (l : list Q) : Q :=
  (sum_Q l / inject_Z (Z.of_nat (length l)))%Q.

(** Drawing from a categorical distribution by inversion: the index
    whose cumulative weight first exceeds the draw. *)
Fixpoint inverse_cdf (probs : list Q) (u : Q) (i : nat) : nat :=
  match probs with
  | [] => i
  | p :: rest =>
      if Qltb u p then i
      else match rest with
           | [] => i
           | _ => inverse_cdf rest (u - p)%Q (S i)
           end
  end.

(** [Categorical(probs).sample()] with uniform draw [u]; the weights
    are normalised by their sum. *)
Definition categorical_sample (probs : list Q) (u : Q) : nat :=
  inverse_cdf probs (u * sum_Q probs)%Q 0.

(** The most likely action of a distribution. *)
Definition greedy (probs : list Q) : Result nat := np_argmax probs.

(** ** Floating-point numbers *)

(** A Python float (numpy's float64): IEEE 754 binary64.  A finite
    float is represented by the rational it denotes; the two zeros are
    not told apart (they compare equal). *)
Inductive Float64 :=
| Fin (q : Q)
| PInf
| NInf
| NaN.

(** [n / d] rounded to the nearest integer, ties to even
    ([0 <= n], [0 < d]). *)
Definition round_half_even (n d : Z) : Z :=
  let q := (n / d)%Z in
  match (2 * (n mod d) ?= d)%Z with
  | Lt => q
  | Gt => (q + 1)%Z
  | Eq => if Z.even q then q else (q + 1)%Z
  end.

(** The exponent [e] of the binary64 grid around [a / d] ([0 < a],
    [0 < d]): the spacing of the floats there is [2 ^ e].  Normal
    numbers have 53 significant bits; below [2 ^ -1022] the spacing
    stays [2 ^ -1074]. *)
Definition grid_exponent (a d : Z) : Z :=
  let l := (Z.log2 a - Z.log2 d)%Z in
  let above := if (0 <=? l)%Z then (d * 2 ^ l <=? a)%Z else (d <=? a * 2 ^ (- l))%Z in
  let floor_log2 := if above then l else (l - 1)%Z in
  Z.max (floor_log2 - 52) (-1074).

(** Rounding of a rational to binary64, to nearest with ties to even;
    a result beyond the largest float is an infinity. *)
Definition float_of_Q (x : Q) : Float64 :=
  let n := Qnum x in
  let d := Zpos (Qden x) in
  if (n =? 0)%Z then Fin 0
  else
    let a := Z.abs n in
    let e := grid_exponent a d in
    let m := round_half_even (a * 2 ^ Z.max (- e) 0) (d * 2 ^ Z.max e 0) in
    if ((0 <=? e) && (2 ^ 1024 <=? m * 2 ^ e))%Z
    then (if (0 <? n)%Z then PInf else NInf)
    else
      Fin (Qred (Qmake (Z.sgn n * m * 2 ^ Z.max e 0) (Z.to_pos (2 ^ Z.max (- e) 0)))).

(** [a + b] on floats. *)
Definition float_add (a b : Float64) : Float64 :=
  match a, b with
  | NaN, _ | _, NaN => NaN
  | PInf, NInf | NInf, PInf => NaN
  | PInf, _ | _, PInf => PInf
  | NInf, _ | _, NInf => NInf
  | Fin x, Fin y => float_of_Q (x + y)
  end.

Definition is_nan (a : Float64) : bool :=
  match a with NaN => true | _ => false end.

(** [a <= b] and [a < b] on floats: false when either is NaN. *)
Definition float_leb (a b : Float64) : bool :=
  match a, b with
  | NaN, _ | _, NaN => false
  | NInf, _ => true
  | _, PInf => true
  | Fin x, Fin y => Qle_bool x y
  | _, _ => false
  end.

Definition float_ltb (a b : Float64) : bool :=
  match a, b with
  | NaN, _ | _, NaN => false
  | _, _ => negb (float_leb b a)
  end.

(** [np.argmax] on floats, as numpy computes it: the scan keeps the
    first element that no later one exceeds, and stops at the first
    NaN, which counts as greatest. *)
Fixpoint argmax_float_from (best_i : nat) (best : Float64) (i : nat) (l : list Float64)
  : nat :=
  match l with
  | [] => best_i
  | x :: l' =>
      if float_leb x best then argmax_float_from best_i best (S i) l'
      else if is_nan x then i
      else argmax_float_from i x (S i) l'
  end.

Definition np_argmax_float (l : list Float64) : Result nat :=
  match l with
  | [] => Raise ValueError
  | x :: l' => if is_nan x then Ok 0 else Ok (argmax_float_from 0 x 1 l')
  end.

(** ** The weighted vote *)

(** [for mod_action, weight in zip(actions, fitnesses):
       action_votes[mod_action] += weight].  The fitnesses are Python
    floats, so [+=] is the addition of binary64, which rounds. *)
Fixpoint tally (action_votes : list Float64) (ballots : list (nat * Q))
  : Result (list Float64) :=
  match ballots with
  | [] => Ok action_votes
  | (mod_action, weight) :: rest =>
      match action_votes !! mod_action with
      | None => Raise IndexError
      | Some v => tally (<[mod_action := float_add v (Fin weight)]> action_votes) rest
      end
  end.

(** [action_votes = [0] * n] and the tally. *)
Definition action_votes (n : nat) (actions : list nat) (fitnesses : list Q)
  : Result (list Float64) :=
  tally (replicate n (Fin 0)) (zip actions fitnesses).

Definition weighted_vote (n : nat) (actions : list nat) (fitnesses : list Q)
  : Result nat :=
  votes ← action_votes n actions fitnesses;
  np_argmax_float votes.

(** The vote total of an action: the sum of the fitnesses of the
    individuals that propose it, as the code accumulates it, that is
    starting from zero and adding in floating point, in the order of
    the individuals. *)
Definition vote_sum (a : nat) (actions : list nat) (fitnesses : list Q) : Float64 :=
  foldl (fun v (b : nat * Q) => if decide (b.1 = a) then float_add v (Fin b.2) else v)
        (Fin 0) (zip actions fitnesses).


(* ================================================================== *)
(** * The runner and the network as it drives it *)

Section Runner.
Context {E Obs S EAst L : Type}.
Context `{!Torch L, !Gym E Obs, !Storage S Obs L, !Evolution EAst}.

(** ** model.py: construction, [forward], [get_action] *)

(** [_add_layers]: one [_add_layer], that is the constructor
    [getattr(nn, layer_type)] applied to the configured arguments, per
    entry of the layer list, in order. *)
Fixpoint _add_layers (layer_config : list LayerSpec) (g : Rng)
  : Result ModuleList * Rng :=
  match layer_config with
  | [] => (Ok [], g)
  | layer :: rest =>
      match nn_new layer g with
      | (Raise e, g') => (Raise e, g')
      | (Ok l, g') =>
          match _add_layers rest g' with
          | (Raise e, g'') => (Raise e, g'')
          | (Ok ls, g'') => (Ok (l :: ls), g'')
          end
      end
  end.

(** [[self._add_layers(policy) for _ in range(pop_size)]] *)
Fixpoint add_policy_nets (n : nat) (layer_config : list LayerSpec) (g : Rng)
  : Result (list ModuleList) * Rng :=
  match n with
  | O => (Ok [], g)
  | Datatypes.S n' =>
      match _add_layers layer_config g with
      | (Raise e, g') => (Raise e, g')
      | (Ok individual, g') =>
          match add_policy_nets n' layer_config g' with
          | (Raise e, g'') => (Raise e, g'')
          | (Ok rest, g'') => (Ok (individual :: rest), g'')
          end
      end
  end.

(** [_init_model_layers] *)
Definition _init_model_layers (cfg : Config) (g : Rng) : Result EvoACModel * Rng :=
  match _add_layers (net_shared (neural_net cfg)) g with
  | (Raise e, g1) => (Raise e, g1)
  | (Ok shared, g1) =>
      match add_policy_nets (pop_size cfg) (net_policy (neural_net cfg)) g1 with
      | (Raise e, g2) => (Raise e, g2)
      | (Ok heads, g2) =>
          match _add_layers (net_value (neural_net cfg)) g2 with
          | (Raise e, g3) => (Raise e, g3)
          | (Ok value, g3) =>
              (Ok {| shared_net := shared; policy_nets := heads; value_net := value |}, g3)
          end
      end
  end.

(** [self.parameters()]: the parameters of the registered sub-modules,
    [shared_net] and [value_net]; [policy_nets] is a plain list and is
    left out. *)
Definition parameters (m : EvoACModel) : list (string * Param) :=
  concat (shared_net m) ++ concat (value_net m).

(** [optim.Adam(params, lr=lr)], as far as it can fail: it refuses a
    negative learning rate and an empty parameter list. *)
Definition Adam (params : list (string * Param)) (lr : Q) : Result unit :=
  if Qltb lr 0 then Raise ValueError
  else match params with
       | [] => Raise ValueError
       | _ :: _ => Ok tt
       end.

(** [EvoACModel(config, device)]: the layers, then the optimizer. *)
Definition EvoACModel__init__ (cfg : Config) (g : Rng) : Result EvoACModel * Rng :=
  match _init_model_layers cfg g with
  | (Raise e, g') => (Raise e, g')
  | (Ok m, g') =>
      match Adam (parameters m) (net_lr (neural_net cfg)) with
      | Raise e => (Raise e, g')
      | Ok _ => (Ok m, g')
      end
  end.

(** [for layer in block: x = layer(x)]; the kind of each layer is the
    one its configuration entry names. *)
Definition apply_layers (specs : list LayerSpec) (layers : ModuleList) (x : list Q)
  : list Q :=
  foldl (fun acc sl => nn_forward sl.1 sl.2 acc) x (zip specs layers).

Definition forward (net : NetConfig) (m : EvoACModel) (x : list Q) (pop_idx : nat)
  : Result (list Q * list Q) :=
  let shared := apply_layers (net_shared net) (shared_net m) x in
  match policy_nets m !! pop_idx with
  | None => Raise IndexError
  | Some head =>
      Ok (apply_layers (net_policy net) head shared,
          apply_layers (net_value net) (value_net m) shared)
  end.

(** The distribution of individual [pop_idx] on input [x]. *)
Definition policy_probs (net : NetConfig) (m : EvoACModel) (x : list Q) (pop_idx : nat)
  : list Q :=
  softmax (apply_layers (net_policy net) (default [] (policy_nets m !! pop_idx))
                        (apply_layers (net_shared net) (shared_net m) x)).

(** The distribution [get_action] samples from. *)
Definition action_prob (net : NetConfig) (m : EvoACModel) (x : list Q) (pop_idx : nat)
  : Result (list Q) :=
  pv ← forward net m x pop_idx;
  Ok (softmax pv.1).

Record ActionResult := {
  action : nat;
  log_prob : Q;
  entropy : Q;
  value : list Q
}.

(** [get_action]: forward, softmax, [Categorical(action_prob)] and
    [cat.sample()], which consumes one draw of torch's random source. *)
Definition get_action (net : NetConfig) (m : EvoACModel) (state : list Q)
    (pop_idx : nat) (g : Rng) : Result ActionResult * Rng :=
  match forward net m state pop_idx with
  | Raise e => (Raise e, g)
  | Ok (policy, value) =>
      let action_prob := softmax policy in
      let '(u, g') := rng_next g in
      let action := categorical_sample action_prob u in
      (Ok {| action := action;
             log_prob := categorical_log_prob action_prob action;
             entropy := categorical_entropy action_prob;
             value := value |}, g')
  end.

(** ** runner.py: the state of the runner *)

(** The attributes of [EvoACRunner] during a run.  [stop_fit] is
    [None] when [__init__] has not set the attribute. *)

Record RunState := {
  config : Config;
  stop_fit : option Q;
  env : E;
  test_env : E;
  torch_rng : Rng;
  np_rng : Rng;
  storage : S;
  model : EvoACModel;
  evo : EAst;
  new_pop : option Bundle;
  timesteps : Z;
  last_log : Z;
  loss_log : Q * Q
}.

Definition set_env (v : E) (s : RunState) : RunState :=
  {| config := config s;
     stop_fit := stop_fit s;
     env := v;
     test_env := test_env s;
     torch_rng := torch_rng s;
     np_rng := np_rng s;
     storage := storage s;
     model := model s;
     evo := evo s;
     new_pop := new_pop s;
     timesteps := timesteps s;
     last_log := last_log s;
     loss_log := loss_log s |}.

Definition set_test_env (v : E) (s : RunState) : RunState :=
  {| config := config s;
     stop_fit := stop_fit s;
     env := env s;
     test_env := v;
     torch_rng := torch_rng s;
     np_rng := np_rng s;
     storage := storage s;
     model := model s;
     evo := evo s;
     new_pop := new_pop s;
     timesteps := timesteps s;
     last_log := last_log s;
     loss_log := loss_log s |}.

Definition set_torch_rng (v : Rng) (s : RunState) : RunState :=
  {| config := config s;
     stop_fit := stop_fit s;
     env := env s;
     test_env := test_env s;
     torch_rng := v;
     np_rng := np_rng s;
     storage := storage s;
     model := model s;
     evo := evo s;
     new_pop := new_pop s;
     timesteps := timesteps s;
     last_log := last_log s;
     loss_log := loss_log s |}.

Definition set_np_rng (v : Rng) (s : RunState) : RunState :=
  {| config := config s;
     stop_fit := stop_fit s;
     env := env s;
     test_env := test_env s;
     torch_rng := torch_rng s;
     np_rng := v;
     storage := storage s;
     model := model s;
     evo := evo s;
     new_pop := new_pop s;
     timesteps := timesteps s;
     last_log := last_log s;
     loss_log := loss_log s |}.

Definition set_storage (v : S) (s : RunState) : RunState :=
  {| config := config s;
     stop_fit := stop_fit s;
     env := env s;
     test_env := test_env s;
     torch_rng := torch_rng s;
     np_rng := np_rng s;
     storage := v;
     model := model s;
     evo := evo s;
     new_pop := new_pop s;
     timesteps := timesteps s;
     last_log := last_log s;
     loss_log := loss_log s |}.

Definition set_model (v : EvoACModel) (s : RunState) : RunState :=
  {| config := config s;
     stop_fit := stop_fit s;
     env := env s;
     test_env := test_env s;
     torch_rng := torch_rng s;
     np_rng := np_rng s;
     storage := storage s;
     model := v;
     evo := evo s;
     new_pop := new_pop s;
     timesteps := timesteps s;
     last_log := last_log s;
     loss_log := loss_log s |}.

Definition set_evo (v : EAst) (s : RunState) : RunState :=
  {| config := config s;
     stop_fit := stop_fit s;
     env := env s;
     test_env := test_env s;
     torch_rng := torch_rng s;
     np_rng := np_rng s;
     storage := storage s;
     model := model s;
     evo := v;
     new_pop := new_pop s;
     timesteps := timesteps s;
     last_log := last_log s;
     loss_log := loss_log s |}.

Definition set_new_pop (v : option Bundle) (s : RunState) : RunState :=
  {| config := config s;
     stop_fit := stop_fit s;
     env := env s;
     test_env := test_env s;
     torch_rng := torch_rng s;
     np_rng := np_rng s;
     storage := storage s;
     model := model s;
     evo := evo s;
     new_pop := v;
     timesteps := timesteps s;
     last_log := last_log s;
     loss_log := loss_log s |}.

Definition set_timesteps (v : Z) (s : RunState) : RunState :=
  {| config := config s;
     stop_fit := stop_fit s;
     env := env s;
     test_env := test_env s;
     torch_rng := torch_rng s;
     np_rng := np_rng s;
     storage := storage s;
     model := model s;
     evo := evo s;
     new_pop := new_pop s;
     timesteps := v;
     last_log := last_log s;
     loss_log := loss_log s |}.

Definition set_last_log (v : Z) (s : RunState) : RunState :=
  {| config := config s;
     stop_fit := stop_fit s;
     env := env s;
     test_env := test_env s;
     torch_rng := torch_rng s;
     np_rng := np_rng s;
     storage := storage s;
     model := model s;
     evo := evo s;
     new_pop := new_pop s;
     timesteps := timesteps s;
     last_log := v;
     loss_log := loss_log s |}.

Definition set_loss_log (v : Q * Q) (s : RunState) : RunState :=
  {| config := config s;
     stop_fit := stop_fit s;
     env := env s;
     test_env := test_env s;
     torch_rng := torch_rng s;
     np_rng := np_rng s;
     storage := storage s;
     model := model s;
     evo := evo s;
     new_pop := new_pop s;
     timesteps := timesteps s;
     last_log := last_log s;
     loss_log := v |}.

(** The attributes that [__init__] sets. *)
Record EvoACRunner := {
  r_config : Config;
  r_stop_fit : option Q;
  r_env : E;
  r_test_env : E;
  r_torch_rng : Rng;
  r_np_rng : Rng
}.

(** Methods of the runner: they read and write its attributes and may
    raise. *)
Definition M (A : Type) : Type := RunState -> Result A * RunState.

#[global] Instance M_ret : MRet M := fun _ a s => (Ok a, s).
#[global] Instance M_bind : MBind M := fun _ _ f c s =>
  match c s with
  | (Ok a, s') => f a s'
  | (Raise e, s') => (Raise e, s')
  end.

Definition gets {A} (f : RunState -> A) : M A := fun s => (Ok (f s), s).
Definition modify (f : RunState -> RunState) : M unit := fun s => (Ok tt, f s).
Definition lift {A} (r : Result A) : M A := fun s => (r, s).

(** ** [__init__] *)

Definition stop_fit_of (env_id : string) : option Q :=
  if decide (env_id = "CartPole-v1"%string) then Some 475%Q
  else if decide (env_id = "LunarLander-v2"%string) then Some 200%Q
  else None.

(** [__init__]: the threshold by environment name (an [if]/[elif]
    without [else]) and the two [gym.make] calls.  The random sources
    are those of the process.  Nothing else of the configuration is
    looked at. *)
Definition __init__ (cfg : Config) (torch_rng np_rng : Rng) : Result EvoACRunner :=
  let stop_fit := stop_fit_of (exp_env cfg) in
  match gym_make (exp_env cfg) with
  | None => Raise GymError
  | Some e =>
      match gym_make (exp_env cfg) with
      | None => Raise GymError
      | Some test_e =>
          Ok {| r_config := cfg;
                r_stop_fit := stop_fit;
                r_env := e;
                r_test_env := test_e;
                r_torch_rng := torch_rng;
                r_np_rng := np_rng |}
      end
  end.

(** ** [_reset_experiment] *)

(** The read of [self.env._max_episode_steps], which raises
    [AttributeError] on an environment without a time limit; then a
    fresh storage, network and evolutionary collaborator, seeded with
    the extracted head parameters; [train] then sets [timesteps = 0] and
    [last_log = -9999999]. *)
Definition _reset_experiment (r : EvoACRunner) : Result RunState :=
  let cfg := r_config r in
  match max_episode_steps (r_env r) with
  | None => Raise AttributeError
  | Some _ =>
      match EvoACModel__init__ cfg (r_torch_rng r) with
      | (Raise e, _) => Raise e
      | (Ok m, g) =>
          Ok {| config := cfg;
                stop_fit := r_stop_fit r;
                env := r_env r;
                test_env := r_test_env r;
                torch_rng := g;
                np_rng := r_np_rng r;
                storage := storage_new (pop_size cfg) cfg;
                model := m;
                evo := set_params (EA_new cfg) (extract_params m);
                new_pop := None;
                timesteps := 0;
                last_log := (-9999999);
                loss_log := (0%Q, 0%Q) |}
      end
  end.

Definition runner_of (s : RunState) : EvoACRunner :=
  {| r_config := config s;
     r_stop_fit := stop_fit s;
     r_env := env s;
     r_test_env := test_env s;
     r_torch_rng := torch_rng s;
     r_np_rng := np_rng s |}.

(** ** [_run_episode] *)

(** [self.model.get_action(x, pop_idx)] *)
Definition model_get_action (x : list Q) (pop_idx : nat) : M ActionResult :=
  fun s =>
    let '(r, g) := get_action (neural_net (config s)) (model s) x pop_idx (torch_rng s) in
    (r, set_torch_rng g s).

Definition env_do_reset : M Obs :=
  fun s => let '(obs, e) := env_reset (env s) in (Ok obs, set_env e s).

Definition env_do_step (a : nat) : M (Obs * Q * bool) :=
  fun s => let '(r, e) := env_step (env s) a in (Ok r, set_env e s).

Definition test_env_do_reset : M Obs :=
  fun s => let '(obs, e) := env_reset (test_env s) in (Ok obs, set_test_env e s).

Definition test_env_do_step (a : nat) : M (Obs * Q * bool) :=
  fun s => let '(r, e) := env_step (test_env s) a in (Ok r, set_test_env e s).

(** The [while True] loop of [_run_episode].  The environment carries
    gym's time limit ([_max_episode_steps], which [_reset_experiment]
    reads): it reports [done] at the latest on that step, so [left]
    counts the steps that may still follow this one.  (A run only
    starts on an environment that has the limit.) *)
Fixpoint run_episode_loop (left pop_idx : nat) (obs : Obs) (fitness : Q) : M Q :=
  r ← model_get_action (obs2tensor obs) pop_idx;
  _ ← modify (fun s => set_timesteps (timesteps s + 1)%Z s);
  step ← env_do_step (action r);
  let '(obs', reward, done) := step in
  let fitness := (fitness + reward)%Q in
  _ ← modify (fun s =>
        set_storage (storage_insert (storage s) pop_idx reward (action r)
                       (log_prob r) (value r) (entropy r)) s);
  if done : bool then mret fitness
  else match left with
       | O => mret fitness
       | Datatypes.S left' => run_episode_loop left' pop_idx obs' fitness
       end.

Definition _run_episode (pop_idx : nat) : M unit :=
  obs ← env_do_reset;
  limit ← gets (fun s => default 0 (max_episode_steps (env s)));
  fitness ← run_episode_loop (limit - 1) pop_idx obs 0%Q;
  modify (fun s => set_storage (insert_fitness (storage s) pop_idx fitness) s).

(** [for pop_idx in range(pop_size): self._run_episode(pop_idx)] *)
Fixpoint run_episodes (pop_idxs : list nat) : M unit :=
  match pop_idxs with
  | [] => mret tt
  | pop_idx :: rest => _ ← _run_episode pop_idx; run_episodes rest
  end.

(** ** [_update_evo_ac] *)

(** [loss.backward()] on the heads: it only writes [.grad]. *)
Definition backward (loss : L) (m : EvoACModel) : EvoACModel :=
  {| shared_net := shared_net m;
     policy_nets :=
       imap (fun pop (individual : ModuleList) =>
         imap (fun li (layer : Layer) =>
           imap (fun k (np : string * Param) =>
                   (np.1, {| p_data := p_data np.2;
                             p_grad := backward_grad loss pop li k (p_grad np.2) |}))
                layer)
           individual)
         (policy_nets m);
     value_net := value_net m |}.

(** [self.model.opt.step()]: the optimizer was built from
    [self.parameters()], which leaves the heads out. *)
Definition opt_step (loss : L) (m : EvoACModel) : EvoACModel :=
  let '(shared, value) := adam_step loss (shared_net m) (value_net m) in
  {| shared_net := shared; policy_nets := policy_nets m; value_net := value |}.

(** [_update_evo_ac].  [opt.zero_grad()] and the gradients of
    [shared_net] and [value_net] stay inside [adam_step]; the
    gradients of the heads are never reset. *)
Definition _update_evo_ac : M unit :=
  lossr ← gets (fun s => get_loss (storage s));
  let '(loss, policy_loss, value_loss) := lossr in
  _ ← modify (set_loss_log (policy_loss, value_loss));
  _ ← modify (fun s => set_model (backward loss (model s)) s);
  grads ← (fun s => (extract_grads (model s), s));
  _ ← modify (fun s => set_evo (set_grads (evo s) grads) s);
  _ ← modify (fun s => set_model (opt_step loss (model s)) s);
  _ ← modify (fun s => set_evo (set_fitnesses (evo s) (storage_fitnesses (storage s))) s);
  modify (fun s =>
    let '(b, ea, g) := create_new_pop (evo s) (model s) (np_rng s) in
    set_new_pop (Some b) (set_evo ea (set_np_rng g s))).

(** ** [_get_test_action] *)

(** [np.random.choice(pop_size, 1, p=probs)] *)
Definition np_random_choice (n : nat) (probs : list Q) : M nat :=
  fun s =>
    if decide (length probs = n ∧ n ≠ 0) then
      let '(u, g) := rng_next (np_rng s) in
      (Ok (inverse_cdf probs u 0), set_np_rng g s)
    else (Raise ValueError, s).

(** [[self.model.get_action(obs, pop_idx)[0].item()
      for pop_idx in range(pop_size)]] *)
Fixpoint query_actions (x : list Q) (pop_idxs : list nat) : M (list nat) :=
  match pop_idxs with
  | [] => mret []
  | pop_idx :: rest =>
      r ← model_get_action x pop_idx;
      actions ← query_actions x rest;
      mret (action r :: actions)
  end.

Definition _get_test_action (obs : Obs) : M nat :=
  let x := obs2tensor obs in
  fitnesses ← gets (fun s => storage_fitnesses (storage s));
  test_strat ← gets (fun s => exp_test_strat (config s));
  if decide (test_strat = "best"%string) then
    best_pop ← lift (np_argmax fitnesses);
    r ← model_get_action x best_pop;
    mret (action r)
  else if decide (test_strat = "softmax"%string) then
    n ← gets (fun s => pop_size (config s));
    pop_idx ← np_random_choice n (softmax fitnesses);
    r ← model_get_action x pop_idx;
    mret (action r)
  else if decide (test_strat = "weightedvote"%string) then
    n ← gets (fun s => pop_size (config s));
    actions ← query_actions x (seq 0 n);
    width ← gets (fun s => action_space_n (test_env s));
    lift (weighted_vote width actions fitnesses)
  else
    lift (Raise UnboundLocalError).

(** ** [_test_algorithm] *)

Fixpoint test_episode_loop (left : nat) (obs : Obs) (fitness : Q) : M Q :=
  a ← _get_test_action obs;
  step ← test_env_do_step a;
  let '(obs', rewards, done) := step in
  let fitness := (fitness + rewards)%Q in
  if done : bool then mret fitness
  else match left with
       | O => mret fitness
       | Datatypes.S left' => test_episode_loop left' obs' fitness
       end.

Definition test_episode : M Q :=
  obs ← test_env_do_reset;
  limit ← gets (fun s => default 0 (max_episode_steps (test_env s)));
  test_episode_loop (limit - 1) obs 0%Q.

(** [for _ in range(100): ...; fitnesses.append(fitness)] *)
Fixpoint test_episodes (n : nat) (fitnesses : list Q) : M (list Q) :=
  match n with
  | O => mret fitnesses
  | Datatypes.S n' =>
      fitness ← test_episode;
      test_episodes n' (fitnesses ++ [fitness])
  end.

Definition _test_algorithm : M Q :=
  fitnesses ← test_episodes 100 [];
  mret (np_mean fitnesses).

(** ** [train] *)

(** The values of the head parameters, [[individual][layer][parameter]]. *)
Definition head_data (m : EvoACModel) : list (list (list Tensor)) :=
  (fun individual : ModuleList =>
     (fun layer : Layer => (fun np : string * Param => p_data np.2) <$> layer)
     <$> individual)
  <$> policy_nets m.

(** What the coordinator does that can be observed from outside: the
    calls to the logger, and, as instrumentation, the completion of an
    evaluation (with the head parameters it ran on and the mean it
    returned) and of an [insert_params] call (with the head parameters
    before and after).  Each event carries [gen_idx]. *)
Inductive Event :=
| EvEvaluate (gen_idx : nat) (heads : list (list (list Tensor))) (test_fit : Q)
| EvSaveFitnesses (gen_idx : nat) (timesteps : Z) (test_fit : Q)
| EvPrintData (gen_idx : nat)
| EvInsertParams (gen_idx : nat) (before after : list (list (list Tensor)))
| EvEndRun
| EvEndExperiment.

Inductive BreakReason := ByFitness | ByBudget.

(** How one pass through the body of the generation loop ends. *)
Inductive Flow :=
| Next
| Break (why : BreakReason)
| Raised (e : PyError).

(** How the generation loop of a run ends. *)
Inductive Outcome :=
| Stopped (why : BreakReason)
| Exhausted
| Aborted (e : PyError).

(** Lines 47 to 51: reset the storage, one episode per individual,
    the combined update. *)
Definition collect_and_update : M unit :=
  _ ← modify (fun s => set_storage (reset_storage (storage s)) s);
  n ← gets (fun s => pop_size (config s));
  _ ← run_episodes (seq 0 n);
  _update_evo_ac.

(** Lines 67 to 70: [self.model.insert_params(self.new_pop)] and the
    budget check. *)
Definition install (gen_idx : nat) (s : RunState) (tr : list Event)
  : Flow * RunState * list Event :=
  match new_pop s with
  | None => (Raised AttributeError, s, tr)
  | Some b =>
      match insert_params (model s) b with
      | Raise e => (Raised e, s, tr)
      | Ok m' =>
          let s' := set_model m' s in
          let tr' := tr ++ [EvInsertParams gen_idx (head_data (model s)) (head_data m')] in
          if (exp_timesteps (config s') <? timesteps s')%Z
          then (Break ByBudget, s', tr')
          else (Next, s', tr')
      end
  end.

(** Whether the periodic evaluation is due (line 53). *)
Definition evaluation_due (s : RunState) : bool :=
  (exp_log_interval (config s) <=? timesteps s - last_log s)%Z
  || (exp_timesteps (config s) <? timesteps s)%Z.

(** The body of [for self.gen_idx in range(10000)]. *)
Definition generation (gen_idx : nat) (s : RunState) (tr : list Event)
  : Flow * RunState * list Event :=
  match collect_and_update s with
  | (Raise e, s1) => (Raised e, s1, tr)
  | (Ok _, s1) =>
      if evaluation_due s1 then
        match _test_algorithm s1 with
        | (Raise e, s2) => (Raised e, s2, tr)
        | (Ok test_fit, s2) =>
            let tr1 := tr ++ [EvEvaluate gen_idx (head_data (model s1)) test_fit;
                              EvSaveFitnesses gen_idx (timesteps s2) test_fit] in
            if (exp_print_interval (config s2) =? 0)%Z
            then (Raised ZeroDivisionError, s2, tr1)
            else
              let tr2 :=
                if (Z.of_nat gen_idx mod exp_print_interval (config s2) =? 0)%Z
                then tr1 ++ [EvPrintData gen_idx] else tr1 in
              let s3 := set_last_log (timesteps s2) s2 in
              match stop_fit s3 with
              | None => (Raised AttributeError, s3, tr2)
              | Some threshold =>
                  if Qle_bool threshold test_fit
                  then (Break ByFitness, s3, tr2)
                  else install gen_idx s3 tr2
              end
        end
      else install gen_idx s1 tr
  end.

(** [for self.gen_idx in range(ceiling)], from [gen_idx] on. *)
Fixpoint generations (remaining gen_idx : nat) (s : RunState) (tr : list Event)
  : Outcome * RunState * list Event :=
  match remaining with
  | O => (Exhausted, s, tr)
  | Datatypes.S remaining' =>
      match generation gen_idx s tr with
      | (Next, s', tr') => generations remaining' (Datatypes.S gen_idx) s' tr'
      | (Break why, s', tr') => (Stopped why, s', tr')
      | (Raised e, s', tr') => (Aborted e, s', tr')
      end
  end.

(** One pass of [for run_idx in range(num_runs)]: the run and
    [logger.end_run()].  An exception leaves [train]. *)
Definition run (r : EvoACRunner) (tr : list Event)
  : Outcome * option RunState * list Event :=
  match _reset_experiment r with
  | Raise e => (Aborted e, None, tr)
  | Ok s0 =>
      match generations 10000 0 s0 tr with
      | (Aborted e, s, tr') => (Aborted e, Some s, tr')
      | (o, s, tr') => (o, Some s, tr' ++ [EvEndRun])
      end
  end.

Fixpoint runs (n : nat) (r : EvoACRunner) (tr : list Event)
  : Result EvoACRunner * list Event :=
  match n with
  | O => (Ok r, tr)
  | Datatypes.S n' =>
      match run r tr with
      | (Aborted e, _, tr') => (Raise e, tr')
      | (_, None, tr') => (Ok r, tr')
      | (_, Some s, tr') => runs n' (runner_of s) tr'
      end
  end.

Definition train (r : EvoACRunner) : Result EvoACRunner * list Event :=
  match runs (exp_num_runs (r_config r)) r [] with
  | (Raise e, tr) => (Raise e, tr)
  | (Ok r', tr) => (Ok r', tr ++ [EvEndExperiment])
  end.

(** The means that the evaluations of a trace returned, in order. *)
Definition evaluations (tr : list Event) : list Q :=
  omap (fun ev => match ev with EvEvaluate _ _ f => Some f | _ => None end) tr.

Definition event_gen (ev : Event) : option nat :=
  match ev with
  | EvEvaluate g _ _ | EvSaveFitnesses g _ _ | EvPrintData g | EvInsertParams g _ _ => Some g
  | EvEndRun | EvEndExperiment => None
  end.

Definition is_install (ev : Event) : bool :=
  match ev with EvInsertParams _ _ _ => true | _ => false end.

(** ** What one generation adds to the trace *)

(** The calls to the logger that follow an evaluation of generation
    [g]. *)
Definition is_log_of (g : nat) (ev : Event) : Prop :=
  (exists ts f, ev = EvSaveFitnesses g ts f) \/ ev = EvPrintData g.

Definition eval_and_log (g : nat) (hd : list (list (list Tensor))) (ts : Z) (f : Q)
    (printed : bool) : list Event :=
  [EvEvaluate g hd f; EvSaveFitnesses g ts f] ++ (if printed then [EvPrintData g] else []).

(** The possible ends of one pass through the loop body, with the
    events the pass adds. *)
Inductive gen_block (threshold : option Q) (print_interval : Z) (g : nat)
  : Flow -> list Event -> Prop :=
| block_raised e :
    gen_block threshold print_interval g (Raised e) []
| block_install pre post :
    gen_block threshold print_interval g Next [EvInsertParams g pre post]
| block_zero_division hd ts f :
    print_interval = 0%Z ->
    gen_block threshold print_interval g (Raised ZeroDivisionError)
              [EvEvaluate g hd f; EvSaveFitnesses g ts f]
| block_no_threshold hd ts f printed :
    print_interval <> 0%Z -> threshold = None ->
    gen_block threshold print_interval g (Raised AttributeError)
              (eval_and_log g hd ts f printed)
| block_converged hd ts f printed T :
    print_interval <> 0%Z -> threshold = Some T -> Qle_bool T f = true ->
    gen_block threshold print_interval g (Break ByFitness)
              (eval_and_log g hd ts f printed)
| block_install_raised hd ts f printed T e :
    print_interval <> 0%Z -> threshold = Some T -> Qle_bool T f = false ->
    gen_block threshold print_interval g (Raised e)
              (eval_and_log g hd ts f printed)
| block_evaluated_installed hd ts f printed T post flow :
    print_interval <> 0%Z -> threshold = Some T -> Qle_bool T f = false ->
    flow = Next \/ flow = Break ByBudget ->
    gen_block threshold print_interval g flow
              (eval_and_log g hd ts f printed ++ [EvInsertParams g hd post]).

(** The ends of the generation loop started at generation [g], with
    the events it adds: a sequence of passes that go on, closed by a
    pass that breaks or raises, or by the iteration ceiling. *)
Inductive run_blocks (threshold : option Q) (print_interval : Z)
  : nat -> Outcome -> list Event -> Prop :=
| run_exhausted g :
    run_blocks threshold print_interval g Exhausted []
| run_next g blk o rest :
    gen_block threshold print_interval g Next blk ->
    run_blocks threshold print_interval (Datatypes.S g) o rest ->
    run_blocks threshold print_interval g o (blk ++ rest)
| run_break g why blk :
    gen_block threshold print_interval g (Break why) blk ->
    run_blocks threshold print_interval g (Stopped why) blk
| run_abort g e blk :
    gen_block threshold print_interval g (Raised e) blk ->
    run_blocks threshold print_interval g (Aborted e) blk.

(** ** What a method leaves untouched *)

(** [c] relates every state to the state it leaves. *)
Definition preserves {A} (R : relation RunState) (c : M A) : Prop :=
  ∀ s, R s (c s).2.

(** Configuration and threshold are those of the start. *)
Definition same_setup (s s' : RunState) : Prop :=
  config s' = config s ∧ stop_fit s' = stop_fit s.

(** Moreover the network and the step counter are untouched. *)
Definition same_model (s s' : RunState) : Prop :=
  same_setup s s' ∧ model s' = model s ∧ timesteps s' = timesteps s
  ∧ storage s' = storage s ∧ new_pop s' = new_pop s ∧ last_log s' = last_log s.

End Runner.

(* ================================================================== *)
(** * A small world to run the coordinator in *)

(** Collaborators simple enough to compute with: an environment whose
    episodes last two steps with a fixed reward per step, heads made of
    one Linear layer whose output is its bias, a base-two normalised
    exponential, a storage that keeps the fitnesses, and an evolutionary
    step that returns every parameter with its bits incremented. *)

Definition pow2 (x : Q) : Q := Qpower 2 (Qnum x / Zpos (Qden x)).

Definition softmax2 (l : list Q) : list Q :=
  let w := pow2 <$> l in (fun x => (x / sum_Q w)%Q) <$> w.

#[global] Instance toy_torch : Torch unit := {|
  nn_new spec g :=
    if decide (layer_type spec = "Linear"%string)
    then (Ok (linear (tensor1 [0%Z]) (tensor1 (layer_params spec)) None None), g)
    else if decide (layer_type spec = "ReLU"%string) then (Ok relu, g)
    else (Raise AttributeError, g);
  nn_forward spec layer x :=
    match layer !! 1 with
    | Some (_, b) => inject_Z <$> t_bits (p_data b)
    | None => x
    end;
  softmax := softmax2;
  categorical_log_prob _ _ := 0%Q;
  categorical_entropy _ := 0%Q;
  backward_grad _ _ _ _ old := Some (default (tensor1 [0%Z]) old);
  adam_step _ shared value := (shared, value)
|}.

(** The state of a toy environment: steps taken in the episode and the
    reward of each step. *)
#[global] Instance toy_gym : Gym (nat * Q) nat := {|
  gym_make id :=
    if decide (id = "CartPole-v1"%string) then Some (0, 250%Q)
    else if decide (id = "LunarLander-v2"%string) then Some (0, 1%Q)
    else if decide (id = "Acrobot-v1"%string) then Some (0, (-1)%Q)
    else None;
  env_reset e := (0, (0, e.2));
  env_step e _ := (Datatypes.S e.1, e.2, bool_decide (2 ≤ Datatypes.S e.1), (Datatypes.S e.1, e.2));
  action_space_n _ := 2;
  max_episode_steps _ := Some 500
|}.

#[global] Instance toy_storage : Storage (list Q) nat unit := {|
  storage_new n _ := replicate n 0%Q;
  reset_storage s := replicate (length s) 0%Q;
  storage_insert s _ _ _ _ _ _ := s;
  insert_fitness s pop_idx fitness := <[pop_idx := fitness]> s;
  storage_fitnesses s := s;
  obs2tensor obs := [inject_Z (Z.of_nat obs)];
  get_loss _ := (tt, 0%Q, 0%Q)
|}.

Definition bump (t : Tensor) : Tensor :=
  {| t_shape := t_shape t; t_bits := Z.succ <$> t_bits t |}.

#[global] Instance toy_ea : Evolution unit := {|
  EA_new _ := tt;
  set_params ea _ := ea;
  set_grads ea _ := ea;
  set_fitnesses ea _ := ea;
  create_new_pop ea m g :=
    ((fun entry : list TensorRef =>
        (fun r => Fresh (bump (default (tensor1 []) (read m r)))) <$> entry)
     <$> extract_params m, ea, g)
|}.

Definition rng_const (u : Q) : Rng := {| rng_draws := fun _ => u; rng_pos := 0 |}.

(** Two individuals, each a Linear head with bias [1, 0]: two actions,
    the first twice as likely as the second; a Linear value head with
    bias [0]. *)
Definition toy_config (env_id test_strat : string) : Config :=
  {| pop_size := 2;
     neural_net :=
       {| net_shared := [];
          net_policy := [ {| layer_type := "Linear"; layer_params := [1; 0]%Z;
                             layer_kwargs := [] |} ];
          net_value := [ {| layer_type := "Linear"; layer_params := [0]%Z;
                            layer_kwargs := [] |} ];
          net_lr := 1 # 1000 |};
     exp_env := env_id;
     exp_num_runs := 1;
     exp_timesteps := 3;
     exp_log_interval := 1;
     exp_print_interval := 1;
     exp_test_strat := test_strat |}.

Definition toy_model : EvoACModel :=
  {| shared_net := [];
     policy_nets := [ [linear (tensor1 [0%Z]) (tensor1 [1; 0]%Z) None None];
                      [linear (tensor1 [0%Z]) (tensor1 [1; 0]%Z) None None] ];
     value_net := [linear (tensor1 [0%Z]) (tensor1 [0%Z]) None None] |}.

(** The state in which the first run starts, for uniform draws that are
    all [u]. *)
Definition toy_state (env_id test_strat : string) (reward u : Q)
  : @RunState (nat * Q) (list Q) unit :=
  {| config := toy_config env_id test_strat;
     stop_fit := stop_fit_of env_id;
     env := (0, reward);
     test_env := (0, reward);
     torch_rng := rng_const u;
     np_rng := rng_const u;
     storage := [0; 0]%Q;
     model := toy_model;
     evo := tt;
     new_pop := None;
     timesteps := 0;
     last_log := (-9999999);
     loss_log := (0%Q, 0%Q) |}.

Definition toy_start (env_id test_strat : string) (u : Q)
  : Result (@RunState (nat * Q) (list Q) unit) :=
  r ← __init__ (toy_config env_id test_strat) (rng_const u) (rng_const u);
  _reset_experiment r.

Definition toy_runner (env_id test_strat : string) (reward u : Q)
  : @EvoACRunner (nat * Q) :=
  {| r_config := toy_config env_id test_strat;
     r_stop_fit := stop_fit_of env_id;
     r_env := (0, reward);
     r_test_env := (0, reward);
     r_torch_rng := rng_const u;
     r_np_rng := rng_const u |}.

(* ================================================================== *)
(** * What the phases of a generation may write *)

Section Footprints.
Context {E S EAst : Type}.

(** The evaluation: everything but the test environment and the two
    random sources is as before. *)
Definition evaluation_footprint (s s' : @RunState E S EAst) : Prop :=
  config s' = config s ∧ stop_fit s' = stop_fit s ∧ env s' = env s ∧
  storage s' = storage s ∧ model s' = model s ∧ evo s' = evo s ∧
  new_pop s' = new_pop s ∧ timesteps s' = timesteps s ∧
  last_log s' = last_log s ∧ loss_log s' = loss_log s.

(** The rollouts: they write the training environment, torch's random
    source, the storage and the step counter, which never decreases. *)
Definition rollout_footprint (s s' : @RunState E S EAst) : Prop :=
  config s' = config s ∧ stop_fit s' = stop_fit s ∧ test_env s' = test_env s ∧
  np_rng s' = np_rng s ∧ model s' = model s ∧ evo s' = evo s ∧
  new_pop s' = new_pop s ∧ last_log s' = last_log s ∧ loss_log s' = loss_log s ∧
  (timesteps s <= timesteps s')%Z.

(** Rollouts and combined update together: the values of the head
    parameters are as before, and so are the configuration, the
    threshold, the test environment and [last_log]. *)
Definition training_footprint (s s' : @RunState E S EAst) : Prop :=
  config s' = config s ∧ stop_fit s' = stop_fit s ∧ test_env s' = test_env s ∧
  last_log s' = last_log s ∧ head_data (model s') = head_data (model s) ∧
  (timesteps s <= timesteps s')%Z.

End Footprints.

(** Counting the events of a trace that satisfy a test. *)
Definition count_events (p : Event -> bool) (tr : list Event) : nat :=
  length (List.filter p tr).

Definition is_end_run (ev : Event) : bool :=
  match ev with EvEndRun => true | _ => false end.

Definition is_end_experiment (ev : Event) : bool :=
  match ev with EvEndExperiment => true | _ => false end.

(** The result of [get_action] as [_get_test_action] uses it under
    "best" and "softmax": the action of one individual. *)
Section Consult.
Context {E Obs S EAst L : Type}.
Context `{!Torch L, !Gym E Obs, !Storage S Obs L, !Evolution EAst}.

Definition consult (obs : Obs) (pop_idx : nat) : @M E S EAst nat :=
  r ← model_get_action (obs2tensor obs) pop_idx;
  mret (action r).

(** The value output of [forward], or the exception it raises. *)
Definition value_estimate (net : NetConfig) (m : EvoACModel) (x : list Q) (pop_idx : nat)
  : Result (list Q) :=
  pv ← forward net m x pop_idx;
  Ok pv.2.

End Consult.

(** ** One more inhabitant of the small world *)

(** The start of a LunarLander run of the small world with a step
    budget of [budget] instead of 3. *)
Definition toy_state_with_budget (budget : Z) (u : Q)
  : @RunState (nat * Q) (list Q) unit :=
  let s := toy_state "LunarLander-v2" "weightedvote" 1 u in
  {| config :=
       {| pop_size := pop_size (config s);
          neural_net := neural_net (config s);
          exp_env := exp_env (config s);
          exp_num_runs := exp_num_runs (config s);
          exp_timesteps := budget;
          exp_log_interval := exp_log_interval (config s);
          exp_print_interval := exp_print_interval (config s);
          exp_test_strat := exp_test_strat (config s) |};
     stop_fit := stop_fit s;
     env := env s;
     test_env := test_env s;
     torch_rng := torch_rng s;
     np_rng := np_rng s;
     storage := storage s;
     model := model s;
     evo := evo s;
     new_pop := new_pop s;
     timesteps := timesteps s;
     last_log := last_log s;
     loss_log := loss_log s |}.

(* ================================================================== *)
(** * Properties *)

(* ================================================================== *)
(** * Lemmas on lists and results *)

Lemma list_alter_fixed {A} (f : A → A) (l : list A) (i : nat) (x : A) :
  l !! i = Some x → f x = x → alter f i l = l.
Proof.
  revert i. induction l as [|y l IH]; intros [|i] Hi Hf; simpl in *; try done.
  - simplify_eq. by rewrite Hf.
  - f_equal. by apply IH.
Qed.

Lemma lookup_drop_cons {A} (l ps : list A) (k : nat) (x : A) :
  drop k l = x :: ps → l !! k = Some x ∧ drop (S k) l = ps.
Proof.
  intros H. split.
  - assert (drop k l !! 0 = Some x) as H0 by (by rewrite H).
    by rewrite lookup_drop, Nat.add_0_r in H0.
  - replace (S k) with (k + 1) by lia. by rewrite <- drop_drop, H.
Qed.

(** ** [copy_] of a parameter's own value *)

Lemma live_Some m pop li k p :
  live m pop li k = Some p ↔
  ∃ ind layer n, policy_nets m !! pop = Some ind ∧ ind !! li = Some layer ∧
                 layer !! k = Some (n, p).
Proof.
  unfold live. split.
  - intros H. destruct (policy_nets m !! pop) as [ind|] eqn:E1; simpl in H; [|done].
    destruct (ind !! li) as [layer|] eqn:E2; simpl in H; [|done].
    destruct (layer !! k) as [[n q]|] eqn:E3; simpl in H; [|done].
    simplify_eq. eauto 10.
  - intros (ind & layer & n & -> & H2 & H3). simpl. rewrite H2. simpl. by rewrite H3.
Qed.

Lemma copy_own_value m pop li k p :
  live m pop li k = Some p → copy_ m pop li k (p_data p) = m.
Proof.
  intros (ind & layer & n & H1 & H2 & H3)%live_Some.
  unfold copy_. destruct m as [sh nets va]; simpl in *. f_equal.
  eapply list_alter_fixed; [exact H1|].
  eapply list_alter_fixed; [exact H2|].
  eapply list_alter_fixed; [exact H3|].
  unfold set_param_data. simpl. by destruct p.
Qed.

(** ** The inner loop that fills the state dictionary *)

Lemma fill_state_dict_Ok incoming pop entry names i sd :
  incoming !! pop = Some entry →
  i + length names ≤ length entry →
  ∃ sd', fill_state_dict incoming pop names i sd = Ok (sd', i + length names) ∧
         (∀ n, n ∉ names → sd' !! n = sd !! n) ∧
         (NoDup names → ∀ j n, names !! j = Some n → sd' !! n = entry !! (i + j)).
Proof.
  intros Hin. revert i sd.
  induction names as [|name names IH]; intros i sd Hlen; simpl in *.
  - exists sd. rewrite Nat.add_0_r. split; [done|]. split; [done|]. intros _ j n Hj. done.
  - rewrite Hin.
    destruct (entry !! i) as [t|] eqn:Et.
    2:{ apply lookup_ge_None in Et. lia. }
    destruct (IH (S i) (<[name:=t]> sd)) as (sd' & Hfill & Hout & Hat); [lia|].
    exists sd'. split; [rewrite Hfill; f_equal; f_equal; lia|]. split.
    + intros n Hn. rewrite Hout.
      * apply lookup_insert_ne. intros ->. apply Hn. left.
      * intros Hn'. apply Hn. by right.
    + intros Hnd j n Hj. apply NoDup_cons in Hnd as [Hfresh Hnd].
      destruct j as [|j]; simpl in Hj.
      * simplify_eq. rewrite Hout by done. rewrite lookup_insert_eq, Nat.add_0_r. done.
      * rewrite (Hat Hnd j n Hj). f_equal. lia.
Qed.

Lemma fill_state_dict_short incoming pop names i sd :
  names ≠ [] →
  (∀ entry, incoming !! pop = Some entry → length entry < i + length names) →
  fill_state_dict incoming pop names i sd = Raise IndexError.
Proof.
  revert i sd. induction names as [|name names IH]; intros i sd Hne Hshort; [done|].
  simpl. destruct (incoming !! pop) as [entry|] eqn:Hin; [|done].
  destruct (entry !! i) as [t|] eqn:Et; [|done].
  apply IH.
  - intros ->. specialize (Hshort entry eq_refl). simpl in Hshort.
    apply lookup_lt_Some in Et. lia.
  - intros entry' [= <-].
    specialize (Hshort entry eq_refl). simpl in Hshort. lia.
Qed.

(** ** Round trip: loading what was just extracted *)

Lemma fst_imap_keys {A B C} (g : nat → C) (l : list (A * B)) :
  (imap (λ k np, (np.1, g k)) l).*1 = l.*1.
Proof.
  revert g. induction l as [|x l IH]; intros g; simpl; [done|].
  f_equal. apply (IH (g ∘ S)).
Qed.

Lemma state_dict_lookup pop li (layer : Layer) k n p :
  wf_layer layer → layer !! k = Some (n, p) →
  state_dict pop li layer !! n = Some (DataOf pop li k).
Proof.
  intros Hwf Hk. unfold state_dict.
  apply elem_of_list_to_map.
  - by rewrite fst_imap_keys.
  - apply list_elem_of_lookup. exists k. by rewrite list_lookup_imap, Hk.
Qed.

Lemma load_state_dict_self m pop li layer sd ps k :
  (policy_nets m !! pop ≫= (.!! li)) = Some layer →
  drop k layer = ps →
  (∀ j n p, layer !! j = Some (n, p) → sd !! n = Some (DataOf pop li j)) →
  load_state_dict m pop li k ps sd = Ok m.
Proof.
  intros Hlayer Hdrop Hsd. revert k Hdrop.
  induction ps as [|[n p] ps IH]; intros k Hdrop; simpl; [done|].
  apply lookup_drop_cons in Hdrop as [Hk Hdrop].
  rewrite (Hsd _ _ _ Hk). simpl.
  assert (live m pop li k = Some p) as Hlive.
  { unfold live. destruct (policy_nets m !! pop) as [ind|]; simpl in *; [|done].
    rewrite Hlayer. simpl. by rewrite Hk. }
  rewrite Hlive. simpl. rewrite decide_True by done.
  rewrite (copy_own_value _ _ _ _ _ Hlive). by apply IH.
Qed.

Lemma insert_layers_self m incoming pop ind entry layers li :
  policy_nets m !! pop = Some ind →
  Forall wf_layer ind →
  incoming !! pop = Some entry →
  drop li ind = layers →
  ∀ pre, entry = pre ++ concat (imap (λ i layer, imap (λ k _, DataOf pop (li + i) k)
                                                     (named_parameters layer)) layers) →
  insert_layers incoming pop li layers (length pre) m = Ok m.
Proof.
  intros Hind Hwf Hin. revert li.
  induction layers as [|layer layers IH]; intros li Hdrop pre Hentry; simpl; [done|].
  apply lookup_drop_cons in Hdrop as [Hli Hdrop].
  assert (wf_layer layer) as Hwfl.
  { eapply Forall_lookup_1; eauto. }
  simpl in Hentry. rewrite Nat.add_0_r in Hentry.
  unfold named_parameters in *.
  destruct (fill_state_dict_Ok incoming pop entry (layer.*1) (length pre)
              (state_dict pop li layer) Hin) as (sd' & Hfill & _ & Hat).
  { rewrite Hentry, !length_app, length_imap, length_fmap. lia. }
  rewrite Hfill. simpl.
  rewrite (load_state_dict_self m pop li layer sd' layer 0); simpl.
  - rewrite length_fmap.
    replace (length pre + length layer)
      with (length (pre ++ imap (λ k _, DataOf pop li k) layer))
      by (by rewrite length_app, length_imap).
    apply IH; [done|].
    rewrite Hentry, <- app_assoc. do 3 f_equal.
    apply imap_ext. intros i x _. simpl. apply imap_ext. intros. f_equal. lia.
  - by rewrite Hind.
  - done.
  - intros j n p Hj. rewrite (Hat Hwfl j n).
    + rewrite Hentry, lookup_app_r by lia.
      replace (length pre + j - length pre) with j by lia.
      rewrite lookup_app_l by (rewrite length_imap; by eapply lookup_lt_Some).
      by rewrite list_lookup_imap, Hj.
    + by rewrite list_lookup_fmap, Hj.
Qed.

Lemma insert_individuals_self m pop individuals :
  wf_model m →
  drop pop (policy_nets m) = individuals →
  insert_individuals (extract_params m) pop individuals m = Ok m.
Proof.
  intros Hwf. revert pop.
  induction individuals as [|ind individuals IH]; intros pop Hdrop; simpl; [done|].
  apply lookup_drop_cons in Hdrop as [Hpop Hdrop].
  assert (insert_layers (extract_params m) pop 0 ind 0 m = Ok m) as ->.
  { apply (insert_layers_self m (extract_params m) pop ind
             (individual_params pop ind) ind 0 Hpop) with (pre := []).
    - eapply Forall_lookup_1; eauto.
    - unfold extract_params. by rewrite list_lookup_imap, Hpop.
    - done.
    - done. }
  simpl. by apply IH.
Qed.

(** C1. Round trip: on every network (the parameter names of a layer
    being distinct, as in any torch module), [insert_params] applied to
    what [extract_params] has just returned succeeds and leaves the
    whole network as it was; every head parameter of every individual
    keeps its value, bit for bit. *)
Theorem insert_extract_noop (m : EvoACModel) :
  wf_model m →
  insert_params m (extract_params m) = Ok m.
Proof.
  intros Hwf. unfold insert_params. by apply insert_individuals_self.
Qed.

(** ** The layout of extraction *)

Lemma read_layer_params m pop ind li layer :
  policy_nets m !! pop = Some ind → ind !! li = Some layer →
  read m <$> imap (λ k _, DataOf pop li k) layer =
  (λ np : string * Param, Some (p_data np.2)) <$> layer.
Proof.
  intros Hpop Hli. apply list_eq. intros k.
  rewrite !list_lookup_fmap, list_lookup_imap.
  destruct (layer !! k) as [[n p]|] eqn:Hk; simpl; [|done].
  unfold live. rewrite Hpop. simpl. rewrite Hli. simpl. by rewrite Hk.
Qed.

Lemma read_individual_params_from m pop ind layers li :
  policy_nets m !! pop = Some ind → drop li ind = layers →
  read m <$> concat (imap (λ i layer, imap (λ k _, DataOf pop (li + i) k) layer) layers) =
  (λ np : string * Param, Some (p_data np.2)) <$> concat layers.
Proof.
  intros Hpop. revert li.
  induction layers as [|layer layers IH]; intros li Hdrop; simpl; [done|].
  apply lookup_drop_cons in Hdrop as [Hli Hdrop].
  rewrite !fmap_app, Nat.add_0_r. f_equal.
  - by eapply read_layer_params.
  - rewrite <- (IH (S li) Hdrop). do 2 f_equal.
    apply imap_ext. intros i x _. simpl. apply imap_ext. intros. f_equal. lia.
Qed.

Lemma read_individual_params m pop ind :
  policy_nets m !! pop = Some ind →
  read m <$> individual_params pop ind =
  (λ np : string * Param, Some (p_data np.2)) <$> concat ind.
Proof.
  intros Hpop. unfold individual_params, named_parameters.
  by apply (read_individual_params_from m pop ind ind 0).
Qed.

Lemma extract_params_flattens m :
  extract_params m =
  (λ layered : list (list TensorRef), concat layered) <$> extract_params_by_layer m.
Proof.
  unfold extract_params, extract_params_by_layer.
  apply list_eq. intros pop.
  rewrite list_lookup_fmap, !list_lookup_imap.
  by destruct (policy_nets m !! pop).
Qed.

(** C7.  The code departs from its own docstring ("Indexed as
    [[individual][layer][parameter]]"): for the network of two heads
    Linear - ReLU - Linear, the entry of an individual is one flat list
    of four tensors, not three per-layer sub-lists (of two, no and two
    tensors); the returned value differs from the documented layout. *)
Lemma extract_params_not_nested :
  tree_of_bundle (extract_params two_heads)
    ≠ tree_of_layered (extract_params_by_layer two_heads) ∧
  (length <$> extract_params two_heads) = [4; 4] ∧
  (length <$> policy_nets two_heads) = [3; 3].
Proof. split; [discriminate|]. split; reflexivity. Qed.

(** What [extract_params] returns in place of the documented
    layout: one entry per individual, in population order.  The entry of an individual is a single flat list:
    the concatenation, in layer order, of each layer's parameter tensors
    in declaration order.  Read through the network, the entry holds
    exactly the values (hence the shapes) of the head's parameters, so
    its length is the total parameter count of the head. *)
Theorem extract_params_layout (m : EvoACModel) :
  length (extract_params m) = length (policy_nets m) ∧
  extract_params m =
    (λ layered : list (list TensorRef), concat layered) <$> extract_params_by_layer m ∧
  ∀ pop individual, policy_nets m !! pop = Some individual →
    ∃ entry, extract_params m !! pop = Some entry ∧
      read m <$> entry = (λ np : string * Param, Some (p_data np.2)) <$> concat individual ∧
      length entry = sum_list (length <$> individual).
Proof.
  split; [apply length_imap|]. split; [apply extract_params_flattens|].
  intros pop ind Hpop. exists (individual_params pop ind).
  split; [unfold extract_params; by rewrite list_lookup_imap, Hpop|].
  pose proof (read_individual_params m pop ind Hpop) as Hread.
  split; [done|].
  apply (f_equal length) in Hread. rewrite !length_fmap in Hread.
  rewrite Hread. clear. induction ind as [|l ind IH]; simpl; [done|].
  rewrite length_app. by rewrite IH.
Qed.

(** ** Gradients *)

Lemma layer_grads_Ok pop li k ps :
  Forall (λ np : string * Param, is_Some (p_grad np.2)) ps →
  layer_grads pop li k ps = Ok (imap (λ j _, GradOf pop li (k + j)) ps).
Proof.
  intros Hall. revert k.
  induction Hall as [|[n p] ps [g Hg] Hall IH]; intros k; simpl; [done|].
  simpl in Hg. rewrite Hg, (IH (S k)). simpl. rewrite Nat.add_0_r. do 2 f_equal.
  apply imap_ext. intros. simpl. f_equal. lia.
Qed.

Lemma layer_grads_Raise pop li k ps :
  ¬ Forall (λ np : string * Param, is_Some (p_grad np.2)) ps →
  layer_grads pop li k ps = Raise AttributeError.
Proof.
  revert k. induction ps as [|[n p] ps IH]; intros k Hno; simpl.
  - destruct Hno. constructor.
  - destruct (p_grad p) as [g|] eqn:Hg; [|done].
    rewrite IH; [done|]. intros Hall. apply Hno. constructor; [|done]. simpl. by rewrite Hg.
Qed.

Lemma individual_grads_Ok pop li layers :
  Forall grads_present layers →
  individual_grads pop li layers =
  Ok (concat (imap (λ i layer, imap (λ k _, GradOf pop (li + i) k) layer) layers)).
Proof.
  intros Hall. revert li.
  induction Hall as [|layer layers Hl Hall IH]; intros li; simpl; [done|].
  unfold named_parameters. rewrite (layer_grads_Ok _ _ _ _ Hl), (IH (S li)). simpl.
  rewrite Nat.add_0_r. do 3 f_equal.
  apply imap_ext. intros. simpl. apply imap_ext. intros. f_equal. lia.
Qed.

Lemma individual_grads_Raise pop li layers :
  ¬ Forall grads_present layers →
  individual_grads pop li layers = Raise AttributeError.
Proof.
  revert li. induction layers as [|layer layers IH]; intros li Hno; simpl.
  - destruct Hno. constructor.
  - unfold named_parameters. destruct (decide (grads_present layer)) as [Hl|Hl].
    + rewrite (layer_grads_Ok _ _ _ _ Hl). simpl.
      rewrite IH; [done|]. intros Hall. apply Hno. by constructor.
    + by rewrite (layer_grads_Raise _ _ _ _ Hl).
Qed.

Lemma to_grad_individual_params pop ind :
  to_grad <$> individual_params pop ind =
  concat (imap (λ (i : nat) (layer : list (string * Param)), imap (λ k _, GradOf pop i k) layer) ind).
Proof.
  unfold individual_params, named_parameters.
  change (λ (i : nat) (layer : list (string * Param)), imap (λ k _, GradOf pop i k) layer)
    with (λ (i : nat) (layer : list (string * Param)), imap (λ k _, GradOf pop (0 + i) k) layer).
  change (λ (li : nat) (layer : list (string * Param)), imap (λ k _, DataOf pop li k) layer)
    with (λ (li : nat) (layer : list (string * Param)), imap (λ k _, DataOf pop (0 + li) k) layer).
  generalize 0. induction ind as [|layer ind IH]; intros b; simpl; [done|].
  rewrite fmap_app. f_equal.
  - rewrite fmap_imap. done.
  - etrans; [|etrans; [apply (IH (S b))|]].
    + do 2 f_equal. apply imap_ext. intros. simpl. apply imap_ext. intros. f_equal. lia.
    + f_equal. apply imap_ext. intros. simpl. apply imap_ext. intros. f_equal. lia.
Qed.

Lemma population_grads_Ok pop individuals :
  Forall (Forall grads_present) individuals →
  population_grads pop individuals =
  Ok (imap (λ i ind, to_grad <$> individual_params (pop + i) ind) individuals).
Proof.
  intros Hall. revert pop.
  induction Hall as [|ind individuals Hi Hall IH]; intros pop; simpl; [done|].
  rewrite (individual_grads_Ok _ _ _ Hi), (IH (S pop)). simpl.
  rewrite Nat.add_0_r, to_grad_individual_params. do 2 f_equal.
  apply imap_ext. intros. simpl. do 2 f_equal. lia.
Qed.

Lemma population_grads_Raise pop individuals :
  ¬ Forall (Forall grads_present) individuals →
  population_grads pop individuals = Raise AttributeError.
Proof.
  revert pop. induction individuals as [|ind individuals IH]; intros pop Hno; simpl.
  - destruct Hno. constructor.
  - destruct (decide (Forall grads_present ind)) as [Hi|Hi].
    + rewrite (individual_grads_Ok _ _ _ Hi). simpl.
      rewrite IH; [done|]. intros Hall. apply Hno. by constructor.
    + by rewrite (individual_grads_Raise _ _ _ Hi).
Qed.

Lemma all_grads_present m :
  (∀ pop li k p, live m pop li k = Some p → is_Some (p_grad p)) ↔
  Forall (Forall grads_present) (policy_nets m).
Proof.
  split.
  - intros Hall. apply Forall_lookup. intros pop ind Hpop.
    apply Forall_lookup. intros li layer Hli.
    apply Forall_lookup. intros k [n p] Hk. simpl.
    apply (Hall pop li k). apply live_Some. eauto 10.
  - intros Hall pop li k p (ind & layer & n & H1 & H2 & H3)%live_Some.
    pose proof (Forall_lookup_1 _ _ _ _ Hall H1) as Hi.
    pose proof (Forall_lookup_1 _ _ _ _ Hi H2) as Hl.
    apply (Forall_lookup_1 _ _ _ _ Hl H3).
Qed.

Lemma ref_shape_to_grad m r :
  wf_grads m →
  (∀ pop li k p, live m pop li k = Some p → is_Some (p_grad p)) →
  ref_shape m (to_grad r) = ref_shape m r.
Proof.
  intros Hwf Hall. destruct r as [pop li k|pop li k|t]; simpl; try done.
  unfold ref_shape. simpl.
  destruct (live m pop li k) as [p|] eqn:Hlive; simpl; [|done].
  destruct (Hall _ _ _ _ Hlive) as [g Hg]. rewrite Hg. simpl. f_equal.
  apply live_Some in Hlive as (ind & layer & n & H1 & H2 & H3).
  pose proof (Forall_lookup_1 _ _ _ _ Hwf H1) as Hi.
  pose proof (Forall_lookup_1 _ _ _ _ Hi H2) as Hl.
  pose proof (Forall_lookup_1 _ _ _ _ Hl H3) as Hp.
  unfold wf_grad in Hp. simpl in Hp. by rewrite Hg in Hp.
Qed.

(** C6. If some head parameter of some individual has no gradient,
    [extract_grads] raises ([AttributeError]) and returns no bundle, in
    particular no zero gradient for that position.  If every head
    parameter has its gradient, [extract_grads] returns a bundle with
    one entry per individual whose entries resolve and have, position
    by position, the shapes of the bundle of [extract_params]. *)
Theorem extract_grads_contract (m : EvoACModel) :
  (∀ pop li k p, live m pop li k = Some p → p_grad p = None →
     extract_grads m = Raise AttributeError) ∧
  (wf_grads m →
   (∀ pop li k p, live m pop li k = Some p → is_Some (p_grad p)) →
   ∃ g, extract_grads m = Ok g ∧
        length g = length (policy_nets m) ∧
        Forall (Forall (λ r, is_Some (read m r))) g ∧
        bundle_shapes m g = bundle_shapes m (extract_params m)).
Proof.
  split.
  - intros pop li k p Hlive Hnone. apply population_grads_Raise.
    intros Hall. pose proof (proj2 (all_grads_present m) Hall) as Hall'.
    destruct (Hall' _ _ _ _ Hlive) as [g Hg]. congruence.
  - intros Hwf Hall.
    pose proof (proj1 (all_grads_present m) Hall) as Hall'.
    eexists. split; [apply (population_grads_Ok 0 _ Hall')|].
    assert (imap (λ i ind, to_grad <$> individual_params (0 + i) ind) (policy_nets m)
            = (λ e : list TensorRef, to_grad <$> e) <$> extract_params m) as ->.
    { unfold extract_params. rewrite fmap_imap. done. }
    split; [by rewrite length_fmap; apply length_imap|]. split.
    + apply Forall_fmap, Forall_lookup. intros pop entry Hentry. simpl.
      apply Forall_fmap, Forall_lookup. intros j r Hr. simpl.
      unfold extract_params in Hentry. rewrite list_lookup_imap in Hentry.
      destruct (policy_nets m !! pop) as [ind|] eqn:Hpop; simpl in Hentry; [|done].
      simplify_eq.
      pose proof (read_individual_params m pop ind Hpop) as Hread.
      apply (f_equal (λ l, l !! j)) in Hread.
      rewrite !list_lookup_fmap, Hr in Hread. simpl in Hread.
      destruct (concat ind !! j) as [np|] eqn:Hnp; simpl in Hread; [|done].
      assert (is_Some (ref_shape m r)) as [sh Hsh].
      { unfold ref_shape. injection Hread as ->. by eexists. }
      rewrite <- (ref_shape_to_grad m r Hwf Hall) in Hsh.
      unfold ref_shape in Hsh. destruct (read m (to_grad r)); [by eexists|done].
    + unfold bundle_shapes. rewrite <- list_fmap_compose.
      apply list_fmap_ext. intros pop entry _. simpl.
      rewrite <- list_fmap_compose. apply list_fmap_ext. intros j r _. simpl.
      by apply ref_shape_to_grad.
Qed.

(** ** Shapes are invariant under [insert_params] *)

Lemma fmap_alter_same {A B} (g : A → B) (f : A → A) (l : list A) (i : nat) :
  (∀ x, l !! i = Some x → g (f x) = g x) → g <$> alter f i l = g <$> l.
Proof.
  revert i. induction l as [|y l IH]; intros [|i] H; simpl; try done.
  - f_equal. by apply H.
  - f_equal. apply IH. intros x Hx. by apply H.
Qed.

Lemma skeleton_copy_ m pop li k p t :
  live m pop li k = Some p → t_shape t = t_shape (p_data p) →
  skeleton (copy_ m pop li k t) = skeleton m.
Proof.
  intros Hlive Ht. unfold skeleton, copy_. simpl.
  apply fmap_alter_same. intros ind Hind.
  apply fmap_alter_same. intros layer Hlayer.
  apply fmap_alter_same. intros [n q] Hq.
  assert (live m pop li k = Some q) as Hlive'.
  { apply live_Some. eauto 10. }
  unfold pinfo, set_param_data. simpl. rewrite Ht. congruence.
Qed.

Lemma skeleton_lookup m pop li k :
  nth3 (skeleton m) pop li k = pinfo <$> nth3 (policy_nets m) pop li k.
Proof.
  unfold nth3, skeleton. rewrite list_lookup_fmap.
  destruct (policy_nets m !! pop) as [ind|]; simpl; [|done].
  rewrite list_lookup_fmap. destruct (ind !! li) as [layer|]; simpl; [|done].
  by rewrite list_lookup_fmap.
Qed.

Lemma live_lookup m pop li k :
  live m pop li k = snd <$> nth3 (policy_nets m) pop li k.
Proof.
  unfold live, nth3. destruct (policy_nets m !! pop) as [ind|]; simpl; [|done].
  by destruct (ind !! li).
Qed.

Lemma skeleton_live m0 m pop li k :
  skeleton m0 = skeleton m →
  (λ p, (t_shape (p_data p), p_grad p)) <$> live m0 pop li k =
  (λ p, (t_shape (p_data p), p_grad p)) <$> live m pop li k.
Proof.
  intros Hsk. rewrite !live_lookup.
  pose proof (skeleton_lookup m0 pop li k) as H0.
  pose proof (skeleton_lookup m pop li k) as H1.
  rewrite Hsk, H1 in H0.
  destruct (nth3 (policy_nets m0) pop li k) as [[n0 p0]|],
           (nth3 (policy_nets m) pop li k) as [[n1 p1]|];
    simpl in *; try done.
  unfold pinfo in H0. simpl in H0. congruence.
Qed.

Lemma ref_shape_skeleton m0 m r :
  skeleton m0 = skeleton m → ref_shape m0 r = ref_shape m r.
Proof.
  intros Hsk. unfold ref_shape. destruct r as [pop li k|pop li k|t]; simpl; [| |done].
  - pose proof (skeleton_live m0 m pop li k Hsk) as H.
    destruct (live m0 pop li k), (live m pop li k); simpl in *; congruence.
  - pose proof (skeleton_live m0 m pop li k Hsk) as H.
    destruct (live m0 pop li k), (live m pop li k); simpl in *; congruence.
Qed.

(** ** When [insert_params] succeeds *)

Lemma load_state_dict_spec m0 pop li ind0 layer0 sd ps :
  policy_nets m0 !! pop = Some ind0 → ind0 !! li = Some layer0 →
  ∀ m k, skeleton m0 = skeleton m → drop k layer0 = ps →
  match load_state_dict m pop li k ps sd with
  | Ok m' =>
      skeleton m0 = skeleton m' ∧
      ∀ j np, ps !! j = Some np →
        (sd !! np.1 ≫= ref_shape m0) = Some (t_shape (p_data np.2))
  | Raise _ =>
      ∃ j np, ps !! j = Some np ∧
        (sd !! np.1 ≫= ref_shape m0) ≠ Some (t_shape (p_data np.2))
  end.
Proof.
  intros Hind0 Hlayer0.
  induction ps as [|[n p] ps IH]; intros m k Hsk Hdrop; simpl.
  - split; [done|]. intros j np Hj. done.
  - apply lookup_drop_cons in Hdrop as [Hk Hdrop].
    destruct (sd !! n) as [r|] eqn:Hr.
    2:{ exists 0, (n, p). split; [done|]. simpl. by rewrite Hr. }
    assert (ref_shape m0 r = t_shape <$> read m r) as Hshape.
    { by rewrite (ref_shape_skeleton m0 m r Hsk). }
    destruct (read m r) as [t|] eqn:Hread.
    2:{ exists 0, (n, p). split; [done|]. simpl. rewrite Hr. simpl. by rewrite Hshape. }
    simpl in Hshape.
    destruct (decide (t_shape t = t_shape (p_data p))) as [Heq|Hne].
    2:{ exists 0, (n, p). split; [done|]. simpl. rewrite Hr. simpl. rewrite Hshape.
        congruence. }
    assert (live m0 pop li k = Some p) as Hlive0.
    { apply live_Some. eauto 10. }
    pose proof (skeleton_live m0 m pop li k Hsk) as Hinfo. rewrite Hlive0 in Hinfo.
    destruct (live m pop li k) as [p'|] eqn:Hlive; simpl in Hinfo; [|done].
    assert (skeleton m0 = skeleton (copy_ m pop li k t)) as Hsk'.
    { rewrite (skeleton_copy_ m pop li k p' t Hlive); [done|]. congruence. }
    specialize (IH (copy_ m pop li k t) (S k) Hsk' Hdrop).
    destruct (load_state_dict (copy_ m pop li k t) pop li (S k) ps sd) as [m'|e].
    + destruct IH as [Hsk'' Hall]. split; [done|].
      intros [|j] np Hj; simpl in Hj.
      * simplify_eq. simpl. rewrite Hr. simpl. rewrite Hshape. by f_equal.
      * by apply (Hall j).
    + destruct IH as (j & np & Hj & Hbad). exists (S j), np. done.
Qed.

Lemma insert_layers_spec m0 incoming pop ind0 layers :
  policy_nets m0 !! pop = Some ind0 → Forall wf_layer ind0 →
  ∀ m li i, skeleton m0 = skeleton m → drop li ind0 = layers →
  match insert_layers incoming pop li layers i m with
  | Ok m' =>
      skeleton m0 = skeleton m' ∧
      ∀ j np, concat layers !! j = Some np →
        incoming_shape m0 incoming pop (i + j) = Some (t_shape (p_data np.2))
  | Raise _ =>
      ∃ j np, concat layers !! j = Some np ∧
        incoming_shape m0 incoming pop (i + j) ≠ Some (t_shape (p_data np.2))
  end.
Proof.
  intros Hpop Hwf.
  induction layers as [|layer layers IH]; intros m li i Hsk Hdrop; simpl.
  - split; [done|]. intros j np Hj. done.
  - apply lookup_drop_cons in Hdrop as [Hli Hdrop].
    assert (wf_layer layer) as Hwfl by (eapply Forall_lookup_1; eauto).
    unfold named_parameters.
    assert ((∃ entry, incoming !! pop = Some entry ∧ i + length layer ≤ length entry) ∨
            ¬ (∃ entry, incoming !! pop = Some entry ∧ i + length layer ≤ length entry))
      as [Hfit|Hshort].
    { destruct (incoming !! pop) as [entry|]; [|right; by intros (e & ? & _)].
      destruct (decide (i + length layer ≤ length entry)); [left; eauto|right].
      intros (e & [= <-] & ?). lia. }
    + destruct Hfit as (entry & Hin & Hlen).
      destruct (fill_state_dict_Ok incoming pop entry (layer.*1) i
                  (state_dict pop li layer) Hin) as (sd' & Hfill & _ & Hat).
      { by rewrite length_fmap. }
      rewrite Hfill. simpl. rewrite length_fmap.
      assert (∀ j np, layer !! j = Some np →
                sd' !! np.1 ≫= ref_shape m0 = incoming_shape m0 incoming pop (i + j)) as Hsd.
      { intros j np Hj. unfold incoming_shape, incoming_at. rewrite Hin. simpl.
        rewrite (Hat Hwfl j (np.1)); [done|]. by rewrite list_lookup_fmap, Hj. }
      pose proof (load_state_dict_spec m0 pop li ind0 layer sd' layer Hpop Hli
                    m 0 Hsk eq_refl) as Hload.
      destruct (load_state_dict m pop li 0 layer sd') as [m'|e]; simpl.
      * destruct Hload as [Hsk' Hall].
        specialize (IH m' (S li) (i + length layer) Hsk' Hdrop).
        destruct (insert_layers incoming pop (S li) layers (i + length layer) m') as [m''|e].
        -- destruct IH as [Hsk'' Hall']. split; [done|]. intros j np Hj.
           destruct (decide (j < length layer)) as [Hlt|Hge].
           ++ rewrite lookup_app_l in Hj by done. rewrite <- (Hsd j np Hj). by apply (Hall j).
           ++ rewrite lookup_app_r in Hj by lia.
              specialize (Hall' _ _ Hj).
              by replace (i + length layer + (j - length layer)) with (i + j) in Hall' by lia.
        -- destruct IH as (j & np & Hj & Hbad). exists (length layer + j), np. split.
           ++ rewrite lookup_app_r by lia. by replace (length layer + j - length layer) with j by lia.
           ++ by replace (i + (length layer + j)) with (i + length layer + j) by lia.
      * destruct Hload as (j & np & Hj & Hbad). exists j, np. split.
        -- rewrite lookup_app_l; [done|]. by eapply lookup_lt_Some.
        -- by rewrite <- (Hsd j np Hj).
    + destruct layer as [|np0 layer'] eqn:Hlayer.
      * simpl. specialize (IH m (S li) i Hsk Hdrop).
        destruct (insert_layers incoming pop (S li) layers i m) as [m'|e]; done.
      * rewrite <- Hlayer in *.
        rewrite fill_state_dict_short; simpl.
        -- exists (length layer - 1).
           assert (length layer ≠ 0) by (rewrite Hlayer; done).
           destruct (layer !! (length layer - 1)) as [np|] eqn:Hnp.
           2:{ apply lookup_ge_None in Hnp. lia. }
           exists np. split.
           ++ rewrite lookup_app_l by lia. done.
           ++ unfold incoming_shape, incoming_at.
              destruct (incoming !! pop) as [entry|] eqn:Hin; simpl; [|done].
              rewrite (proj2 (lookup_ge_None entry (i + (length layer - 1)))); [done|].
              destruct (decide (i + length layer ≤ length entry)); [|lia].
              destruct Hshort. eauto.
        -- rewrite Hlayer. done.
        -- intros entry Hin. rewrite length_fmap.
           destruct (decide (i + length layer ≤ length entry)); [|lia].
           destruct Hshort. eauto.
Qed.

Lemma insert_individuals_spec m0 incoming individuals :
  wf_model m0 →
  ∀ m pop, skeleton m0 = skeleton m → drop pop (policy_nets m0) = individuals →
  match insert_individuals incoming pop individuals m with
  | Ok m' =>
      skeleton m0 = skeleton m' ∧
      ∀ q ind j np, individuals !! q = Some ind → concat ind !! j = Some np →
        incoming_shape m0 incoming (pop + q) j = Some (t_shape (p_data np.2))
  | Raise _ =>
      ∃ q ind j np, individuals !! q = Some ind ∧ concat ind !! j = Some np ∧
        incoming_shape m0 incoming (pop + q) j ≠ Some (t_shape (p_data np.2))
  end.
Proof.
  intros Hwf.
  induction individuals as [|ind individuals IH]; intros m pop Hsk Hdrop; simpl.
  - split; [done|]. intros q ind j np Hq. done.
  - apply lookup_drop_cons in Hdrop as [Hpop Hdrop].
    assert (Forall wf_layer ind) as Hwfi by (eapply Forall_lookup_1; eauto).
    pose proof (insert_layers_spec m0 incoming pop ind ind Hpop Hwfi m 0 0 Hsk eq_refl)
      as Hlayers.
    destruct (insert_layers incoming pop 0 ind 0 m) as [m'|e]; simpl.
    + destruct Hlayers as [Hsk' Hall].
      specialize (IH m' (S pop) Hsk' Hdrop).
      destruct (insert_individuals incoming (S pop) individuals m') as [m''|e].
      * destruct IH as [Hsk'' Hall']. split; [done|].
        intros [|q] ind' j np Hq Hj; simpl in Hq.
        -- simplify_eq. rewrite Nat.add_0_r. by apply (Hall j).
        -- replace (pop + S q) with (S pop + q) by lia. by eapply Hall'.
      * destruct IH as (q & ind' & j & np & Hq & Hj & Hbad).
        exists (S q), ind', j, np. split; [done|]. split; [done|].
        by replace (pop + S q) with (S pop + q) by lia.
    + destruct Hlayers as (j & np & Hj & Hbad).
      exists 0, ind, j, np. split; [done|]. split; [done|]. by rewrite Nat.add_0_r.
Qed.

(** The positions of the extraction layout are the head parameters in
    flat order, with their shapes. *)
Lemma extract_params_position m pop j r :
  incoming_at (extract_params m) pop j = Some r ↔
  ∃ ind np, policy_nets m !! pop = Some ind ∧ concat ind !! j = Some np ∧
            individual_params pop ind !! j = Some r.
Proof.
  unfold incoming_at, extract_params. rewrite list_lookup_imap.
  destruct (policy_nets m !! pop) as [ind|] eqn:Hpop; simpl.
  - pose proof (read_individual_params m pop ind Hpop) as Hread.
    apply (f_equal (λ l, l !! j)) in Hread. rewrite !list_lookup_fmap in Hread.
    split.
    + intros Hr. rewrite Hr in Hread. simpl in Hread.
      destruct (concat ind !! j) as [np|] eqn:Hnp; [|done]. by exists ind, np.
    + intros (ind' & np & [= <-] & _ & Hr). done.
  - split; [done|]. intros (? & ? & ? & _). done.
Qed.

Lemma extract_params_shape m pop ind j np r :
  policy_nets m !! pop = Some ind → concat ind !! j = Some np →
  individual_params pop ind !! j = Some r →
  ref_shape m r = Some (t_shape (p_data np.2)).
Proof.
  intros Hpop Hnp Hr.
  pose proof (read_individual_params m pop ind Hpop) as Hread.
  apply (f_equal (λ l, l !! j)) in Hread.
  rewrite !list_lookup_fmap, Hnp, Hr in Hread. simpl in Hread.
  unfold ref_shape. injection Hread as ->. done.
Qed.

(** ** Entries that are never read *)

Lemma fill_state_dict_idx incoming pop names i sd sd' i' :
  fill_state_dict incoming pop names i sd = Ok (sd', i') → i' = i + length names.
Proof.
  revert i sd. induction names as [|n names IH]; intros i sd H; simpl in *.
  - injection H as _ <-. lia.
  - destruct (incoming !! pop) as [entry|]; [|done].
    destruct (entry !! i); [|done]. apply IH in H. lia.
Qed.

Lemma fill_state_dict_ext b b' pop names i sd :
  (∀ j, j < length names → incoming_at b pop (i + j) = incoming_at b' pop (i + j)) →
  fill_state_dict b pop names i sd = fill_state_dict b' pop names i sd.
Proof.
  revert i sd. induction names as [|n names IH]; intros i sd Hagree; simpl; [done|].
  pose proof (Hagree 0 ltac:(simpl; lia)) as H0. rewrite Nat.add_0_r in H0.
  unfold incoming_at in H0.
  assert (∀ t, fill_state_dict b pop names (S i) (<[n:=t]> sd) =
               fill_state_dict b' pop names (S i) (<[n:=t]> sd)) as Hrest.
  { intros t. apply IH. intros j Hj. specialize (Hagree (S j) ltac:(simpl; lia)).
    by replace (S i + j) with (i + S j) by lia. }
  destruct (b !! pop) as [e|], (b' !! pop) as [e'|]; simpl in H0.
  - rewrite H0. destruct (e' !! i); [apply Hrest|done].
  - by rewrite H0.
  - by rewrite <- H0.
  - done.
Qed.

Lemma insert_layers_ext b b' pop layers :
  ∀ li i m,
  (∀ j, j < length (concat layers) → incoming_at b pop (i + j) = incoming_at b' pop (i + j)) →
  insert_layers b pop li layers i m = insert_layers b' pop li layers i m.
Proof.
  induction layers as [|layer layers IH]; intros li i m Hagree; simpl; [done|].
  simpl in Hagree. rewrite length_app in Hagree. unfold named_parameters.
  rewrite (fill_state_dict_ext b b' pop (layer.*1) i).
  2:{ intros j Hj. rewrite length_fmap in Hj. apply Hagree. lia. }
  destruct (fill_state_dict b' pop layer.*1 i (state_dict pop li layer))
    as [[sd' i']|e] eqn:Hfill; simpl; [|done].
  apply fill_state_dict_idx in Hfill. rewrite length_fmap in Hfill. subst i'.
  destruct (load_state_dict m pop li 0 layer sd') as [m'|e]; simpl; [|done].
  apply IH. intros j Hj.
  replace (i + length layer + j) with (i + (length layer + j)) by lia.
  apply Hagree. lia.
Qed.

Lemma insert_individuals_ext b b' individuals :
  ∀ pop m,
  (∀ q ind j, individuals !! q = Some ind → j < length (concat ind) →
              incoming_at b (pop + q) j = incoming_at b' (pop + q) j) →
  insert_individuals b pop individuals m = insert_individuals b' pop individuals m.
Proof.
  induction individuals as [|ind individuals IH]; intros pop m Hagree; simpl; [done|].
  rewrite (insert_layers_ext b b' pop ind 0 0 m).
  2:{ intros j Hj. specialize (Hagree 0 ind j eq_refl Hj). by rewrite Nat.add_0_r in Hagree. }
  destruct (insert_layers b' pop 0 ind 0 m) as [m'|e]; simpl; [|done].
  apply IH. intros q ind' j Hq Hj.
  replace (S pop + q) with (pop + S q) by lia. by apply (Hagree (S q) ind').
Qed.

(** C5 as stated fails: a bundle with a surplus entry for the individual
    and a surplus individual does not mirror the extraction layout, yet
    [insert_params] succeeds, installing the leading entries and
    dropping the rest. *)
Lemma insert_params_ignores_surplus :
  ¬ mirrors one_head surplus_bundle ∧
  length surplus_bundle ≠ length (policy_nets one_head) ∧
  insert_params one_head surplus_bundle =
    Ok {| shared_net := [];
          policy_nets := [ [linear (tensor1 [30; 40]%Z) (tensor1 [50]%Z) None None] ];
          value_net := [] |}.
Proof.
  split; [|split].
  - unfold mirrors. vm_compute. discriminate.
  - vm_compute. discriminate.
  - vm_compute. reflexivity.
Qed.

(** C5, amended.  [insert_params] raises exactly when, at some position
    of the layout produced by [extract_params] (an individual of the
    population and an index in the flat list of its head parameters),
    the bundle has no entry or has a tensor whose shape differs from
    that of the live parameter.  Nothing else of the bundle is read:
    two bundles that agree on those positions give the same result, so
    individuals beyond the population and entries beyond the parameter
    count of a head are dropped without an error. *)
Theorem insert_params_failure (m : EvoACModel) (incoming : Bundle) :
  wf_model m →
  (raises (insert_params m incoming) ↔
   ∃ pop j r, incoming_at (extract_params m) pop j = Some r ∧
              incoming_shape m incoming pop j ≠ ref_shape m r) ∧
  (∀ incoming' : Bundle,
     (∀ pop j, is_Some (incoming_at (extract_params m) pop j) →
               incoming_at incoming' pop j = incoming_at incoming pop j) →
     insert_params m incoming' = insert_params m incoming).
Proof.
  intros Hwf. split.
  - pose proof (insert_individuals_spec m incoming (policy_nets m) Hwf m 0 eq_refl eq_refl)
      as Hspec.
    unfold insert_params, raises.
    destruct (insert_individuals incoming 0 (policy_nets m) m) as [m'|e].
    + destruct Hspec as [_ Hall]. split; [intros [e ?]; done|].
      intros (pop & j & r & (ind & np & Hpop & Hnp & Hr)%extract_params_position & Hbad).
      destruct Hbad. rewrite (extract_params_shape m pop ind j np r Hpop Hnp Hr).
      by apply (Hall pop ind j np).
    + destruct Hspec as (pop & ind & j & np & Hpop & Hnp & Hbad). simpl in Hbad.
      split; [intros _|by eauto].
      destruct (individual_params pop ind !! j) as [r|] eqn:Hr.
      * exists pop, j, r. split.
        -- apply extract_params_position. eauto 10.
        -- by rewrite (extract_params_shape m pop ind j np r Hpop Hnp Hr).
      * pose proof (read_individual_params m pop ind Hpop) as Hread.
        apply (f_equal (λ l, l !! j)) in Hread.
        rewrite !list_lookup_fmap, Hnp, Hr in Hread. done.
  - intros incoming' Hagree. unfold insert_params.
    apply insert_individuals_ext. intros q ind j Hq Hj. simpl.
    apply Hagree.
    destruct (individual_params q ind !! j) as [r|] eqn:Hr.
    + exists r. unfold incoming_at, extract_params.
      rewrite list_lookup_imap, Hq. done.
    + apply lookup_ge_None in Hr.
      pose proof (read_individual_params m q ind Hq) as Hread.
      apply (f_equal length) in Hread. rewrite !length_fmap in Hread. lia.
Qed.

(* ================================================================== *)
(** * The runner: what its methods leave untouched *)

Section RunnerFacts.
Context {E Obs S EAst L : Type}.
Context `{!Torch L, !Gym E Obs, !Storage S Obs L, !Evolution EAst}.

#[local] Abbreviation RunState := (@RunState E S EAst).
#[local] Abbreviation M := (@M E S EAst).
#[local] Abbreviation same_setup := (@same_setup E S EAst).
#[local] Abbreviation same_model := (@same_model E S EAst).

#[local] Instance same_setup_preorder : PreOrder same_setup.
Proof.
  split; [by intros s|]. intros s1 s2 s3 [? ?] [? ?]. split; congruence.
Qed.

#[local] Instance same_model_preorder : PreOrder same_model.
Proof.
  split; [by intros s|].
  intros s1 s2 s3 ([? ?] & ? & ? & ? & ? & ?) ([? ?] & ? & ? & ? & ? & ?).
  repeat split; congruence.
Qed.

Lemma preserves_weaken {A} (c : M A) : preserves same_model c → preserves same_setup c.
Proof. intros Hc s. by destruct (Hc s). Qed.

Section Combinators.
Context (R : relation RunState) `{!PreOrder R}.

Lemma preserves_ret {A} (a : A) : preserves R (mret a : M A).
Proof. intros s. simpl. reflexivity. Qed.

Lemma preserves_bind {A B} (c : M A) (f : A → M B) :
  preserves R c → (∀ a, preserves R (f a)) → preserves R (c ≫= f).
Proof.
  intros Hc Hf s. unfold mbind, M_bind. specialize (Hc s).
  destruct (c s) as [[a|e] s1]; simpl in *; [|done].
  etrans; [exact Hc|apply Hf].
Qed.

Lemma preserves_gets {A} (f : RunState → A) : preserves R (gets f).
Proof. intros s. simpl. reflexivity. Qed.

Lemma preserves_lift {A} (r : Result A) : preserves R (lift r).
Proof. intros s. simpl. reflexivity. Qed.

Lemma preserves_modify (f : RunState → RunState) :
  (∀ s, R s (f s)) → preserves R (modify f).
Proof. intros Hf s. apply Hf. Qed.
End Combinators.

Lemma model_get_action_same x pop_idx : preserves same_model (model_get_action x pop_idx).
Proof.
  intros s. unfold model_get_action.
  destruct (get_action _ _ _ _ _) as [r g]. simpl. by repeat split.
Qed.

Lemma test_env_do_reset_same : preserves same_model test_env_do_reset.
Proof. intros s. unfold test_env_do_reset. destruct (env_reset _). by repeat split. Qed.

Lemma test_env_do_step_same a : preserves same_model (test_env_do_step a).
Proof. intros s. unfold test_env_do_step. destruct (env_step _ _). by repeat split. Qed.

Lemma np_random_choice_same n probs : preserves same_model (np_random_choice n probs).
Proof.
  intros s. unfold np_random_choice. case_decide; [|simpl; reflexivity].
  destruct (rng_next _). by repeat split.
Qed.

Lemma query_actions_same x pop_idxs : preserves same_model (query_actions x pop_idxs).
Proof.
  induction pop_idxs as [|i rest IH]; simpl.
  - apply preserves_ret; apply _.
  - apply preserves_bind; [apply _|apply model_get_action_same|intros r].
    apply preserves_bind; [apply _|apply IH|intros a]. apply preserves_ret; apply _.
Qed.

Lemma _get_test_action_same obs : preserves same_model (_get_test_action obs).
Proof.
  unfold _get_test_action.
  apply preserves_bind; [apply _|apply preserves_gets; apply _|intros fitnesses].
  apply preserves_bind; [apply _|apply preserves_gets; apply _|intros strat].
  repeat case_decide.
  - apply preserves_bind; [apply _|apply preserves_lift; apply _|intros ?].
    apply preserves_bind; [apply _|apply model_get_action_same|intros ?].
    apply preserves_ret; apply _.
  - apply preserves_bind; [apply _|apply preserves_gets; apply _|intros ?].
    apply preserves_bind; [apply _|apply np_random_choice_same|intros ?].
    apply preserves_bind; [apply _|apply model_get_action_same|intros ?].
    apply preserves_ret; apply _.
  - apply preserves_bind; [apply _|apply preserves_gets; apply _|intros ?].
    apply preserves_bind; [apply _|apply query_actions_same|intros ?].
    apply preserves_bind; [apply _|apply preserves_gets; apply _|intros ?].
    apply preserves_lift; apply _.
  - apply preserves_lift; apply _.
Qed.

Lemma test_episode_loop_same left obs fitness :
  preserves same_model (test_episode_loop left obs fitness).
Proof.
  revert obs fitness. induction left as [|left IH]; intros obs fitness; simpl.
  - apply preserves_bind; [apply _|apply _get_test_action_same|intros a].
    apply preserves_bind; [apply _|apply test_env_do_step_same|intros [[obs' r] done]].
    destruct done; apply preserves_ret; apply _.
  - apply preserves_bind; [apply _|apply _get_test_action_same|intros a].
    apply preserves_bind; [apply _|apply test_env_do_step_same|intros [[obs' r] done]].
    destruct done; [apply preserves_ret; apply _|apply IH].
Qed.

Lemma test_episode_same : preserves same_model test_episode.
Proof.
  unfold test_episode.
  apply preserves_bind; [apply _|apply test_env_do_reset_same|intros obs].
  apply preserves_bind; [apply _|apply preserves_gets; apply _|intros limit].
  apply test_episode_loop_same.
Qed.

Lemma test_episodes_same n fitnesses : preserves same_model (test_episodes n fitnesses).
Proof.
  revert fitnesses. induction n as [|n IH]; intros fitnesses; simpl.
  - apply preserves_ret; apply _.
  - apply preserves_bind; [apply _|apply test_episode_same|intros f]. apply IH.
Qed.

(** The evaluation writes nothing but the test environment and the
    random sources. *)
Lemma _test_algorithm_same : preserves same_model _test_algorithm.
Proof.
  unfold _test_algorithm.
  apply preserves_bind; [apply _|apply test_episodes_same|intros f].
  apply preserves_ret; apply _.
Qed.

Lemma env_do_reset_setup : preserves same_setup env_do_reset.
Proof. intros s. unfold env_do_reset. destruct (env_reset _). by split. Qed.

Lemma env_do_step_setup a : preserves same_setup (env_do_step a).
Proof. intros s. unfold env_do_step. destruct (env_step _ _). by split. Qed.

Lemma run_episode_loop_setup left pop_idx obs fitness :
  preserves same_setup (run_episode_loop left pop_idx obs fitness).
Proof.
  revert obs fitness. induction left as [|left IH]; intros obs fitness; simpl.
  - apply preserves_bind; [apply _|apply preserves_weaken, model_get_action_same|intros r].
    apply preserves_bind; [apply _|by apply preserves_modify|intros _].
    apply preserves_bind; [apply _|apply env_do_step_setup|intros [[obs' rw] done]].
    apply preserves_bind; [apply _|by apply preserves_modify|intros _].
    destruct done; apply preserves_ret; apply _.
  - apply preserves_bind; [apply _|apply preserves_weaken, model_get_action_same|intros r].
    apply preserves_bind; [apply _|by apply preserves_modify|intros _].
    apply preserves_bind; [apply _|apply env_do_step_setup|intros [[obs' rw] done]].
    apply preserves_bind; [apply _|by apply preserves_modify|intros _].
    destruct done; [apply preserves_ret; apply _|apply IH].
Qed.

Lemma _run_episode_setup pop_idx : preserves same_setup (_run_episode pop_idx).
Proof.
  unfold _run_episode.
  apply preserves_bind; [apply _|apply env_do_reset_setup|intros obs].
  apply preserves_bind; [apply _|apply preserves_gets; apply _|intros limit].
  apply preserves_bind; [apply _|apply run_episode_loop_setup|intros f].
  by apply preserves_modify.
Qed.

Lemma run_episodes_setup pop_idxs : preserves same_setup (run_episodes pop_idxs).
Proof.
  induction pop_idxs as [|i rest IH]; simpl.
  - apply preserves_ret; apply _.
  - apply preserves_bind; [apply _|apply _run_episode_setup|intros _]. apply IH.
Qed.

Lemma _update_evo_ac_setup : preserves same_setup _update_evo_ac.
Proof.
  unfold _update_evo_ac.
  apply preserves_bind; [apply _|apply preserves_gets; apply _|intros [[loss pl] vl]].
  apply preserves_bind; [apply _|by apply preserves_modify|intros _].
  apply preserves_bind; [apply _|by apply preserves_modify|intros _].
  apply preserves_bind; [apply _|intros s; simpl; reflexivity|intros grads].
  apply preserves_bind; [apply _|by apply preserves_modify|intros _].
  apply preserves_bind; [apply _|by apply preserves_modify|intros _].
  apply preserves_bind; [apply _|by apply preserves_modify|intros _].
  apply preserves_modify. intros s. by destruct (create_new_pop _ _ _) as [[b ea] g].
Qed.

Lemma collect_and_update_setup : preserves same_setup collect_and_update.
Proof.
  unfold collect_and_update.
  apply preserves_bind; [apply _|by apply preserves_modify|intros _].
  apply preserves_bind; [apply _|apply preserves_gets; apply _|intros n].
  apply preserves_bind; [apply _|apply run_episodes_setup|intros _].
  apply _update_evo_ac_setup.
Qed.

(** ** One pass through the loop body *)

Lemma install_block g s tr :
  ∃ flow s' blk, install g s tr = (flow, s', tr ++ blk) ∧ same_setup s s' ∧
    ((∃ e, flow = Raised e ∧ blk = []) ∨
     (∃ post, blk = [EvInsertParams g (head_data (model s)) post] ∧
        ((flow = Next ∧ ¬ (exp_timesteps (config s) < timesteps s)%Z) ∨
         (flow = Break ByBudget ∧ (exp_timesteps (config s) < timesteps s)%Z)))).
Proof.
  unfold install. destruct (new_pop s) as [b|].
  2:{ exists (Raised AttributeError), s, []. rewrite app_nil_r. split; [done|].
      split; [reflexivity|]. left. eauto. }
  destruct (insert_params (model s) b) as [m'|e].
  2:{ exists (Raised e), s, []. rewrite app_nil_r. split; [done|].
      split; [reflexivity|]. left. eauto. }
  simpl. destruct (Z.ltb_spec (exp_timesteps (config s)) (timesteps s)).
  - eexists _, _, _. split; [reflexivity|]. split; [done|]. right. eexists. split; [done|].
    right. done.
  - eexists _, _, _. split; [reflexivity|]. split; [done|]. right. eexists. split; [done|].
    left. split; [done|lia].
Qed.

Lemma generation_block g s tr :
  ∃ flow s' blk, generation g s tr = (flow, s', tr ++ blk) ∧ same_setup s s' ∧
    gen_block (stop_fit s) (exp_print_interval (config s)) g flow blk.
Proof.
  unfold generation.
  pose proof (collect_and_update_setup s) as Hcu.
  destruct (collect_and_update s) as [[[]|e] s1]; simpl in Hcu.
  2:{ exists (Raised e), s1, []. rewrite app_nil_r. split; [done|]. split; [done|]. constructor. }
  destruct Hcu as [Hcfg1 Hstop1].
  destruct (evaluation_due s1) eqn:Hdue.
  - pose proof (_test_algorithm_same s1) as Hta.
    destruct (_test_algorithm s1) as [[f|e] s2]; simpl in Hta.
    2:{ exists (Raised e), s2, []. rewrite app_nil_r. split; [done|].
        split; [destruct Hta as [[? ?] _]; split; congruence|]. constructor. }
    destruct Hta as ([Hcfg2 Hstop2] & Hmodel2 & Hts2 & _).
    rewrite Hcfg2, Hcfg1.
    destruct (Z.eqb_spec (exp_print_interval (config s)) 0) as [Hpi|Hpi].
    { eexists _, _, _. split; [reflexivity|]. split; [split; congruence|].
      by apply block_zero_division. }
    set (printed := (Z.of_nat g mod exp_print_interval (config s) =? 0)%Z).
    set (s3 := set_last_log (timesteps s2) s2).
    assert (stop_fit s3 = stop_fit s) as Hstop3 by (simpl; congruence).
    assert (∀ tr1 : list Event,
              (if printed then tr1 ++ [EvPrintData g] else tr1) =
              tr1 ++ (if printed then [EvPrintData g] else [])) as Hpr.
    { intros tr1. destruct printed; [done|by rewrite app_nil_r]. }
    rewrite Hpr, <- app_assoc.
    change ([EvEvaluate g (head_data (model s1)) f; EvSaveFitnesses g (timesteps s2) f] ++
            (if printed then [EvPrintData g] else []))
      with (eval_and_log g (head_data (model s1)) (timesteps s2) f printed).
    rewrite Hstop3. destruct (stop_fit s) as [T|] eqn:HT.
    2:{ eexists _, _, _. split; [reflexivity|]. split; [split; simpl; congruence|].
        by apply block_no_threshold. }
    destruct (Qle_bool T f) eqn:Hle.
    { eexists _, _, _. split; [reflexivity|]. split; [split; simpl; congruence|].
      by eapply block_converged. }
    destruct (install_block g s3 (tr ++ eval_and_log g (head_data (model s1)) (timesteps s2) f printed))
      as (flow & s4 & blk & Hinst & [Hcfg4 Hstop4] & Hcases).
    rewrite Hinst, <- app_assoc.
    eexists _, _, _. split; [reflexivity|]. split; [split; simpl in *; congruence|].
    destruct Hcases as [(e & -> & ->)|(post & -> & Hflow)].
    + rewrite app_nil_r. by eapply block_install_raised.
    + replace (model s3) with (model s1) by (simpl; congruence).
      eapply block_evaluated_installed; eauto. destruct Hflow as [[-> _]|[-> _]]; eauto.
  - destruct (install_block g s1 tr) as (flow & s4 & blk & Hinst & [Hcfg4 Hstop4] & Hcases).
    rewrite Hinst. eexists _, _, _. split; [reflexivity|]. split; [split; congruence|].
    destruct Hcases as [(e & -> & ->)|(post & -> & Hflow)]; [constructor|].
    destruct Hflow as [[-> _]|[_ Hlt]]; [constructor|].
    unfold evaluation_due in Hdue. apply orb_false_iff in Hdue as [_ Hdue].
    apply Z.ltb_ge in Hdue. lia.
Qed.

(** ** The generation loop *)

Lemma generations_blocks n g s tr :
  ∃ o s' new, generations n g s tr = (o, s', tr ++ new) ∧ same_setup s s' ∧
    run_blocks (stop_fit s) (exp_print_interval (config s)) g o new.
Proof.
  revert g s tr. induction n as [|n IH]; intros g s tr; simpl.
  - exists Exhausted, s, []. rewrite app_nil_r. split; [done|]. split; [reflexivity|].
    constructor.
  - destruct (generation_block g s tr) as (flow & s1 & blk & -> & [Hcfg Hstop] & Hblk).
    destruct flow as [|why|e].
    + destruct (IH (Datatypes.S g) s1 (tr ++ blk)) as (o & s2 & rest & -> & [Hcfg' Hstop'] & Hrest).
      exists o, s2, (blk ++ rest). rewrite app_assoc. split; [done|].
      split; [split; congruence|]. rewrite Hcfg, Hstop in Hrest. by constructor.
    + exists (Stopped why), s1, blk. split; [done|]. split; [done|]. by constructor.
    + exists (Aborted e), s1, blk. split; [done|]. split; [done|]. by constructor.
Qed.

Lemma eval_and_log_lookup g hd ts f printed i ev :
  eval_and_log g hd ts f printed !! i = Some ev →
  (i = 0 ∧ ev = EvEvaluate g hd f) ∨ (0 < i ∧ is_log_of g ev).
Proof.
  unfold eval_and_log, is_log_of.
  destruct printed, i as [|[|[|i]]]; simpl; intros ?; simplify_eq;
    first [left; done | right; split; [lia|]; eauto].
Qed.

Lemma gen_block_tag T pi g flow blk i ev :
  gen_block T pi g flow blk → blk !! i = Some ev → event_gen ev = Some g.
Proof.
  assert (∀ hd ts f printed i, eval_and_log g hd ts f printed !! i = Some ev →
            event_gen ev = Some g) as Hlog.
  { intros hd ts f printed k [[_ ->]|[_ [(? & ? & ->)| ->]]]%eval_and_log_lookup; done. }
  intros Hblk Hi.
  destruct Hblk as [e|pre post|hd ts f Hpi|hd ts f printed Hpi HT|hd ts f printed T' Hpi HT Hle
                   |hd ts f printed T' e Hpi HT Hle|hd ts f printed T' post flow Hpi HT Hle Hflow].
  - done.
  - destruct i as [|[|]]; simpl in Hi; by simplify_eq.
  - destruct i as [|[|[|]]]; simpl in Hi; by simplify_eq.
  - by eapply Hlog.
  - by eapply Hlog.
  - by eapply Hlog.
  - apply lookup_app_Some in Hi as [Hi|[_ Hi]]; [by eapply Hlog|].
    destruct (i - _) as [|[|]]; simpl in Hi; by simplify_eq.
Qed.

Lemma run_blocks_tag T pi g o new i ev :
  run_blocks T pi g o new → new !! i = Some ev →
  ∃ g', event_gen ev = Some g' ∧ g ≤ g'.
Proof.
  intros Hrun. revert i. induction Hrun as [g|g blk o rest Hblk Hrest IH|g why blk Hblk|g e blk Hblk];
    intros i Hi.
  - done.
  - apply lookup_app_Some in Hi as [Hi|[_ Hi]].
    + exists g. split; [by eapply gen_block_tag|lia].
    + destruct (IH _ Hi) as (g' & ? & ?). exists g'. split; [done|lia].
  - exists g. split; [by eapply gen_block_tag|lia].
  - exists g. split; [by eapply gen_block_tag|lia].
Qed.

(** Inside one pass: the evaluation and its logging come before the
    install, which starts from the heads the evaluation ran on. *)
Lemma gen_block_order T pi g flow blk i j hd f pre post :
  gen_block T pi g flow blk →
  blk !! i = Some (EvEvaluate g hd f) →
  blk !! j = Some (EvInsertParams g pre post) →
  i < j ∧ hd = pre ∧ ∀ k ev, blk !! k = Some ev → is_log_of g ev → k < j.
Proof.
  assert (∀ hd ts f printed j, eval_and_log g hd ts f printed !! j
            ≠ Some (EvInsertParams g pre post)) as Hnoinst.
  { intros hd' ts f' printed k [[_ ?]|[_ [(? & ? & ?)| ?]]]%eval_and_log_lookup; done. }
  intros Hblk Hi Hj.
  destruct Hblk as [e|pre' post'|hd' ts f' Hpi|hd' ts f' printed Hpi HT|hd' ts f' printed T' Hpi HT Hle
                   |hd' ts f' printed T' e Hpi HT Hle|hd' ts f' printed T' post' flow Hpi HT Hle Hflow].
  - done.
  - destruct i as [|[|]]; simpl in Hi; by simplify_eq.
  - destruct j as [|[|[|]]]; simpl in Hj; by simplify_eq.
  - by destruct (Hnoinst _ _ _ _ _ Hj).
  - by destruct (Hnoinst _ _ _ _ _ Hj).
  - by destruct (Hnoinst _ _ _ _ _ Hj).
  - apply lookup_app_Some in Hj as [Hj|[Hlen Hj]]; [by destruct (Hnoinst _ _ _ _ _ Hj)|].
    destruct (j - _) as [|[|]] eqn:Hjj; simpl in Hj; simplify_eq.
    assert (∀ k ev, (eval_and_log g pre ts f' printed ++ [EvInsertParams g pre post]) !! k = Some ev →
              ev ≠ EvInsertParams g pre post → k < j) as Hbefore.
    { intros k ev Hk Hev. apply lookup_app_Some in Hk as [Hk|[_ Hk]].
      - apply lookup_lt_Some in Hk. lia.
      - destruct (k - _) as [|[|]]; simpl in Hk; by simplify_eq. }
    split; [by eapply Hbefore|]. split.
    + apply lookup_app_Some in Hi as [Hi|[_ Hi]].
      * apply eval_and_log_lookup in Hi as [[_ ?]|[_ [(? & ? & ?)| ?]]]; by simplify_eq.
      * destruct (i - _) as [|[|]]; simpl in Hi; by simplify_eq.
    + intros k ev Hk Hlog. eapply Hbefore; [done|].
      intros ->. by destruct Hlog as [(? & ? & ?)|?].
Qed.

Lemma run_blocks_order T pi g o new :
  run_blocks T pi g o new →
  ∀ i j gen hd f pre post,
    new !! i = Some (EvEvaluate gen hd f) →
    new !! j = Some (EvInsertParams gen pre post) →
    i < j ∧ hd = pre ∧ ∀ k ev, new !! k = Some ev → is_log_of gen ev → k < j.
Proof.
  assert (∀ gen ev, is_log_of gen ev → event_gen ev = Some gen) as Hlogtag.
  { intros gen ev [(? & ? & ->)| ->]; done. }
  induction 1 as [g|g blk o rest Hblk Hrest IH|g why blk Hblk|g e blk Hblk];
    intros i j gen hd f pre post Hi Hj.
  - done.
  - apply lookup_app_Some in Hi as [Hi|[Hleni Hi]];
      apply lookup_app_Some in Hj as [Hj|[Hlenj Hj]].
    + pose proof (gen_block_tag _ _ _ _ _ _ _ Hblk Hi) as Hg. simpl in Hg. simplify_eq.
      destruct (gen_block_order _ _ _ _ _ _ _ _ _ _ _ Hblk Hi Hj) as (? & ? & Hlogs).
      split; [done|]. split; [done|]. intros k ev Hk Hlog.
      apply lookup_app_Some in Hk as [Hk|[_ Hk]]; [by eapply Hlogs|].
      destruct (run_blocks_tag _ _ _ _ _ _ _ Hrest Hk) as (g' & Hg' & ?).
      rewrite (Hlogtag _ _ Hlog) in Hg'. simplify_eq. lia.
    + pose proof (gen_block_tag _ _ _ _ _ _ _ Hblk Hi) as Hg. simpl in Hg. simplify_eq.
      destruct (run_blocks_tag _ _ _ _ _ _ _ Hrest Hj) as (g' & Hg' & ?).
      simpl in Hg'. simplify_eq. lia.
    + pose proof (gen_block_tag _ _ _ _ _ _ _ Hblk Hj) as Hg. simpl in Hg. simplify_eq.
      destruct (run_blocks_tag _ _ _ _ _ _ _ Hrest Hi) as (g' & Hg' & ?).
      simpl in Hg'. simplify_eq. lia.
    + destruct (IH _ _ _ _ _ _ _ Hi Hj) as (? & ? & Hlogs).
      split; [lia|]. split; [done|]. intros k ev Hk Hlog.
      apply lookup_app_Some in Hk as [Hk|[? Hk]].
      * apply lookup_lt_Some in Hk. lia.
      * specialize (Hlogs _ _ Hk Hlog). lia.
  - pose proof (gen_block_tag _ _ _ _ _ _ _ Hblk Hi) as Hg. simpl in Hg. simplify_eq.
    by eapply gen_block_order.
  - pose proof (gen_block_tag _ _ _ _ _ _ _ Hblk Hi) as Hg. simpl in Hg. simplify_eq.
    by eapply gen_block_order.
Qed.

(** C3. In the trace of the generation loop, the evaluation of a
    generation and the logger calls that follow it come before that
    generation's [insert_params], and the head parameters the
    evaluation ran on are those the network held just before that
    [insert_params]: the evaluation reads the heads that are about to
    be replaced, never the new ones. *)
Theorem evaluation_before_install (n g : nat) (s : RunState)
    (i j gen : nat) (hd pre post : list (list (list Tensor))) (f : Q) :
  let tr := (generations n g s []).2 in
  tr !! i = Some (EvEvaluate gen hd f) →
  tr !! j = Some (EvInsertParams gen pre post) →
  i < j ∧ hd = pre ∧ ∀ k ev, tr !! k = Some ev → is_log_of gen ev → k < j.
Proof.
  destruct (generations_blocks n g s []) as (o & s' & new & -> & _ & Hrun).
  simpl. by eapply run_blocks_order.
Qed.

(** ** Stopping *)

Lemma gen_block_threshold_met T pi g flow blk i gen hd f :
  gen_block (Some T) pi g flow blk →
  blk !! i = Some (EvEvaluate gen hd f) → Qle_bool T f = true →
  (pi ≠ 0%Z → flow = Break ByFitness) ∧ flow ≠ Next ∧
  ∀ j ev, i < j → blk !! j = Some ev → is_log_of gen ev.
Proof.
  assert (∀ hd' ts f' printed, eval_and_log g hd' ts f' printed !! i = Some (EvEvaluate gen hd f) →
            i = 0 ∧ gen = g ∧ f' = f) as Hev.
  { intros hd' ts f' printed [[-> ?]|[_ [(? & ? & ?)| ?]]]%eval_and_log_lookup; by simplify_eq. }
  assert (∀ hd' ts f' printed j ev, 0 < j → eval_and_log g hd' ts f' printed !! j = Some ev →
            is_log_of g ev) as Hlater.
  { intros hd' ts f' printed j ev Hj [[-> ?]|[_ ?]]%eval_and_log_lookup; [lia|done]. }
  intros Hblk Hi Hle.
  destruct Hblk as [e|pre post|hd' ts f' Hpi|hd' ts f' printed Hpi HT|hd' ts f' printed T' Hpi HT Hle'
                   |hd' ts f' printed T' e Hpi HT Hle'|hd' ts f' printed T' post flow Hpi HT Hle' Hflow].
  - done.
  - destruct i as [|[|]]; simpl in Hi; by simplify_eq.
  - destruct i as [|[|[|]]]; simpl in Hi; simplify_eq.
    split; [done|]. split; [done|]. intros j ev Hj Hjj.
    destruct j as [|[|[|]]]; simpl in Hjj; simplify_eq; [lia|]. left. eauto.
  - done.
  - destruct (Hev _ _ _ _ Hi) as (-> & -> & ->).
    split; [done|]. split; [done|]. intros j ev Hj Hjj. by eapply Hlater.
  - destruct (Hev _ _ _ _ Hi) as (-> & -> & ->). simplify_eq. congruence.
  - apply lookup_app_Some in Hi as [Hi|[_ Hi]].
    + destruct (Hev _ _ _ _ Hi) as (-> & -> & ->). simplify_eq. congruence.
    + destruct (i - _) as [|[|]]; simpl in Hi; by simplify_eq.
Qed.

Lemma run_blocks_threshold_met T pi g o new :
  run_blocks (Some T) pi g o new →
  ∀ i gen hd f, new !! i = Some (EvEvaluate gen hd f) → Qle_bool T f = true →
    (pi ≠ 0%Z → o = Stopped ByFitness) ∧
    ∀ j ev, i < j → new !! j = Some ev → is_log_of gen ev.
Proof.
  intros Hrun. remember (Some T) as thr eqn:Hthr.
  induction Hrun as [g|g blk o rest Hblk Hrest IH|g why blk Hblk|g e blk Hblk];
    intros i gen hd f Hi Hle; subst thr.
  - done.
  - apply lookup_app_Some in Hi as [Hi|[Hlen Hi]].
    + by destruct (gen_block_threshold_met _ _ _ _ _ _ _ _ _ Hblk Hi Hle) as (_ & ? & _).
    + destruct (IH _ _ _ _ Hi Hle) as [Ho Hlater]. split; [done|].
      intros j ev Hj Hjj. apply lookup_app_Some in Hjj as [Hjj|[_ Hjj]].
      * apply lookup_lt_Some in Hjj. lia.
      * eapply (Hlater (j - length blk)); [lia|done].
  - destruct (gen_block_threshold_met _ _ _ _ _ _ _ _ _ Hblk Hi Hle) as (Hflow & _ & Hlater).
    split; [|done]. intros Hpi. specialize (Hflow Hpi). by simplify_eq.
  - destruct (gen_block_threshold_met _ _ _ _ _ _ _ _ _ Hblk Hi Hle) as (Hflow & _ & Hlater).
    split; [|done]. intros Hpi. specialize (Hflow Hpi). by simplify_eq.
Qed.

Lemma gen_block_by_fitness T pi g blk :
  gen_block (Some T) pi g (Break ByFitness) blk →
  ∃ hd f, blk !! 0 = Some (EvEvaluate g hd f) ∧ Qle_bool T f = true.
Proof.
  inversion 1 as [| | | |hd ts f printed T' Hpi HT Hle| |hd ts f printed T' post flow Hpi HT Hle Hflow];
    simplify_eq.
  - exists hd, f. done.
  - by destruct Hflow.
Qed.

Lemma run_blocks_by_fitness T pi g new :
  run_blocks (Some T) pi g (Stopped ByFitness) new →
  ∃ i gen hd f, new !! i = Some (EvEvaluate gen hd f) ∧ Qle_bool T f = true.
Proof.
  intros Hrun. remember (Some T) as thr eqn:Hthr. remember (Stopped ByFitness) as o eqn:Ho.
  induction Hrun as [g|g blk o rest Hblk Hrest IH|g why blk Hblk|g e blk Hblk]; subst thr.
  - done.
  - destruct (IH Ho) as (i & gen & hd & f & Hi & Hle).
    exists (length blk + i), gen, hd, f. split; [|done].
    rewrite lookup_app_r by lia. by replace (length blk + i - length blk) with i by lia.
  - simplify_eq. destruct (gen_block_by_fitness _ _ _ _ Hblk) as (hd & f & ? & ?).
    by exists 0, g, hd, f.
  - done.
Qed.

(** C4. With a threshold [T] (and a print interval other than zero,
    so that the logging itself does not raise), the generation loop
    stops by fitness exactly at an evaluation whose mean is at least
    [T], and at the first such one.  An evaluation whose mean reaches
    [T] is followed by nothing but its own logger calls (no
    [insert_params], no further generation) and the loop ends there
    by the fitness break.  If the
    loop ended by the fitness break, the trace holds an evaluation
    whose mean reaches [T], every earlier evaluation was below [T],
    and only that evaluation's logger calls follow it. *)
Theorem stop_at_first_threshold_evaluation (n g : nat) (s : RunState) (T : Q) :
  stop_fit s = Some T →
  exp_print_interval (config s) ≠ 0%Z →
  let o := (generations n g s []).1.1 in
  let tr := (generations n g s []).2 in
  (∀ i gen hd f, tr !! i = Some (EvEvaluate gen hd f) → Qle_bool T f = true →
     o = Stopped ByFitness ∧ ∀ j ev, i < j → tr !! j = Some ev → is_log_of gen ev) ∧
  (o = Stopped ByFitness →
     ∃ i gen hd f, tr !! i = Some (EvEvaluate gen hd f) ∧ Qle_bool T f = true ∧
       (∀ j ev, i < j → tr !! j = Some ev → is_log_of gen ev) ∧
       (∀ i' gen' hd' f', i' < i → tr !! i' = Some (EvEvaluate gen' hd' f') →
          Qle_bool T f' = false)).
Proof.
  intros HT Hpi.
  destruct (generations_blocks n g s []) as (o & s' & new & -> & _ & Hrun).
  simpl. rewrite HT in Hrun.
  pose proof (run_blocks_threshold_met _ _ _ _ _ Hrun) as Hmet.
  split.
  - intros i gen hd f Hi Hle. destruct (Hmet _ _ _ _ Hi Hle) as [Ho Hlater]. eauto.
  - intros ->. destruct (run_blocks_by_fitness _ _ _ _ Hrun) as (i & gen & hd & f & Hi & Hle).
    exists i, gen, hd, f. split; [done|]. split; [done|].
    destruct (Hmet _ _ _ _ Hi Hle) as [_ Hlater]. split; [done|].
    intros i' gen' hd' f' Hlt Hi'.
    destruct (Qle_bool T f') eqn:Hle'; [|done].
    destruct (Hmet _ _ _ _ Hi' Hle') as [_ Hlater'].
    destruct (Hlater' i _ Hlt Hi) as [(? & ? & ?)|?]; done.
Qed.

(** ** No threshold *)

Lemma gen_block_no_threshold pi g flow blk :
  gen_block None pi g flow blk →
  (∀ why, flow ≠ Break why) ∧
  (flow = Next → ∀ i ev, blk !! i = Some ev → is_install ev = true) ∧
  ∀ i gen hd f, blk !! i = Some (EvEvaluate gen hd f) →
    i = 0 ∧ (pi ≠ 0%Z → flow = Raised AttributeError) ∧ flow ≠ Next ∧
    ∀ j ev, i < j → blk !! j = Some ev → is_log_of gen ev.
Proof.
  intros Hblk.
  destruct Hblk as [e|pre post|hd' ts f' Hpi|hd' ts f' printed Hpi HT|hd' ts f' printed T' Hpi HT Hle'
                   |hd' ts f' printed T' e Hpi HT Hle'|hd' ts f' printed T' post flow Hpi HT Hle' Hflow].
  - split; [done|]. split; [done|]. intros i gen hd f Hi. done.
  - split; [done|]. split.
    + intros _ i ev Hi. destruct i as [|[|]]; simpl in Hi; by simplify_eq.
    + intros i gen hd f Hi. destruct i as [|[|]]; simpl in Hi; by simplify_eq.
  - split; [done|]. split; [done|]. intros i gen hd f Hi.
    destruct i as [|[|[|]]]; simpl in Hi; simplify_eq.
    split; [done|]. split; [done|]. split; [done|]. intros j ev Hj Hjj.
    destruct j as [|[|[|]]]; simpl in Hjj; simplify_eq; [lia|]. left. eauto.
  - split; [done|]. split; [done|]. intros i gen hd f Hi.
    apply eval_and_log_lookup in Hi as Hi'. destruct Hi' as [[-> ?]|[_ [(? & ? & ?)| ?]]]; simplify_eq.
    split; [done|]. split; [done|]. split; [done|]. intros j ev Hj Hjj.
    apply eval_and_log_lookup in Hjj as [[-> ?]|[_ ?]]; [lia|done].
  - done.
  - done.
  - done.
Qed.

Lemma run_blocks_no_threshold pi g o new :
  run_blocks None pi g o new →
  (∀ why, o ≠ Stopped why) ∧
  ∀ i gen hd f, new !! i = Some (EvEvaluate gen hd f) →
    (pi ≠ 0%Z → o = Aborted AttributeError) ∧
    (∀ j ev, i < j → new !! j = Some ev → is_log_of gen ev) ∧
    (∀ j ev, j < i → new !! j = Some ev → is_install ev = true).
Proof.
  intros Hrun. remember None as thr eqn:Hthr.
  induction Hrun as [g|g blk o rest Hblk Hrest IH|g why blk Hblk|g e blk Hblk]; subst thr.
  - done.
  - destruct IH as [Hnostop Hev].
    destruct (gen_block_no_threshold _ _ _ _ Hblk) as (_ & Hinst & Hblkev).
    split; [done|]. intros i gen hd f Hi.
    apply lookup_app_Some in Hi as [Hi|[Hlen Hi]].
    + by destruct (Hblkev _ _ _ _ Hi) as (_ & _ & ? & _).
    + destruct (Hev _ _ _ _ Hi) as (Ho & Hlater & Hearlier). split; [done|]. split.
      * intros j ev Hj Hjj. apply lookup_app_Some in Hjj as [Hjj|[_ Hjj]].
        -- apply lookup_lt_Some in Hjj. lia.
        -- eapply (Hlater (j - length blk)); [lia|done].
      * intros j ev Hj Hjj. apply lookup_app_Some in Hjj as [Hjj|[? Hjj]].
        -- by eapply Hinst.
        -- eapply (Hearlier (j - length blk)); [lia|done].
  - destruct (gen_block_no_threshold _ _ _ _ Hblk) as (Hnobreak & _).
    by destruct (Hnobreak why).
  - split; [done|]. intros i gen hd f Hi.
    destruct (gen_block_no_threshold _ _ _ _ Hblk) as (_ & _ & Hblkev).
    destruct (Hblkev _ _ _ _ Hi) as (-> & Hflow & _ & Hlater).
    split; [|split; [done|]].
    + intros Hpi. specialize (Hflow Hpi). by simplify_eq.
    + intros j ev Hj. lia.
Qed.

(** C10, amended.  For an environment name other than "CartPole-v1"
    and "LunarLander-v2", [__init__] sets no threshold and checks
    nothing itself: a name that gym does not know makes [gym.make]
    raise in the constructor, and whenever gym knows the name, the
    runner is built, with [stop_fit] unset.  In a run of that runner
    the loop never stops by a break; the first evaluation that
    completes is the only one: once its results are logged (the print
    interval not being zero), the threshold comparison raises
    [AttributeError], which ends the run. *)
Theorem no_threshold_for_other_environments (cfg : Config) (g1 g2 : Rng) :
  exp_env cfg ≠ "CartPole-v1"%string →
  exp_env cfg ≠ "LunarLander-v2"%string →
  ((gym_make (exp_env cfg) : option E) = None →
     (__init__ cfg g1 g2 : Result EvoACRunner) = Raise GymError) ∧
  (is_Some (gym_make (exp_env cfg) : option E) →
     ∃ r, __init__ cfg g1 g2 = Ok r ∧ r_stop_fit r = None) ∧
  (∀ r, __init__ cfg g1 g2 = Ok r → r_stop_fit r = None ∧ r_config r = cfg) ∧
  (∀ r (s : RunState) n, __init__ cfg g1 g2 = Ok r → _reset_experiment r = Ok s →
     exp_print_interval cfg ≠ 0%Z →
     let o := (generations n 0 s []).1.1 in
     let tr := (generations n 0 s []).2 in
     (∀ why, o ≠ Stopped why) ∧
     ∀ i gen hd f, tr !! i = Some (EvEvaluate gen hd f) →
       o = Aborted AttributeError ∧
       (∀ j ev, i < j → tr !! j = Some ev → is_log_of gen ev) ∧
       (∀ j ev, j < i → tr !! j = Some ev → is_install ev = true)).
Proof.
  intros Hcp Hll.
  assert (stop_fit_of (exp_env cfg) = None) as Hnone.
  { unfold stop_fit_of. by rewrite !decide_False. }
  assert (∀ r, __init__ cfg g1 g2 = Ok r → r_stop_fit r = None ∧ r_config r = cfg) as Hinit.
  { intros r. unfold __init__. destruct (gym_make (exp_env cfg)); [|done].
    intros [= <-]. simpl. done. }
  split; [|split; [|split; [done|]]].
  - intros Hmake. unfold __init__. by rewrite Hmake.
  - intros [e He]. unfold __init__. simpl in He. rewrite He. eexists. split; [done|]. done.
  - intros r s n Hr Hs Hpi. destruct (Hinit r Hr) as [Hstop Hcfg].
    assert (stop_fit s = None ∧ config s = cfg) as [Hstop' Hcfg'].
    { unfold _reset_experiment in Hs. destruct (max_episode_steps (r_env r)); [|done].
      destruct (EvoACModel__init__ _ _) as [[m|e] g]; [|done].
      injection Hs as <-. simpl. done. }
    destruct (generations_blocks n 0 s []) as (o & s' & new & -> & _ & Hrun).
    simpl. rewrite Hstop', Hcfg' in Hrun.
    destruct (run_blocks_no_threshold _ _ _ _ Hrun) as [Hnostop Hev].
    split; [done|]. intros i gen hd f Hi.
    destruct (Hev _ _ _ _ Hi) as (Ho & ? & ?). split; [by apply Ho|]. done.
Qed.

(** ** An unsupported test strategy *)

Lemma _get_test_action_unsupported obs (s : RunState) :
  exp_test_strat (config s) ≠ "best"%string →
  exp_test_strat (config s) ≠ "softmax"%string →
  exp_test_strat (config s) ≠ "weightedvote"%string →
  _get_test_action obs s = (Raise UnboundLocalError, s).
Proof.
  intros H1 H2 H3. unfold _get_test_action, mbind, M_bind, gets. simpl.
  by rewrite !decide_False.
Qed.

Lemma test_episode_unsupported (s : RunState) :
  exp_test_strat (config s) ≠ "best"%string →
  exp_test_strat (config s) ≠ "softmax"%string →
  exp_test_strat (config s) ≠ "weightedvote"%string →
  (test_episode s).1 = Raise UnboundLocalError.
Proof.
  intros H1 H2 H3. unfold test_episode, mbind, M_bind, test_env_do_reset, gets.
  destruct (env_reset (test_env s)) as [obs e].
  set (s1 := set_test_env e s).
  assert (∀ left fitness, (test_episode_loop left obs fitness s1).1 = Raise UnboundLocalError)
    as Hloop.
  { intros left fitness. destruct left; simpl; unfold mbind, M_bind;
      by rewrite _get_test_action_unsupported. }
  apply Hloop.
Qed.

Lemma _test_algorithm_unsupported (s : RunState) :
  exp_test_strat (config s) ≠ "best"%string →
  exp_test_strat (config s) ≠ "softmax"%string →
  exp_test_strat (config s) ≠ "weightedvote"%string →
  (_test_algorithm s).1 = Raise UnboundLocalError.
Proof.
  intros H1 H2 H3. unfold _test_algorithm, mbind, M_bind.
  change 100 with (Datatypes.S 99). simpl. unfold mbind, M_bind.
  pose proof (test_episode_unsupported s H1 H2 H3) as He.
  destruct (test_episode s) as [[f|e] s1]; simpl in He; [done|]. by simplify_eq.
Qed.

(** C8, amended.  With a test strategy other than "best", "softmax" and
    "weightedvote", nothing fails at startup: [__init__] does not look
    at the strategy and builds the runner whenever gym knows the
    environment.  The failure comes later, inside the evaluation: every
    [_get_test_action] raises [UnboundLocalError], so [_test_algorithm]
    raises it, and a generation whose evaluation is due ends the run
    with that error, after the rollouts and the update of that
    generation have been done and before anything is logged. *)
Theorem unsupported_test_strat_fails_late (cfg : Config) (g1 g2 : Rng) :
  exp_test_strat cfg ≠ "best"%string →
  exp_test_strat cfg ≠ "softmax"%string →
  exp_test_strat cfg ≠ "weightedvote"%string →
  (is_Some (gym_make (exp_env cfg) : option E) → is_Ok (__init__ cfg g1 g2)) ∧
  (∀ (s : RunState) obs, config s = cfg →
     _get_test_action obs s = (Raise UnboundLocalError, s)) ∧
  (∀ s : RunState, config s = cfg → (_test_algorithm s).1 = Raise UnboundLocalError) ∧
  (∀ gen (s : RunState) tr, config s = cfg →
     (collect_and_update s).1 = Ok tt →
     evaluation_due (collect_and_update s).2 = true →
     (generation gen s tr).1.1 = Raised UnboundLocalError ∧
     (generation gen s tr).2 = tr).
Proof.
  intros H1 H2 H3. split; [|split; [|split]].
  - intros [e He]. unfold __init__. simpl in He. rewrite He. by eexists.
  - intros s obs <-. by apply _get_test_action_unsupported.
  - intros s <-. by apply _test_algorithm_unsupported.
  - intros gen s tr <- Hcu Hdue. unfold generation.
    pose proof (collect_and_update_setup s) as [Hcfg _].
    destruct (collect_and_update s) as [[[]|e] s1]; simpl in *; [|done].
    rewrite Hdue.
    pose proof (_test_algorithm_unsupported s1) as Hta. rewrite Hcfg in Hta.
    specialize (Hta H1 H2 H3).
    destruct (_test_algorithm s1) as [[f|e] s2]; simpl in Hta; [done|]. by simplify_eq.
Qed.

(** ** The actions of the weighted vote *)

Lemma model_get_action_sampled x pop_idx (s : RunState) head :
  policy_nets (model s) !! pop_idx = Some head →
  ∃ r, model_get_action x pop_idx s = (Ok r, set_torch_rng (rng_next (torch_rng s)).2 s) ∧
       action r = categorical_sample
                    (policy_probs (neural_net (config s)) (model s) x pop_idx)
                    (rng_draws (torch_rng s) (rng_pos (torch_rng s))).
Proof.
  intros Hhead. unfold model_get_action, get_action, forward, policy_probs.
  rewrite Hhead. simpl. eexists. split; [reflexivity|]. done.
Qed.

Lemma query_actions_sampled x n : ∀ b (s : RunState),
  b + n ≤ length (policy_nets (model s)) →
  query_actions x (seq b n) s =
    (Ok ((λ i, categorical_sample
                 (policy_probs (neural_net (config s)) (model s) x i)
                 (rng_draws (torch_rng s) (rng_pos (torch_rng s) + (i - b))))
         <$> seq b n),
     set_torch_rng (rng_skip n (torch_rng s)) s).
Proof.
  induction n as [|n IH]; intros b s Hlen; simpl.
  - unfold mret, M_ret. f_equal. destruct s as [? ? ? ? []]; reflexivity.
  - unfold mbind, M_bind.
    destruct (lookup_lt_is_Some_2 (policy_nets (model s)) b ltac:(lia)) as [head Hhead].
    destruct (model_get_action_sampled x b s head Hhead) as (r & -> & Hr).
    rewrite IH by (simpl; lia). simpl. unfold mret, M_ret. f_equal.
    + f_equal. f_equal.
      * rewrite Hr. do 2 f_equal. lia.
      * apply list_fmap_ext. intros k i Hi. apply lookup_seq in Hi as [-> ?].
        do 2 f_equal. lia.
    + destruct s as [? ? ? ? [draws pos]]; unfold set_torch_rng, rng_skip; simpl.
      do 2 f_equal. lia.
Qed.

(** C2, amended.  Under "weightedvote" every individual is queried
    through [get_action], which samples: the action obtained from
    individual [i] is the draw from its own policy distribution that
    the next value of torch's random source selects, one value per
    individual in index order.  It is the individual's most likely
    action only when the draw falls there.  The ensemble then takes the
    fitness-weighted vote over these sampled actions. *)
Theorem weightedvote_queries_sampled_actions (s : RunState) (obs : Obs) :
  exp_test_strat (config s) = "weightedvote"%string →
  pop_size (config s) ≤ length (policy_nets (model s)) →
  let sampled :=
    (λ i, categorical_sample
            (policy_probs (neural_net (config s)) (model s) (obs2tensor obs) i)
            (rng_draws (torch_rng s) (rng_pos (torch_rng s) + i)))
    <$> seq 0 (pop_size (config s)) in
  let s' := set_torch_rng (rng_skip (pop_size (config s)) (torch_rng s)) s in
  query_actions (obs2tensor obs) (seq 0 (pop_size (config s))) s = (Ok sampled, s') ∧
  _get_test_action obs s =
    (weighted_vote (action_space_n (test_env s)) sampled (storage_fitnesses (storage s)), s').
Proof.
  intros Hstrat Hlen. simpl.
  pose proof (query_actions_sampled (obs2tensor obs) (pop_size (config s)) 0 s Hlen) as Hq.
  assert ((λ i, categorical_sample
             (policy_probs (neural_net (config s)) (model s) (obs2tensor obs) i)
             (rng_draws (torch_rng s) (rng_pos (torch_rng s) + (i - 0))))
          <$> seq 0 (pop_size (config s)) =
          (λ i, categorical_sample
             (policy_probs (neural_net (config s)) (model s) (obs2tensor obs) i)
             (rng_draws (torch_rng s) (rng_pos (torch_rng s) + i)))
          <$> seq 0 (pop_size (config s))) as Heq.
  { apply list_fmap_ext. intros k i _. do 2 f_equal. lia. }
  rewrite Heq in Hq. split; [done|].
  unfold _get_test_action, mbind, M_bind, gets. simpl. rewrite Hstrat.
  rewrite decide_False by done. rewrite decide_False by done. rewrite decide_True by done.
  rewrite Hq. simpl. done.
Qed.

End RunnerFacts.

(* ================================================================== *)
(** * The weighted vote *)

Lemma Qltb_true a b : Qltb a b = true ↔ (a < b)%Q.
Proof.
  unfold Qltb. rewrite negb_true_iff. split.
  - intros H. apply Qnot_le_lt. intros Hle. apply Qle_bool_iff in Hle. congruence.
  - intros H. destruct (Qle_bool b a) eqn:E; [|done].
    apply Qle_bool_iff in E. apply Qlt_not_le in H. done.
Qed.

Lemma Qltb_false a b : Qltb a b = false ↔ (b <= a)%Q.
Proof.
  unfold Qltb. rewrite negb_false_iff. apply Qle_bool_iff.
Qed.

(** [np.argmax] returns the least index of a greatest element. *)
Lemma argmax_from_spec l : ∀ pre best_i best,
  pre !! best_i = Some best →
  (∀ b x, pre !! b = Some x → (x <= best)%Q) →
  (∀ b x, b < best_i → pre !! b = Some x → (x < best)%Q) →
  ∃ v, (pre ++ l) !! argmax_from best_i best (length pre) l = Some v ∧
       (∀ b x, (pre ++ l) !! b = Some x → (x <= v)%Q) ∧
       (∀ b x, b < argmax_from best_i best (length pre) l →
               (pre ++ l) !! b = Some x → (x < v)%Q).
Proof.
  induction l as [|y l IH]; intros pre best_i best Hbest Hmax Hfirst; simpl.
  - rewrite app_nil_r. exists best. done.
  - replace (pre ++ y :: l) with ((pre ++ [y]) ++ l) by (by rewrite <- app_assoc).
    replace (Datatypes.S (length pre)) with (length (pre ++ [y]))
      by (rewrite length_app; simpl; lia).
    destruct (Qltb best y) eqn:Hlt.
    + apply Qltb_true in Hlt. apply IH.
      * rewrite lookup_app_r by lia. by rewrite Nat.sub_diag.
      * intros b x Hb. apply lookup_app_Some in Hb as [Hb|[_ Hb]].
        -- specialize (Hmax _ _ Hb). lra.
        -- destruct (b - length pre) as [|[|]]; simpl in Hb; simplify_eq. lra.
      * intros b x Hlen Hb. rewrite lookup_app_l in Hb by done.
        specialize (Hmax _ _ Hb). lra.
    + apply Qltb_false in Hlt. apply IH.
      * rewrite lookup_app_l; [done|]. by eapply lookup_lt_Some.
      * intros b x Hb. apply lookup_app_Some in Hb as [Hb|[_ Hb]].
        -- by eapply Hmax.
        -- destruct (b - length pre) as [|[|]]; simpl in Hb; by simplify_eq.
      * intros b x Hlen Hb. apply lookup_app_Some in Hb as [Hb|[Hge Hb]].
        -- by eapply Hfirst.
        -- apply lookup_lt_Some in Hbest. lia.
Qed.

Lemma np_argmax_spec l a :
  np_argmax l = Ok a →
  ∃ v, l !! a = Some v ∧
       (∀ b x, l !! b = Some x → (x <= v)%Q) ∧
       (∀ b x, b < a → l !! b = Some x → (x < v)%Q).
Proof.
  destruct l as [|x l]; simpl; [done|]. intros [= <-].
  apply (argmax_from_spec l [x] 0 x).
  - done.
  - intros [|[|]] y Hb; simpl in Hb; simplify_eq. lra.
  - intros b y Hb. lia.
Qed.


(** ** The order of the floats *)

Lemma float_leb_trans a b c :
  float_leb a b = true → float_leb b c = true → float_leb a c = true.
Proof.
  destruct a as [x| | |], b as [y| | |], c as [z| | |]; simpl; try done.
  rewrite !Qle_bool_iff. apply Qle_trans.
Qed.

Lemma float_leb_refl a : is_nan a = false → float_leb a a = true.
Proof. destruct a as [x| | |]; simpl; try done. intros _. apply Qle_bool_iff, Qle_refl. Qed.

Lemma float_ltb_leb a b : float_ltb a b = true → float_leb a b = true.
Proof.
  destruct a as [x| | |], b as [y| | |]; simpl; try done.
  rewrite negb_true_iff. intros Hlt. apply Qle_bool_iff.
  destruct (Qlt_le_dec y x) as [Hyx|Hxy]; [|done].
  assert (Qle_bool y x = true) by (apply Qle_bool_iff; lra). congruence.
Qed.

Lemma float_not_leb a b :
  is_nan a = false → is_nan b = false → float_leb a b = false → float_ltb b a = true.
Proof. destruct a as [x| | |], b as [y| | |]; simpl; try done. by intros _ _ ->. Qed.


Lemma float_leb_ltb_trans a b c :
  float_leb a b = true → float_ltb b c = true → float_ltb a c = true.
Proof.
  destruct a as [x| | |], b as [y| | |], c as [z| | |]; simpl; try done.
  rewrite !negb_true_iff, Qle_bool_iff. intros Hle Hlt.
  destruct (Qle_bool z x) eqn:Hzx; [|done].
  apply Qle_bool_iff in Hzx.
  assert (Qle_bool z y = true) by (apply Qle_bool_iff; lra). congruence.
Qed.

(** ** [np.argmax] on floats *)

Lemma argmax_float_from_bound l : ∀ best_i best i,
  best_i < i → argmax_float_from best_i best i l < i + length l.
Proof.
  induction l as [|x l IH]; intros best_i best i Hlt; simpl; [lia|].
  destruct (float_leb x best).
  - specialize (IH best_i best (Datatypes.S i)). lia.
  - destruct (is_nan x); [lia|].
    specialize (IH i x (Datatypes.S i)). lia.
Qed.

Lemma np_argmax_float_bound l a : np_argmax_float l = Ok a → a < length l.
Proof.
  destruct l as [|x l]; simpl; [done|].
  destruct (is_nan x); intros [= <-]; [lia|].
  pose proof (argmax_float_from_bound l 0 x 1). lia.
Qed.

(** Without NaN, [np.argmax] returns the least index of a greatest
    element. *)
Lemma argmax_float_from_spec l : ∀ pre best_i best,
  Forall (λ x, is_nan x = false) (pre ++ l) →
  pre !! best_i = Some best →
  (∀ b x, pre !! b = Some x → float_leb x best = true) →
  (∀ b x, b < best_i → pre !! b = Some x → float_ltb x best = true) →
  ∃ v, (pre ++ l) !! argmax_float_from best_i best (length pre) l = Some v ∧
       (∀ b x, (pre ++ l) !! b = Some x → float_leb x v = true) ∧
       (∀ b x, b < argmax_float_from best_i best (length pre) l →
               (pre ++ l) !! b = Some x → float_ltb x v = true).
Proof.
  induction l as [|y l IH]; intros pre best_i best Hnan Hbest Hmax Hfirst; simpl.
  - rewrite app_nil_r. exists best. done.
  - assert (is_nan y = false ∧ is_nan best = false) as [Hy Hb].
    { rewrite Forall_lookup in Hnan. split.
      - apply (Hnan (length pre)). rewrite lookup_app_r by lia. by rewrite Nat.sub_diag.
      - apply (Hnan best_i). rewrite lookup_app_l; [done|]. by eapply lookup_lt_Some. }
    replace (pre ++ y :: l) with ((pre ++ [y]) ++ l) in * by (by rewrite <- app_assoc).
    replace (Datatypes.S (length pre)) with (length (pre ++ [y]))
      by (rewrite length_app; simpl; lia).
    destruct (float_leb y best) eqn:Hle.
    + apply IH; [done| | |].
      * rewrite lookup_app_l; [done|]. by eapply lookup_lt_Some.
      * intros b x Hx. apply lookup_app_Some in Hx as [Hx|[_ Hx]]; [by eapply Hmax|].
        destruct (b - length pre) as [|[|]]; simpl in Hx; by simplify_eq.
      * intros b x Hlt Hx. apply lookup_app_Some in Hx as [Hx|[Hge Hx]]; [by eapply Hfirst|].
        apply lookup_lt_Some in Hbest. lia.
    + rewrite Hy. pose proof (float_not_leb y best Hy Hb Hle) as Hlt.
      apply IH; [done| | |].
      * rewrite lookup_app_r by lia. by rewrite Nat.sub_diag.
      * intros b x Hx. apply lookup_app_Some in Hx as [Hx|[_ Hx]].
        -- eapply float_leb_trans; [by eapply Hmax|]. by apply float_ltb_leb.
        -- destruct (b - length pre) as [|[|]]; simpl in Hx; simplify_eq.
           by apply float_leb_refl.
      * intros b x Hb' Hx. rewrite lookup_app_l in Hx by done.
        eapply float_leb_ltb_trans; [by eapply Hmax|done].
Qed.

Lemma np_argmax_float_spec l a :
  Forall (λ x, is_nan x = false) l →
  np_argmax_float l = Ok a →
  ∃ v, l !! a = Some v ∧
       (∀ b x, l !! b = Some x → float_leb x v = true) ∧
       (∀ b x, b < a → l !! b = Some x → float_ltb x v = true).
Proof.
  destruct l as [|x l]; simpl; [done|]. intros Hnan.
  pose proof (Forall_inv Hnan) as Hx. simpl in Hx. rewrite Hx. intros [= <-].
  apply (argmax_float_from_spec l [x] 0 x).
  - done.
  - done.
  - intros [|[|]] y Hb; simpl in Hb; simplify_eq. by apply float_leb_refl.
  - intros b y Hb. lia.
Qed.

(** ** The tally *)

Lemma tally_spec ballots : ∀ votes votes',
  tally votes ballots = Ok votes' →
  length votes' = length votes ∧
  ∀ a v, votes !! a = Some v →
    votes' !! a =
      Some (foldl (λ v (b : nat * Q), if decide (b.1 = a) then float_add v (Fin b.2) else v)
                  v ballots).
Proof.
  induction ballots as [|[m w] ballots IH]; intros votes votes' Htally; simpl in Htally.
  - injection Htally as <-. split; [done|]. intros a v Ha. done.
  - destruct (votes !! m) as [v0|] eqn:Hm; [|done].
    destruct (IH _ _ Htally) as [Hlen Hall]. rewrite length_insert in Hlen.
    split; [done|]. intros a v Ha. cbn [foldl fst snd].
    destruct (decide (m = a)) as [->|Hne].
    + assert (v0 = v) as -> by congruence.
      apply Hall. apply list_lookup_insert_eq. by eapply lookup_lt_Some.
    + apply Hall. by rewrite list_lookup_insert_ne.
Qed.

Lemma tally_total ballots : ∀ votes,
  Forall (λ b : nat * Q, b.1 < length votes) ballots →
  ∃ votes', tally votes ballots = Ok votes'.
Proof.
  induction ballots as [|[m w] ballots IH]; intros votes Hall; simpl.
  - by eexists.
  - apply Forall_cons in Hall as [Hm Hall]. simpl in Hm.
    destruct (lookup_lt_is_Some_2 votes m Hm) as [v0 ->].
    apply IH. by rewrite length_insert.
Qed.

(** A vote is never NaN: the fitnesses are finite, and a sum that has
    overflowed to an infinity stays there. *)
Lemma float_of_Q_not_nan x : is_nan (float_of_Q x) = false.
Proof.
  unfold float_of_Q. destruct (Qnum x =? 0)%Z; [done|].
  destruct (_ && _); [|done]. by destruct (0 <? Qnum x)%Z.
Qed.

Lemma float_add_Fin_not_nan v w :
  is_nan v = false → is_nan (float_add v (Fin w)) = false.
Proof. destruct v as [x| | |]; simpl; try done. intros _. apply float_of_Q_not_nan. Qed.

Lemma vote_sum_not_nan a actions fitnesses :
  is_nan (vote_sum a actions fitnesses) = false.
Proof.
  unfold vote_sum. generalize (zip actions fitnesses). intros ballots.
  assert (is_nan (Fin 0) = false) as Hstart by done. revert Hstart.
  generalize (Fin 0). induction ballots as [|[m w] ballots IH]; intros v Hv; [done|].
  cbn [foldl fst snd]. apply IH. destruct (decide (m = a)); [|done].
  by apply float_add_Fin_not_nan.
Qed.

Lemma action_votes_spec n actions fitnesses votes :
  action_votes n actions fitnesses = Ok votes →
  length votes = n ∧
  ∀ a, a < n → votes !! a = Some (vote_sum a actions fitnesses).
Proof.
  unfold action_votes. intros Htally.
  destruct (tally_spec _ _ _ Htally) as [Hlen Hall]. rewrite length_replicate in Hlen.
  split; [done|]. intros a Ha. apply Hall. by apply lookup_replicate_2.
Qed.

(** The votes are sums of floats: with fitnesses [1e16, 1.0, 1e16] and
    proposals [1, 1, 0] over two actions, [1e16 + 1.0] is [1e16], the
    two votes are equal and the lower index is selected. *)
Example weightedvote_rounded_tie :
  let actions := [1; 1; 0] in
  let fitnesses := [10000000000000000; 1; 10000000000000000]%Q in
  action_votes 2 actions fitnesses
    = Ok [Fin 10000000000000000; Fin 10000000000000000] ∧
  weighted_vote 2 actions fitnesses = Ok 0.
Proof. vm_compute. split; reflexivity. Qed.

(** C9. Under "weightedvote" the vote total of an action is the sum of
    the fitnesses of the individuals proposing it, added as the code
    adds them: in floating point, in the order of the individuals.  The
    selected action has the highest vote total, and among actions with
    equal highest totals the one with the lowest index is selected, the
    same every time.  The selection exists whenever there is at least
    one action and every proposal is an action.  For fitnesses
    [1, 2, 5] and proposals [0, 1, 1] over two actions the vote totals
    are [1, 7] and action 1 is selected. *)
Theorem weightedvote_selects_highest_lowest_index
    (n : nat) (actions : list nat) (fitnesses : list Q) :
  (∀ votes, action_votes n actions fitnesses = Ok votes →
     length votes = n ∧
     ∀ a, a < n → votes !! a = Some (vote_sum a actions fitnesses)) ∧
  (∀ a, weighted_vote n actions fitnesses = Ok a →
     a < n ∧
     (∀ b, b < n →
        float_leb (vote_sum b actions fitnesses) (vote_sum a actions fitnesses) = true) ∧
     (∀ b, b < a →
        float_ltb (vote_sum b actions fitnesses) (vote_sum a actions fitnesses) = true)) ∧
  (0 < n → Forall (λ a, a < n) actions →
     ∃ a, weighted_vote n actions fitnesses = Ok a) ∧
  action_votes 2 [0; 1; 1] [1; 2; 5]%Q = Ok [Fin 1; Fin 7] ∧
  weighted_vote 2 [0; 1; 1] [1; 2; 5]%Q = Ok 1.
Proof.
  split; [|split; [|split; [|split]]].
  - intros votes. apply action_votes_spec.
  - intros a. unfold weighted_vote.
    destruct (action_votes n actions fitnesses) as [votes|e] eqn:Hvotes; simpl; [|done].
    intros Ha. destruct (action_votes_spec _ _ _ _ Hvotes) as [Hlen Htot].
    pose proof (np_argmax_float_bound _ _ Ha) as Han. rewrite Hlen in Han.
    split; [done|].
    destruct (np_argmax_float_spec votes a) as (v & Hv & Hmax & Hfirst); [|done|].
    { apply Forall_lookup. intros b x Hx.
      assert (b < n) as Hb by (rewrite <- Hlen; by eapply lookup_lt_Some).
      rewrite (Htot b Hb) in Hx. injection Hx as <-. apply vote_sum_not_nan. }
    rewrite (Htot a Han) in Hv. injection Hv as <-. split.
    + intros b Hb. by apply (Hmax b), Htot.
    + intros b Hb. apply (Hfirst b); [done|]. apply Htot. lia.
  - intros Hn Hall. unfold weighted_vote, action_votes.
    destruct (tally_total (zip actions fitnesses) (replicate n (Fin 0))) as [votes Hvotes].
    { rewrite length_replicate. clear Hn. revert fitnesses.
      induction Hall as [|a actions Ha Hall IH]; intros [|w fitnesses]; simpl;
        by constructor. }
    rewrite Hvotes. simpl.
    destruct (tally_spec _ _ _ Hvotes) as [Hlen _]. rewrite length_replicate in Hlen.
    destruct votes as [|v votes]; simpl in *; [lia|]. destruct (is_nan v); by eexists.
  - vm_compute. reflexivity.
  - vm_compute. reflexivity.
Qed.

(* ================================================================== *)
(** * The coordinator at work in the small world *)

Example toy_start_lunar :
  toy_start "LunarLander-v2" "weightedvote" (9 # 10)
  = Ok (toy_state "LunarLander-v2" "weightedvote" 1 (9 # 10)).
Proof. reflexivity. Qed.

Example toy_start_cartpole :
  toy_start "CartPole-v1" "weightedvote" (9 # 10)
  = Ok (toy_state "CartPole-v1" "weightedvote" 250 (9 # 10)).
Proof. reflexivity. Qed.

Example toy_start_acrobot :
  toy_start "Acrobot-v1" "best" (9 # 10)
  = Ok (toy_state "Acrobot-v1" "best" (-1) (9 # 10)).
Proof. reflexivity. Qed.

Example toy_start_unknown_env : toy_start "Pong-v0" "best" 0 = Raise GymError.
Proof. reflexivity. Qed.

Example toy_lunar_run :
  let r := generations 10000 0 (toy_state "LunarLander-v2" "weightedvote" 1 (9 # 10)) [] in
  r.1.1 = Stopped ByBudget ∧
  r.2 = [ EvEvaluate 0 (head_data toy_model) (200 # 100);
          EvSaveFitnesses 0 4 (200 # 100);
          EvPrintData 0;
          EvInsertParams 0 (head_data toy_model)
            [ [ [tensor1 [1%Z]; tensor1 [2; 1]%Z] ]; [ [tensor1 [1%Z]; tensor1 [2; 1]%Z] ] ] ].
Proof. vm_compute. split; reflexivity. Qed.

Example toy_cartpole_run :
  let r := generations 10000 0 (toy_state "CartPole-v1" "weightedvote" 250 (9 # 10)) [] in
  r.1.1 = Stopped ByFitness ∧
  r.2 = [ EvEvaluate 0 (head_data toy_model) (50000 # 100);
          EvSaveFitnesses 0 4 (50000 # 100);
          EvPrintData 0 ].
Proof. vm_compute. split; reflexivity. Qed.

Example toy_acrobot_run :
  let r := generations 10000 0 (toy_state "Acrobot-v1" "best" (-1) (9 # 10)) [] in
  r.1.1 = Aborted AttributeError ∧
  r.2 = [ EvEvaluate 0 (head_data toy_model) (-200 # 100);
          EvSaveFitnesses 0 4 (-200 # 100);
          EvPrintData 0 ].
Proof. vm_compute. split; reflexivity. Qed.

(* ================================================================== *)
(** * Instances of the theorems, and where the stated claims fail *)

(** The round trip on the network with two Linear - ReLU - Linear
    heads. *)
Lemma insert_extract_noop_witness :
  wf_model two_heads ∧
  insert_params two_heads (extract_params two_heads) = Ok two_heads.
Proof.
  assert (wf_model two_heads) as Hwf.
  { unfold wf_model, wf_layer. refine (bool_decide_unpack _ _). vm_compute. exact I. }
  split; [exact Hwf|]. exact (insert_extract_noop two_heads Hwf).
Defined.

(** C2 as stated fails: in the small world each individual's most
    likely action is action 0, yet with draws of 9/10 the weighted vote
    obtains action 1 from both individuals; with draws of 1/10 it
    obtains action 0.  The action depends on the random source. *)
Lemma weightedvote_actions_are_not_greedy :
  let s := toy_state "LunarLander-v2" "weightedvote" 1 (9 # 10) in
  let s' := toy_state "LunarLander-v2" "weightedvote" 1 (1 # 10) in
  let x := obs2tensor 0 in
  greedy (policy_probs (neural_net (config s)) (model s) x 0) = Ok 0 ∧
  greedy (policy_probs (neural_net (config s)) (model s) x 1) = Ok 0 ∧
  (query_actions x (seq 0 2) s).1 = Ok [1; 1] ∧
  (query_actions x (seq 0 2) s').1 = Ok [0; 0].
Proof. vm_compute. repeat split; reflexivity. Qed.

(** The weighted vote of the small world is the vote over the sampled
    actions. *)
Lemma weightedvote_queries_sampled_actions_witness :
  let s := toy_state "LunarLander-v2" "weightedvote" 1 (9 # 10) in
  exp_test_strat (config s) = "weightedvote"%string ∧
  pop_size (config s) ≤ length (policy_nets (model s)) ∧
  (_get_test_action 0 s).1 =
    weighted_vote 2
      ((λ i, categorical_sample
               (policy_probs (neural_net (config s)) (model s) (obs2tensor 0) i)
               (rng_draws (torch_rng s) (rng_pos (torch_rng s) + i)))
       <$> seq 0 2)
      [0; 0]%Q.
Proof.
  intros s.
  assert (exp_test_strat (config s) = "weightedvote"%string) as H1 by reflexivity.
  assert (pop_size (config s) ≤ length (policy_nets (model s))) as H2 by (vm_compute; lia).
  split; [exact H1|]. split; [exact H2|].
  pose proof (weightedvote_queries_sampled_actions s 0 H1 H2) as [_ H].
  rewrite H. reflexivity.
Defined.

(** In the LunarLander run of the small world the evaluation of
    generation 0 is event 0 and the install of generation 0 is event 3. *)
Lemma evaluation_before_install_witness :
  let tr := (generations 10000 0 (toy_state "LunarLander-v2" "weightedvote" 1 (9 # 10)) []).2 in
  ∃ hd f pre post,
    tr !! 0 = Some (EvEvaluate 0 hd f) ∧
    tr !! 3 = Some (EvInsertParams 0 pre post) ∧
    0 < 3 ∧ hd = pre ∧ ∀ k ev, tr !! k = Some ev → is_log_of 0 ev → k < 3.
Proof.
  intros tr.
  assert (tr !! 0 = Some (EvEvaluate 0 (head_data toy_model) (200 # 100))) as H0
    by (vm_compute; reflexivity).
  assert (tr !! 3 = Some (EvInsertParams 0 (head_data toy_model)
            [ [ [tensor1 [1%Z]; tensor1 [2; 1]%Z] ]; [ [tensor1 [1%Z]; tensor1 [2; 1]%Z] ] ]))
    as H3 by (vm_compute; reflexivity).
  eexists _, _, _, _. split; [exact H0|]. split; [exact H3|].
  exact (evaluation_before_install 10000 0 _ 0 3 0 _ _ _ _ H0 H3).
Defined.

(** The CartPole run of the small world stops by fitness at its first
    evaluation, whose mean is 500. *)
Lemma stop_at_first_threshold_evaluation_witness :
  let s := toy_state "CartPole-v1" "weightedvote" 250 (9 # 10) in
  let o := (generations 10000 0 s []).1.1 in
  let tr := (generations 10000 0 s []).2 in
  stop_fit s = Some 475%Q ∧ exp_print_interval (config s) ≠ 0%Z ∧
  o = Stopped ByFitness ∧
  ∃ i gen hd f, tr !! i = Some (EvEvaluate gen hd f) ∧ Qle_bool 475 f = true ∧
    (∀ j ev, i < j → tr !! j = Some ev → is_log_of gen ev) ∧
    (∀ i' gen' hd' f', i' < i → tr !! i' = Some (EvEvaluate gen' hd' f') →
       Qle_bool 475 f' = false).
Proof.
  intros s o tr.
  assert (stop_fit s = Some 475%Q) as HT by reflexivity.
  assert (exp_print_interval (config s) ≠ 0%Z) as Hpi by (vm_compute; discriminate).
  assert (o = Stopped ByFitness) as Ho by (vm_compute; reflexivity).
  split; [exact HT|]. split; [exact Hpi|]. split; [exact Ho|].
  exact (proj2 (stop_at_first_threshold_evaluation 10000 0 s 475 HT Hpi) Ho).
Defined.

(** A bundle that lacks the bias of the only head makes [insert_params]
    raise. *)
Lemma insert_params_failure_witness :
  wf_model one_head ∧
  raises (insert_params one_head [ [Fresh (tensor1 [30; 40]%Z)] ]).
Proof.
  assert (wf_model one_head) as Hwf.
  { unfold wf_model, wf_layer. refine (bool_decide_unpack _ _). vm_compute. exact I. }
  split; [exact Hwf|].
  apply (proj1 (insert_params_failure one_head [ [Fresh (tensor1 [30; 40]%Z)] ] Hwf)).
  exists 0, 1, (DataOf 0 0 1). split; [reflexivity|]. vm_compute. discriminate.
Defined.

(** Before any backward pass [extract_grads] raises; after one that
    reached every head it returns a bundle shaped like the parameters. *)
Lemma extract_grads_contract_witness :
  extract_grads two_heads = Raise AttributeError ∧
  ∃ g, extract_grads two_heads_with_grads = Ok g ∧
       length g = length (policy_nets two_heads_with_grads) ∧
       Forall (Forall (λ r, is_Some (read two_heads_with_grads r))) g ∧
       bundle_shapes two_heads_with_grads g =
       bundle_shapes two_heads_with_grads (extract_params two_heads_with_grads).
Proof.
  split.
  - apply (proj1 (extract_grads_contract two_heads) 0 0 0
             {| p_data := tensor1 [3; 4]%Z; p_grad := None |}); reflexivity.
  - apply (proj2 (extract_grads_contract two_heads_with_grads)).
    + unfold wf_grads, wf_grad. repeat constructor.
    + apply all_grads_present. unfold grads_present. repeat constructor; by eexists.
Defined.

(** The entry of the second individual: four tensors in a row. *)
Lemma extract_params_layout_witness :
  ∃ entry, extract_params two_heads !! 1 = Some entry ∧
    read two_heads <$> entry =
      [Some (tensor1 [13; 14]%Z); Some (tensor1 [15]%Z);
       Some (tensor1 [16; 17]%Z); Some (tensor1 [18]%Z)] ∧
    length entry = 4.
Proof.
  exact (proj2 (proj2 (extract_params_layout two_heads)) 1 _ eq_refl).
Defined.

(** C8 as stated fails: with the unsupported strategy "majority" the
    runner is built and the run starts; the first generation performs
    its rollouts (four environment steps) and its update, and only the
    evaluation that follows raises, with [UnboundLocalError]. *)
Lemma unsupported_test_strat_is_not_rejected_at_startup :
  __init__ (toy_config "CartPole-v1" "majority") (rng_const 0) (rng_const 0)
    = Ok (toy_runner "CartPole-v1" "majority" 250 0) ∧
  _reset_experiment (toy_runner "CartPole-v1" "majority" 250 0)
    = Ok (toy_state "CartPole-v1" "majority" 250 0) ∧
  let r := generation 0 (toy_state "CartPole-v1" "majority" 250 0) [] in
  r.1.1 = Raised UnboundLocalError ∧ timesteps r.1.2 = 4%Z ∧
  is_Some (new_pop r.1.2).
Proof. vm_compute. repeat split; try reflexivity. by eexists. Qed.

(** The strategy "majority" in the small world. *)
Lemma unsupported_test_strat_fails_late_witness :
  let cfg := toy_config "CartPole-v1" "majority" in
  let s := toy_state "CartPole-v1" "majority" 250 0 in
  is_Ok (__init__ cfg (rng_const 0) (rng_const 0)) ∧
  _get_test_action 0 s = (Raise UnboundLocalError, s) ∧
  (generation 0 s []).1.1 = Raised UnboundLocalError.
Proof.
  intros cfg s.
  assert (exp_test_strat cfg ≠ "best"%string) as H1 by (vm_compute; discriminate).
  assert (exp_test_strat cfg ≠ "softmax"%string) as H2 by (vm_compute; discriminate).
  assert (exp_test_strat cfg ≠ "weightedvote"%string) as H3 by (vm_compute; discriminate).
  destruct (unsupported_test_strat_fails_late cfg (rng_const 0) (rng_const 0) H1 H2 H3)
    as (Hinit & Hact & _ & Hgen).
  split; [apply Hinit; vm_compute; by eexists|].
  split; [apply Hact; reflexivity|].
  apply (Hgen 0 s []); [reflexivity|vm_compute; reflexivity|vm_compute; reflexivity].
Defined.

(** Two actions with equal votes: the lower index wins. *)
Example weightedvote_tie : weighted_vote 2 [1; 0] [3; 3]%Q = Ok 0.
Proof. reflexivity. Qed.

(** Scenario A: action 1 carries the highest vote. *)
Lemma weightedvote_selects_highest_lowest_index_witness :
  weighted_vote 2 [0; 1; 1] [1; 2; 5]%Q = Ok 1 ∧
  1 < 2 ∧
  (∀ b, b < 2 →
     float_leb (vote_sum b [0; 1; 1] [1; 2; 5]%Q) (vote_sum 1 [0; 1; 1] [1; 2; 5]%Q) = true) ∧
  (∀ b, b < 1 →
     float_ltb (vote_sum b [0; 1; 1] [1; 2; 5]%Q) (vote_sum 1 [0; 1; 1] [1; 2; 5]%Q) = true).
Proof.
  assert (weighted_vote 2 [0; 1; 1] [1; 2; 5]%Q = Ok 1) as Hsel by (vm_compute; reflexivity).
  split; [exact Hsel|].
  exact (proj1 (proj2 (weightedvote_selects_highest_lowest_index 2 [0; 1; 1] [1; 2; 5]%Q))
           1 Hsel).
Defined.

(** C10 as stated fails: an environment identifier that gym does not
    know, here "NoSuchEnv-v0", is rejected at startup: [gym.make] raises
    in the constructor and no runner is built. *)
Lemma unknown_environment_is_rejected_at_startup :
  let cfg := toy_config "NoSuchEnv-v0" "best" in
  exp_env cfg ≠ "CartPole-v1"%string ∧ exp_env cfg ≠ "LunarLander-v2"%string ∧
  __init__ (E := nat * Q) cfg (rng_const 0) (rng_const 0) = Raise GymError.
Proof. split; [discriminate|]. split; [discriminate|]. reflexivity. Qed.

(** The Acrobot run of the small world: no threshold, and the first
    evaluation ends the run with [AttributeError]. *)
Lemma no_threshold_for_other_environments_witness :
  let cfg := toy_config "Acrobot-v1" "best" in
  let s := toy_state "Acrobot-v1" "best" (-1) (9 # 10) in
  exp_env cfg ≠ "CartPole-v1"%string ∧ exp_env cfg ≠ "LunarLander-v2"%string ∧
  (∃ r, __init__ cfg (rng_const (9 # 10)) (rng_const (9 # 10)) = Ok r ∧ r_stop_fit r = None) ∧
  (generations 10000 0 s []).1.1 = Aborted AttributeError.
Proof.
  intros cfg s.
  assert (exp_env cfg ≠ "CartPole-v1"%string) as H1 by (vm_compute; discriminate).
  assert (exp_env cfg ≠ "LunarLander-v2"%string) as H2 by (vm_compute; discriminate).
  destruct (no_threshold_for_other_environments cfg (rng_const (9 # 10)) (rng_const (9 # 10))
              H1 H2) as (_ & Hbuilt & _ & Hrun).
  split; [exact H1|]. split; [exact H2|].
  split; [apply Hbuilt; vm_compute; by eexists|].
  assert (exp_print_interval cfg ≠ 0%Z) as Hpi by (vm_compute; discriminate).
  destruct (Hrun (toy_runner "Acrobot-v1" "best" (-1) (9 # 10)) s 10000
              eq_refl eq_refl Hpi) as [_ Hev].
  apply (Hev 0 0 (head_data toy_model) (-200 # 100)%Q). vm_compute. reflexivity.
Defined.

(* ================================================================== *)
(** * Further properties of the population network *)

(** ** [insert_params] overwrites values only *)

Lemma load_state_dict_keeps m0 pop li ind0 layer0 sd ps :
  policy_nets m0 !! pop = Some ind0 → ind0 !! li = Some layer0 →
  ∀ m k m', skeleton m0 = skeleton m → drop k layer0 = ps →
  load_state_dict m pop li k ps sd = Ok m' →
  skeleton m0 = skeleton m' ∧ shared_net m' = shared_net m ∧ value_net m' = value_net m.
Proof.
  intros Hind0 Hlayer0.
  induction ps as [|[n p] ps IH]; intros m k m' Hsk Hdrop Hload; simpl in Hload.
  - by simplify_eq.
  - apply lookup_drop_cons in Hdrop as [Hk Hdrop].
    destruct (sd !! n) as [r|]; [|done].
    destruct (read m r) as [t|]; [|done].
    destruct (decide (t_shape t = t_shape (p_data p))) as [Heq|]; [|done].
    assert (live m0 pop li k = Some p) as Hlive0 by (apply live_Some; eauto 10).
    pose proof (skeleton_live m0 m pop li k Hsk) as Hinfo. rewrite Hlive0 in Hinfo.
    destruct (live m pop li k) as [p'|] eqn:Hlive; simpl in Hinfo; [|done].
    assert (skeleton m0 = skeleton (copy_ m pop li k t)) as Hsk'.
    { rewrite (skeleton_copy_ m pop li k p' t Hlive); [done|]. congruence. }
    destruct (IH _ _ _ Hsk' Hdrop Hload) as (? & ? & ?). done.
Qed.

Lemma insert_layers_keeps m0 incoming pop ind0 layers :
  policy_nets m0 !! pop = Some ind0 →
  ∀ m li i m', skeleton m0 = skeleton m → drop li ind0 = layers →
  insert_layers incoming pop li layers i m = Ok m' →
  skeleton m0 = skeleton m' ∧ shared_net m' = shared_net m ∧ value_net m' = value_net m.
Proof.
  intros Hpop.
  induction layers as [|layer layers IH]; intros m li i m' Hsk Hdrop Hins; simpl in Hins.
  - by simplify_eq.
  - apply lookup_drop_cons in Hdrop as [Hli Hdrop]. unfold named_parameters in Hins.
    destruct (fill_state_dict _ _ _ _ _) as [[sd i']|e]; simpl in Hins; [|done].
    destruct (load_state_dict m pop li 0 layer sd) as [m1|e] eqn:Hload; simpl in Hins; [|done].
    destruct (load_state_dict_keeps m0 pop li ind0 layer sd layer Hpop Hli m 0 m1 Hsk eq_refl Hload)
      as (Hsk1 & Hs1 & Hv1).
    destruct (IH _ _ _ _ Hsk1 Hdrop Hins) as (? & ? & ?). split; [done|]. split; congruence.
Qed.

Lemma insert_individuals_keeps m0 incoming individuals :
  ∀ m pop m', skeleton m0 = skeleton m → drop pop (policy_nets m0) = individuals →
  insert_individuals incoming pop individuals m = Ok m' →
  skeleton m0 = skeleton m' ∧ shared_net m' = shared_net m ∧ value_net m' = value_net m.
Proof.
  induction individuals as [|ind individuals IH]; intros m pop m' Hsk Hdrop Hins; simpl in Hins.
  - by simplify_eq.
  - apply lookup_drop_cons in Hdrop as [Hpop Hdrop].
    destruct (insert_layers incoming pop 0 ind 0 m) as [m1|e] eqn:Hlayers; simpl in Hins; [|done].
    destruct (insert_layers_keeps m0 incoming pop ind ind Hpop m 0 0 m1 Hsk eq_refl Hlayers)
      as (Hsk1 & Hs1 & Hv1).
    destruct (IH _ _ _ Hsk1 Hdrop Hins) as (? & ? & ?). split; [done|]. split; congruence.
Qed.

Lemma skeleton_lengths m m' :
  skeleton m = skeleton m' →
  length (policy_nets m') = length (policy_nets m) ∧
  (length <$> policy_nets m') = (length <$> policy_nets m).
Proof.
  unfold skeleton. intros Hsk. split.
  - apply (f_equal length) in Hsk. rewrite !length_fmap in Hsk. done.
  - apply (f_equal (fmap length)) in Hsk. rewrite <- !list_fmap_compose in Hsk.
    etrans; [|etrans; [symmetry; exact Hsk|]]; apply list_fmap_ext; intros; simpl;
      by rewrite length_fmap.
Qed.

(** X1. A successful [insert_params] overwrites values and nothing
    else: the shared trunk and the value head are untouched, and every
    head keeps its structure, that is the number of individuals, the
    number of layers of each, and the name, the shape and the gradient of
    every parameter. *)
Theorem insert_params_keeps_structure (m m' : EvoACModel) (incoming : Bundle) :
  insert_params m incoming = Ok m' →
  shared_net m' = shared_net m ∧
  value_net m' = value_net m ∧
  skeleton m' = skeleton m ∧
  length (policy_nets m') = length (policy_nets m) ∧
  (length <$> policy_nets m') = (length <$> policy_nets m).
Proof.
  intros Hins. unfold insert_params in Hins.
  destruct (insert_individuals_keeps m incoming (policy_nets m) m 0 m' eq_refl eq_refl Hins)
    as (Hsk & Hs & Hv).
  destruct (skeleton_lengths m m' Hsk) as [? ?]. done.
Qed.

(** ** Which error [insert_params] raises *)

Lemma fill_state_dict_Ok_inv incoming pop names i sd sd' i' :
  fill_state_dict incoming pop names i sd = Ok (sd', i') → names ≠ [] →
  ∃ entry, incoming !! pop = Some entry ∧ i + length names ≤ length entry.
Proof.
  intros Hfill Hne.
  destruct (incoming !! pop) as [entry|] eqn:Hin.
  - exists entry. split; [done|].
    destruct (decide (i + length names ≤ length entry)) as [|Hshort]; [done|].
    rewrite fill_state_dict_short in Hfill; [done|done|].
    intros entry' He. rewrite Hin in He. injection He as <-. lia.
  - rewrite fill_state_dict_short in Hfill; [done|done|].
    intros entry' He. by rewrite Hin in He.
Qed.

Lemma fill_state_dict_Raise incoming pop names i sd e :
  fill_state_dict incoming pop names i sd = Raise e →
  e = IndexError ∧ ∃ j, j < length names ∧ incoming_at incoming pop (i + j) = None.
Proof.
  revert i sd. induction names as [|n names IH]; intros i sd Hfill; simpl in Hfill; [done|].
  unfold incoming_at.
  destruct (incoming !! pop) as [entry|] eqn:Hin.
  2:{ simplify_eq. split; [done|]. exists 0. simpl. split; [lia|done]. }
  destruct (entry !! i) as [t|] eqn:Ht.
  2:{ simplify_eq. split; [done|]. exists 0. simpl. split; [lia|]. by rewrite Nat.add_0_r. }
  destruct (IH _ _ Hfill) as (-> & j & Hj & Hnone). split; [done|].
  exists (Datatypes.S j). simpl. split; [lia|].
  unfold incoming_at in Hnone. rewrite Hin in Hnone. simpl in *.
  by replace (i + Datatypes.S j) with (Datatypes.S i + j) by lia.
Qed.

Lemma load_state_dict_Raise m pop li k ps sd e :
  load_state_dict m pop li k ps sd = Raise e → e = RuntimeError.
Proof.
  revert m k. induction ps as [|[n p] ps IH]; intros m k Hload; simpl in Hload; [done|].
  destruct (sd !! n) as [r|]; [|by simplify_eq].
  destruct (read m r) as [t|]; [|by simplify_eq].
  destruct (decide (t_shape t = t_shape (p_data p))); [|by simplify_eq].
  by eapply IH.
Qed.

Lemma insert_layers_errors m0 incoming pop ind0 layers :
  policy_nets m0 !! pop = Some ind0 → Forall wf_layer ind0 →
  ∀ m li i e, skeleton m0 = skeleton m → drop li ind0 = layers →
  insert_layers incoming pop li layers i m = Raise e →
  (e = IndexError ∧
   ∃ j np, concat layers !! j = Some np ∧ incoming_at incoming pop (i + j) = None) ∨
  (e = RuntimeError ∧
   ∃ j np r', concat layers !! j = Some np ∧ incoming_at incoming pop (i + j) = Some r' ∧
     ref_shape m0 r' ≠ Some (t_shape (p_data np.2))).
Proof.
  intros Hpop Hwf.
  induction layers as [|layer layers IH]; intros m li i e Hsk Hdrop Hins; simpl in Hins; [done|].
  apply lookup_drop_cons in Hdrop as [Hli Hdrop]. unfold named_parameters in Hins.
  assert (wf_layer layer) as Hwfl by (eapply Forall_lookup_1; eauto).
  destruct (fill_state_dict incoming pop layer.*1 i (state_dict pop li layer))
    as [[sd i']|e'] eqn:Hfill; simpl in Hins.
  2:{ simplify_eq. destruct (fill_state_dict_Raise _ _ _ _ _ _ Hfill) as (-> & j & Hj & Hnone).
      rewrite length_fmap in Hj. left. split; [done|].
      destruct (lookup_lt_is_Some_2 layer j Hj) as [np Hnp].
      exists j, np. split; [|done]. simpl. by rewrite lookup_app_l. }
  pose proof (fill_state_dict_idx _ _ _ _ _ _ _ Hfill) as Hi'. rewrite length_fmap in Hi'. subst i'.
  pose proof (load_state_dict_spec m0 pop li ind0 layer sd layer Hpop Hli m 0 Hsk eq_refl) as Hspec.
  destruct (load_state_dict m pop li 0 layer sd) as [m1|e'] eqn:Hload; simpl in Hins.
  - destruct Hspec as [Hsk1 _].
    destruct (IH _ _ _ _ Hsk1 Hdrop Hins) as [(-> & j & np & Hj & Hnone)|(-> & j & np & r' & Hj & Hr' & Hbad)].
    + left. split; [done|]. exists (length layer + j), np. split.
      * simpl. rewrite lookup_app_r by lia. by replace (length layer + j - length layer) with j by lia.
      * by replace (i + (length layer + j)) with (i + length layer + j) by lia.
    + right. split; [done|]. exists (length layer + j), np, r'. split; [|split; [|done]].
      * simpl. rewrite lookup_app_r by lia. by replace (length layer + j - length layer) with j by lia.
      * by replace (i + (length layer + j)) with (i + length layer + j) by lia.
  - simplify_eq. pose proof (load_state_dict_Raise _ _ _ _ _ _ _ Hload) as ->.
    destruct Hspec as (j & np & Hj & Hbad). right. split; [done|].
    assert (layer.*1 ≠ []) as Hnames.
    { destruct layer; [done|]. done. }
    destruct (fill_state_dict_Ok_inv _ _ _ _ _ _ _ Hfill Hnames) as (entry & Hentry & Hlen).
    destruct (fill_state_dict_Ok incoming pop entry (layer.*1) i
                (state_dict pop li layer) Hentry Hlen) as (sd2 & Hfill2 & _ & Hat).
    rewrite Hfill in Hfill2. injection Hfill2 as <-.
    rewrite (Hat Hwfl j (np.1)) in Hbad by (by rewrite list_lookup_fmap, Hj).
    rewrite length_fmap in Hlen. apply lookup_lt_Some in Hj as Hjlt.
    destruct (lookup_lt_is_Some_2 entry (i + j) ltac:(lia)) as [r' Hr'].
    rewrite Hr' in Hbad. simpl in Hbad.
    exists j, np, r'. split; [simpl; by rewrite lookup_app_l|]. split; [|done].
    unfold incoming_at. rewrite Hentry. done.
Qed.

Lemma insert_individuals_errors m0 incoming individuals :
  wf_model m0 →
  ∀ m pop e, skeleton m0 = skeleton m → drop pop (policy_nets m0) = individuals →
  insert_individuals incoming pop individuals m = Raise e →
  (e = IndexError ∧
   ∃ q ind j np, individuals !! q = Some ind ∧ concat ind !! j = Some np ∧
     incoming_at incoming (pop + q) j = None) ∨
  (e = RuntimeError ∧
   ∃ q ind j np r', individuals !! q = Some ind ∧ concat ind !! j = Some np ∧
     incoming_at incoming (pop + q) j = Some r' ∧
     ref_shape m0 r' ≠ Some (t_shape (p_data np.2))).
Proof.
  intros Hwf.
  induction individuals as [|ind individuals IH]; intros m pop e Hsk Hdrop Hins; simpl in Hins; [done|].
  apply lookup_drop_cons in Hdrop as [Hpop Hdrop].
  assert (Forall wf_layer ind) as Hwfi by (eapply Forall_lookup_1; eauto).
  destruct (insert_layers incoming pop 0 ind 0 m) as [m1|e'] eqn:Hlayers; simpl in Hins.
  - destruct (insert_layers_keeps m0 incoming pop ind ind Hpop m 0 0 m1 Hsk eq_refl Hlayers)
      as (Hsk1 & _ & _).
    destruct (IH _ _ _ Hsk1 Hdrop Hins)
      as [(-> & q & ind' & j & np & Hq & Hj & Hnone)|(-> & q & ind' & j & np & r' & Hq & Hj & Hr' & Hbad)].
    + left. split; [done|]. exists (Datatypes.S q), ind', j, np. split; [done|]. split; [done|].
      by replace (pop + Datatypes.S q) with (Datatypes.S pop + q) by lia.
    + right. split; [done|]. exists (Datatypes.S q), ind', j, np, r'.
      split; [done|]. split; [done|]. split; [|done].
      by replace (pop + Datatypes.S q) with (Datatypes.S pop + q) by lia.
  - simplify_eq.
    destruct (insert_layers_errors m0 incoming pop ind ind Hpop Hwfi m 0 0 e Hsk eq_refl Hlayers)
      as [(-> & j & np & Hj & Hnone)|(-> & j & np & r' & Hj & Hr' & Hbad)].
    + left. split; [done|]. exists 0, ind, j, np. rewrite Nat.add_0_r. done.
    + right. split; [done|]. exists 0, ind, j, np, r'. rewrite Nat.add_0_r. done.
Qed.

(** X3. The two ways [insert_params] fails.  It raises [IndexError]
    only when the bundle has no entry at some position of the extraction
    layout (too few individuals, or too few tensors for one of them),
    and [RuntimeError] (from [load_state_dict]) only when an entry that
    is there has another shape than the live parameter; it raises
    nothing else. *)
Theorem insert_params_errors (m : EvoACModel) (incoming : Bundle) (e : PyError) :
  wf_model m →
  insert_params m incoming = Raise e →
  (e = IndexError ∧
   ∃ pop j r, incoming_at (extract_params m) pop j = Some r ∧
     incoming_at incoming pop j = None) ∨
  (e = RuntimeError ∧
   ∃ pop j r r', incoming_at (extract_params m) pop j = Some r ∧
     incoming_at incoming pop j = Some r' ∧ ref_shape m r' ≠ ref_shape m r).
Proof.
  intros Hwf Hins. unfold insert_params in Hins.
  assert (∀ pop ind j np, policy_nets m !! pop = Some ind → concat ind !! j = Some np →
            ∃ r, incoming_at (extract_params m) pop j = Some r ∧
                 ref_shape m r = Some (t_shape (p_data np.2))) as Hpos.
  { intros pop ind j np Hpop Hnp.
    destruct (individual_params pop ind !! j) as [r|] eqn:Hr.
    - exists r. split; [apply extract_params_position; eauto 10|].
      by eapply extract_params_shape.
    - pose proof (read_individual_params m pop ind Hpop) as Hread.
      apply (f_equal (λ l, l !! j)) in Hread.
      rewrite !list_lookup_fmap, Hnp, Hr in Hread. done. }
  destruct (insert_individuals_errors m incoming (policy_nets m) Hwf m 0 e eq_refl eq_refl Hins)
    as [(-> & q & ind & j & np & Hq & Hj & Hnone)|(-> & q & ind & j & np & r' & Hq & Hj & Hr' & Hbad)];
    simpl in *.
  - left. split; [done|]. destruct (Hpos _ _ _ _ Hq Hj) as (r & Hr & _). eauto.
  - right. split; [done|]. destruct (Hpos _ _ _ _ Hq Hj) as (r & Hr & Hshape).
    exists q, j, r, r'. rewrite Hshape. done.
Qed.

(* ================================================================== *)
(** * Further properties of the runner *)

Section RunnerMore.
Context {E Obs S EAst L : Type}.
Context `{!Torch L, !Gym E Obs, !Storage S Obs L, !Evolution EAst}.

#[local] Abbreviation RunState := (@RunState E S EAst).
#[local] Abbreviation M := (@M E S EAst).
#[local] Abbreviation evaluation_footprint := (@evaluation_footprint E S EAst).
#[local] Abbreviation rollout_footprint := (@rollout_footprint E S EAst).
#[local] Abbreviation training_footprint := (@training_footprint E S EAst).

#[local] Instance evaluation_footprint_preorder : PreOrder evaluation_footprint.
Proof.
  split; [by intros s|].
  intros s1 s2 s3 (? & ? & ? & ? & ? & ? & ? & ? & ? & ?) (? & ? & ? & ? & ? & ? & ? & ? & ? & ?).
  repeat split; congruence.
Qed.

#[local] Instance rollout_footprint_preorder : PreOrder rollout_footprint.
Proof.
  split; [intros s; unfold rollout_footprint; repeat (split; [reflexivity|]); lia|].
  intros s1 s2 s3 (? & ? & ? & ? & ? & ? & ? & ? & ? & ?) (? & ? & ? & ? & ? & ? & ? & ? & ? & ?).
  unfold rollout_footprint. repeat (split; [congruence|]). lia.
Qed.

#[local] Instance training_footprint_preorder : PreOrder training_footprint.
Proof.
  split; [intros s; unfold training_footprint; repeat (split; [reflexivity|]); lia|].
  intros s1 s2 s3 (? & ? & ? & ? & ? & ?) (? & ? & ? & ? & ? & ?).
  unfold training_footprint. repeat (split; [congruence|]). lia.
Qed.

(** ** The footprint of the evaluation *)

Lemma model_get_action_eval x pop_idx :
  preserves evaluation_footprint (model_get_action x pop_idx).
Proof.
  intros s. unfold model_get_action.
  destruct (get_action _ _ _ _ _) as [r g]. simpl. by repeat split.
Qed.

Lemma query_actions_eval x pop_idxs : preserves evaluation_footprint (query_actions x pop_idxs).
Proof.
  induction pop_idxs as [|i rest IH]; simpl.
  - apply preserves_ret; apply _.
  - apply preserves_bind; [apply _|apply model_get_action_eval|intros r].
    apply preserves_bind; [apply _|apply IH|intros a]. apply preserves_ret; apply _.
Qed.

Lemma np_random_choice_eval n probs : preserves evaluation_footprint (np_random_choice n probs).
Proof.
  intros s. unfold np_random_choice. case_decide; [|simpl; reflexivity].
  destruct (rng_next _). by repeat split.
Qed.

Lemma _get_test_action_eval obs : preserves evaluation_footprint (_get_test_action obs).
Proof.
  unfold _get_test_action.
  apply preserves_bind; [apply _|apply preserves_gets; apply _|intros fitnesses].
  apply preserves_bind; [apply _|apply preserves_gets; apply _|intros strat].
  repeat case_decide.
  - apply preserves_bind; [apply _|apply preserves_lift; apply _|intros ?].
    apply preserves_bind; [apply _|apply model_get_action_eval|intros ?].
    apply preserves_ret; apply _.
  - apply preserves_bind; [apply _|apply preserves_gets; apply _|intros ?].
    apply preserves_bind; [apply _|apply np_random_choice_eval|intros ?].
    apply preserves_bind; [apply _|apply model_get_action_eval|intros ?].
    apply preserves_ret; apply _.
  - apply preserves_bind; [apply _|apply preserves_gets; apply _|intros ?].
    apply preserves_bind; [apply _|apply query_actions_eval|intros ?].
    apply preserves_bind; [apply _|apply preserves_gets; apply _|intros ?].
    apply preserves_lift; apply _.
  - apply preserves_lift; apply _.
Qed.

Lemma test_episode_loop_eval left obs fitness :
  preserves evaluation_footprint (test_episode_loop left obs fitness).
Proof.
  assert (∀ a, preserves evaluation_footprint (test_env_do_step a)) as Hstep.
  { intros a s. unfold test_env_do_step. destruct (env_step _ _). by repeat split. }
  revert obs fitness. induction left as [|left IH]; intros obs fitness; simpl.
  - apply preserves_bind; [apply _|apply _get_test_action_eval|intros a].
    apply preserves_bind; [apply _|apply Hstep|intros [[obs' r] done]].
    destruct done; apply preserves_ret; apply _.
  - apply preserves_bind; [apply _|apply _get_test_action_eval|intros a].
    apply preserves_bind; [apply _|apply Hstep|intros [[obs' r] done]].
    destruct done; [apply preserves_ret; apply _|apply IH].
Qed.

Lemma test_episodes_eval n fitnesses : preserves evaluation_footprint (test_episodes n fitnesses).
Proof.
  revert fitnesses. induction n as [|n IH]; intros fitnesses; simpl.
  - apply preserves_ret; apply _.
  - apply preserves_bind; [apply _| |intros f; apply IH].
    unfold test_episode.
    apply preserves_bind; [apply _| |intros obs].
    { intros s. unfold test_env_do_reset. destruct (env_reset _). by repeat split. }
    apply preserves_bind; [apply _|apply preserves_gets; apply _|intros limit].
    apply test_episode_loop_eval.
Qed.

(** X4. The evaluation is decoupled from training: whatever it returns
    or raises, [_test_algorithm] leaves the network, the storage, the
    training environment, the evolutionary collaborator, the staged new
    population, the step counter, [last_log] and the configuration as
    they were.  It writes the test environment and the random sources
    only. *)
Theorem evaluation_writes_test_side_only (s : RunState) :
  evaluation_footprint s (_test_algorithm s).2.
Proof.
  revert s. change (preserves evaluation_footprint _test_algorithm). unfold _test_algorithm.
  apply preserves_bind; [apply _|apply test_episodes_eval|intros f].
  apply preserves_ret; apply _.
Qed.

(** ** The footprint of rollouts and update *)

Ltac footprint :=
  simpl; repeat match goal with |- _ ∧ _ => split end; simpl; first [reflexivity | lia].

Lemma run_episode_loop_rollout left pop_idx obs fitness :
  preserves rollout_footprint (run_episode_loop left pop_idx obs fitness).
Proof.
  assert (∀ x i, preserves rollout_footprint (model_get_action x i)) as Hact.
  { intros x i s. unfold model_get_action. destruct (get_action _ _ _ _ _) as [r g].
    unfold rollout_footprint. footprint. }
  assert (∀ a, preserves rollout_footprint (env_do_step a)) as Hstep.
  { intros a s. unfold env_do_step. destruct (env_step _ _).
    unfold rollout_footprint. footprint. }
  assert (preserves rollout_footprint
            (modify (λ s : RunState, set_timesteps (timesteps s + 1)%Z s))) as Htick.
  { apply preserves_modify. intros s. unfold rollout_footprint. footprint. }
  assert (∀ f : RunState → S, preserves rollout_footprint
            (modify (λ s : RunState, set_storage (f s) s))) as Hstore.
  { intros f. apply preserves_modify. intros s.
    unfold rollout_footprint. footprint. }
  revert obs fitness. induction left as [|left IH]; intros obs fitness; simpl.
  - apply preserves_bind; [apply _|apply Hact|intros r].
    apply preserves_bind; [apply _|apply Htick|intros _].
    apply preserves_bind; [apply _|apply Hstep|intros [[obs' rw] done]].
    apply preserves_bind; [apply _|apply Hstore|intros _].
    destruct done; apply preserves_ret; apply _.
  - apply preserves_bind; [apply _|apply Hact|intros r].
    apply preserves_bind; [apply _|apply Htick|intros _].
    apply preserves_bind; [apply _|apply Hstep|intros [[obs' rw] done]].
    apply preserves_bind; [apply _|apply Hstore|intros _].
    destruct done; [apply preserves_ret; apply _|apply IH].
Qed.

Lemma _run_episode_rollout pop_idx : preserves rollout_footprint (_run_episode pop_idx).
Proof.
  unfold _run_episode.
  apply preserves_bind; [apply _| |intros obs].
  { intros s. unfold env_do_reset. destruct (env_reset _).
    unfold rollout_footprint. footprint. }
  apply preserves_bind; [apply _|apply preserves_gets; apply _|intros limit].
  apply preserves_bind; [apply _|apply run_episode_loop_rollout|intros f].
  apply preserves_modify. intros s. unfold rollout_footprint. footprint.
Qed.

Lemma run_episodes_rollout pop_idxs : preserves rollout_footprint (run_episodes pop_idxs).
Proof.
  induction pop_idxs as [|i rest IH]; simpl.
  - apply preserves_ret; apply _.
  - apply preserves_bind; [apply _|apply _run_episode_rollout|intros _]. apply IH.
Qed.

Lemma fmap_imap_same {A B C} (g : B → C) (h : A → C) (f : nat → A → B) (l : list A) :
  (∀ i x, l !! i = Some x → g (f i x) = h x) → g <$> imap f l = h <$> l.
Proof.
  intros Hf. apply list_eq. intros i.
  rewrite !list_lookup_fmap, list_lookup_imap.
  destruct (l !! i) as [x|] eqn:Hx; simpl; [|done]. f_equal. by apply Hf.
Qed.

Lemma head_data_backward (loss : L) m : head_data (backward loss m) = head_data m.
Proof.
  unfold head_data, backward. simpl.
  apply fmap_imap_same. intros pop ind _.
  apply fmap_imap_same. intros li layer _.
  apply fmap_imap_same. intros k np _. done.
Qed.

Lemma _update_evo_ac_training : preserves training_footprint _update_evo_ac.
Proof.
  unfold _update_evo_ac.
  apply preserves_bind; [apply _|apply preserves_gets; apply _|intros [[loss pl] vl]].
  apply preserves_bind; [apply _| |intros _].
  { apply preserves_modify. intros s. unfold training_footprint. footprint. }
  apply preserves_bind; [apply _| |intros _].
  { apply preserves_modify. intros s. unfold training_footprint. simpl.
    rewrite head_data_backward. footprint. }
  apply preserves_bind; [apply _|intros s; simpl; reflexivity|intros grads].
  apply preserves_bind; [apply _| |intros _].
  { apply preserves_modify. intros s. unfold training_footprint. footprint. }
  apply preserves_bind; [apply _| |intros _].
  { apply preserves_modify. intros s. unfold training_footprint, opt_step.
    destruct (adam_step _ _ _). footprint. }
  apply preserves_bind; [apply _| |intros _].
  { apply preserves_modify. intros s. unfold training_footprint. footprint. }
  apply preserves_modify. intros s. destruct (create_new_pop _ _ _) as [[b ea] g].
  unfold training_footprint. footprint.
Qed.

Lemma rollout_training (c : M unit) : preserves rollout_footprint c → preserves training_footprint c.
Proof.
  intros Hc s. destruct (Hc s) as (? & ? & ? & ? & Hm & ? & ? & ? & ? & ?).
  unfold training_footprint. rewrite Hm. repeat (split; [done|]). done.
Qed.

Lemma collect_and_update_training : preserves training_footprint collect_and_update.
Proof.
  unfold collect_and_update.
  apply preserves_bind; [apply _| |intros _].
  { apply preserves_modify. intros s. unfold training_footprint. footprint. }
  apply preserves_bind; [apply _|apply preserves_gets; apply _|intros n].
  apply preserves_bind; [apply _|apply rollout_training, run_episodes_rollout|intros _].
  apply _update_evo_ac_training.
Qed.

(** X5. Rollouts and the combined update never change the value of a
    head parameter: whatever [collect_and_update] returns or raises, the
    head values, the configuration, the threshold, the test environment
    and [last_log] are as before, and the step counter has not
    decreased.  (The optimizer was built from the registered parameters,
    which leave [policy_nets] out, and the backward pass writes
    gradients only.)  Head values change in [insert_params] alone. *)
Theorem training_keeps_head_values (s : RunState) :
  training_footprint s (collect_and_update s).2.
Proof.
  pose proof (collect_and_update_training s) as (Hcfg & Hstop & Htest & Hlog & Hheads & Hts).
  unfold training_footprint. repeat (split; [assumption|]). exact Hts.
Qed.

(** ** Progress of the step counter *)

Lemma model_get_action_inv x pop_idx (s : RunState) res s1 :
  model_get_action x pop_idx s = (res, s1) →
  ∃ g, s1 = set_torch_rng g s.
Proof.
  unfold model_get_action. destruct (get_action _ _ _ _ _) as [r g]. intros [= _ <-]. eauto.
Qed.


Lemma run_episode_loop_steps left pop_idx : ∀ obs fitness (s : RunState) f s',
  run_episode_loop left pop_idx obs fitness s = (Ok f, s') →
  (timesteps s + 1 <= timesteps s')%Z.
Proof.
  induction left as [|left IH]; intros obs fitness s f s' Hrun; simpl in Hrun;
    unfold mbind, M_bind in Hrun;
    destruct (model_get_action (obs2tensor obs) pop_idx s) as [[r|e] s1] eqn:Hact; try done;
    apply model_get_action_inv in Hact as [g ->]; simpl in Hrun;
    unfold env_do_step in Hrun; simpl in Hrun;
    destruct (env_step (env s) (action r)) as [[[obs' rw] done] e'] eqn:Hstep; simpl in Hrun;
    destruct done; simpl in Hrun.
  - injection Hrun as _ <-. simpl. lia.
  - injection Hrun as _ <-. simpl. lia.
  - injection Hrun as _ <-. simpl. lia.
  - apply IH in Hrun. simpl in Hrun. lia.
Qed.

Lemma _run_episode_steps pop_idx (s : RunState) s' :
  _run_episode pop_idx s = (Ok tt, s') → (timesteps s + 1 <= timesteps s')%Z.
Proof.
  unfold _run_episode, mbind, M_bind, env_do_reset. intros Hrun.
  destruct (env_reset (env s)) as [obs e]. simpl in Hrun.
  destruct (run_episode_loop _ pop_idx obs 0%Q (set_env e s)) as [[f|e'] s1] eqn:Hloop; [|done].
  apply run_episode_loop_steps in Hloop. simpl in *. injection Hrun as <-. simpl. lia.
Qed.

Lemma run_episodes_steps pop_idxs : ∀ (s : RunState) s',
  run_episodes pop_idxs s = (Ok tt, s') →
  (timesteps s + Z.of_nat (length pop_idxs) <= timesteps s')%Z.
Proof.
  induction pop_idxs as [|i rest IH]; intros s s' Hrun; simpl in Hrun.
  - injection Hrun as <-. simpl. lia.
  - unfold mbind, M_bind in Hrun.
    destruct (_run_episode i s) as [[[]|e] s1] eqn:Hep; [|done].
    apply _run_episode_steps in Hep. apply IH in Hrun. simpl length. lia.
Qed.

Lemma collect_and_update_steps (s : RunState) s1 :
  collect_and_update s = (Ok tt, s1) →
  (timesteps s + Z.of_nat (pop_size (config s)) <= timesteps s1)%Z.
Proof.
  unfold collect_and_update, mbind, M_bind. simpl.
  set (s0 := set_storage (reset_storage (storage s)) s).
  destruct (run_episodes (seq 0 (pop_size (config s))) s0) as [[[]|e] s2] eqn:Hrun; [|done].
  intros Hupd. apply run_episodes_steps in Hrun. rewrite length_seq in Hrun. simpl in Hrun.
  destruct (_update_evo_ac_training s2) as (_ & _ & _ & _ & _ & Hts).
  rewrite Hupd in Hts. simpl in Hts. lia.
Qed.

(** X6. Every episode takes at least one environment step, so a
    generation whose rollouts and update succeed advances the step
    counter by at least the population size. *)
Theorem rollouts_advance_timesteps (s : RunState) :
  (collect_and_update s).1 = Ok tt →
  (timesteps s + Z.of_nat (pop_size (config s)) <= timesteps (collect_and_update s).2)%Z.
Proof.
  intros Hok. apply collect_and_update_steps.
  destruct (collect_and_update s) as [[[]|e] s1]; simpl in *; [reflexivity|discriminate].
Qed.

(** ** The generation loop and the step budget *)

Lemma install_Next g (s : RunState) tr s' tr' :
  install g s tr = (Next, s', tr') →
  config s' = config s ∧ timesteps s' = timesteps s ∧
  (timesteps s <= exp_timesteps (config s))%Z.
Proof.
  unfold install. destruct (new_pop s) as [b|]; [|done].
  destruct (insert_params (model s) b) as [m'|e]; [|done]. simpl.
  destruct (Z.ltb_spec (exp_timesteps (config s)) (timesteps s)); [done|].
  intros [= <- _]. simpl. done.
Qed.

Lemma generation_Next g (s : RunState) tr s' tr' :
  generation g s tr = (Next, s', tr') →
  config s' = config s ∧
  (timesteps s + Z.of_nat (pop_size (config s)) <= timesteps s')%Z ∧
  (timesteps s' <= exp_timesteps (config s))%Z.
Proof.
  unfold generation.
  destruct (collect_and_update s) as [[[]|e] s1] eqn:Hcu; [|done].
  pose proof (collect_and_update_steps s s1 Hcu) as Hsteps.
  pose proof (collect_and_update_training s) as (Hcfg1 & _). rewrite Hcu in Hcfg1. simpl in Hcfg1.
  destruct (evaluation_due s1).
  - pose proof (_test_algorithm_same s1) as ([Hcfg2 _] & _ & Hts2 & _).
    destruct (_test_algorithm s1) as [[f|e] s2]; [|done]. simpl in *.
    destruct (exp_print_interval (config s2) =? 0)%Z; [done|].
    destruct (stop_fit s2) as [T|]; [|done].
    destruct (Qle_bool T f); [done|].
    intros Hinst. apply install_Next in Hinst as (Hcfg3 & Hts3 & Hle). simpl in *.
    rewrite Hcfg3, Hts3, Hcfg2, Hcfg1 in *. split; [done|]. lia.
  - intros Hinst. apply install_Next in Hinst as (Hcfg3 & Hts3 & Hle).
    rewrite Hcfg3, Hts3, Hcfg1 in *. split; [done|]. lia.
Qed.

Lemma generations_Exhausted n : ∀ g (s : RunState) tr s' tr',
  n ≠ 0 →
  generations n g s tr = (Exhausted, s', tr') →
  (timesteps s + Z.of_nat (n * pop_size (config s)) <= exp_timesteps (config s))%Z.
Proof.
  induction n as [|n IH]; intros g s tr s' tr' Hn Hgen; [done|]. simpl in Hgen.
  destruct (generation g s tr) as [[[| |] s1] tr1] eqn:Hstep; [|done..].
  apply generation_Next in Hstep as (Hcfg & Hlo & Hhi).
  destruct n as [|n'].
  - simpl in *. lia.
  - apply IH in Hgen; [|done]. rewrite Hcfg in Hgen. lia.
Qed.

(** X8. The iteration ceiling is reached only inside the step budget:
    if [n >= 1] passes of the generation loop all go on to the next one,
    the step counter has grown by at least [n] times the population size
    and is still within the budget.  Hence with a budget below
    [timesteps + 10000 * pop_size], the loop of [train] ends by a break
    or an exception, never by running out of generations. *)
Theorem ceiling_needs_budget (n g : nat) (s : RunState) :
  n ≠ 0 →
  (generations n g s []).1.1 = Exhausted →
  (timesteps s + Z.of_nat (n * pop_size (config s)) <= exp_timesteps (config s))%Z.
Proof.
  intros Hn Hex.
  destruct (generations n g s []) as [[o s'] tr'] eqn:Hgen. simpl in Hex. subst o.
  by eapply generations_Exhausted.
Qed.

(** ** The first generation of a run *)

(** X9. [train] starts every run with [last_log = -9999999] and a
    step counter of zero, so that for any log interval up to 9999999
    the first generation is always evaluated: unless the pass raises, the
    first thing it adds to the trace is an evaluation of that
    generation. *)
Theorem first_generation_is_evaluated (g : nat) (s : RunState) :
  last_log s = (-9999999)%Z →
  (0 <= timesteps s)%Z →
  (exp_log_interval (config s) <= 9999999)%Z →
  (∀ e, (generation g s []).1.1 ≠ Raised e) →
  ∃ hd f, (generation g s []).2 !! 0 = Some (EvEvaluate g hd f).
Proof.
  intros Hlog Hts Hint. unfold generation.
  pose proof (collect_and_update_training s) as (Hcfg1 & _ & _ & Hlog1 & _ & Hts1).
  destruct (collect_and_update s) as [[[]|e] s1]; simpl in *.
  2:{ intros Hno. by destruct (Hno e). }
  assert (evaluation_due s1 = true) as ->.
  { unfold evaluation_due. apply orb_true_iff. left. apply Z.leb_le.
    rewrite Hcfg1, Hlog1, Hlog. lia. }
  destruct (_test_algorithm s1) as [[f|e] s2]; simpl.
  2:{ intros Hno. by destruct (Hno e). }
  destruct (exp_print_interval (config s2) =? 0)%Z; simpl.
  { intros Hno. by destruct (Hno ZeroDivisionError). }
  set (tr2 := if (Z.of_nat g mod exp_print_interval (config s2) =? 0)%Z then _ else _).
  assert (∃ rest, tr2 = EvEvaluate g (head_data (model s1)) f :: rest) as [rest Htr2].
  { unfold tr2. destruct (_ =? _)%Z; simpl; eauto. }
  destruct (stop_fit s2) as [T|]; simpl.
  2:{ intros Hno. by destruct (Hno AttributeError). }
  destruct (Qle_bool T f); simpl.
  { intros _. rewrite Htr2. simpl. eauto. }
  destruct (install_block g (set_last_log (timesteps s2) s2) tr2) as (flow & s4 & blk & -> & _).
  simpl. intros _. rewrite Htr2. simpl. eauto.
Qed.

(** ** The population stays as it was built *)

Lemma _add_layers_length layer_config : ∀ g layers g',
  _add_layers layer_config g = (Ok layers, g') → length layers = length layer_config.
Proof.
  induction layer_config as [|spec rest IH]; intros g layers g' Hadd; simpl in Hadd.
  - by simplify_eq.
  - destruct (nn_new spec g) as [[l|e] g1]; [|done].
    destruct (_add_layers rest g1) as [[ls|e] g2] eqn:Hrest; [|done].
    simplify_eq. simpl. f_equal. by eapply IH.
Qed.

Lemma add_policy_nets_length n layer_config : ∀ g heads g',
  add_policy_nets n layer_config g = (Ok heads, g') →
  length heads = n ∧ Forall (λ ind, length ind = length layer_config) heads.
Proof.
  induction n as [|n IH]; intros g heads g' Hadd; simpl in Hadd.
  - simplify_eq. split; [done|constructor].
  - destruct (_add_layers layer_config g) as [[ind|e] g1] eqn:Hind; [|done].
    destruct (add_policy_nets n layer_config g1) as [[rest|e] g2] eqn:Hrest; [|done].
    simplify_eq. destruct (IH _ _ _ Hrest) as [Hlen Hall].
    split; [simpl; by f_equal|]. constructor; [by eapply _add_layers_length|done].
Qed.

Lemma head_data_lengths m m' :
  head_data m' = head_data m →
  (length <$> policy_nets m') = (length <$> policy_nets m).
Proof.
  unfold head_data. intros Hhd.
  apply (f_equal (fmap length)) in Hhd. rewrite <- !list_fmap_compose in Hhd.
  etrans; [|etrans; [exact Hhd|]]; apply list_fmap_ext; intros; simpl; by rewrite length_fmap.
Qed.

Lemma install_heads g (s : RunState) tr :
  (length <$> policy_nets (model (install g s tr).1.2)) = (length <$> policy_nets (model s)) ∧
  config (install g s tr).1.2 = config s.
Proof.
  unfold install. destruct (new_pop s) as [b|]; [|done].
  destruct (insert_params (model s) b) as [m'|e] eqn:Hins; [|done]. simpl.
  unfold insert_params in Hins.
  destruct (insert_individuals_keeps (model s) b (policy_nets (model s)) (model s) 0 m'
              eq_refl eq_refl Hins) as (Hsk & _ & _).
  destruct (skeleton_lengths _ _ Hsk) as [_ Hlen].
  by destruct (_ <? _)%Z.
Qed.

Lemma generation_heads g (s : RunState) tr :
  (length <$> policy_nets (model (generation g s tr).1.2)) = (length <$> policy_nets (model s)) ∧
  config (generation g s tr).1.2 = config s.
Proof.
  unfold generation.
  pose proof (collect_and_update_training s) as (Hcfg1 & _ & _ & _ & Hhd1 & _).
  apply head_data_lengths in Hhd1.
  destruct (collect_and_update s) as [[[]|e] s1]; simpl in *; [|done].
  destruct (evaluation_due s1).
  - pose proof (_test_algorithm_same s1) as ([Hcfg2 _] & Hm2 & _).
    destruct (_test_algorithm s1) as [[f|e] s2]; simpl in *.
    2:{ rewrite Hm2, Hcfg2. done. }
    destruct (exp_print_interval (config s2) =? 0)%Z; simpl.
    { rewrite Hm2, Hcfg2. done. }
    destruct (stop_fit s2) as [T|]; simpl.
    2:{ rewrite Hm2, Hcfg2. done. }
    destruct (Qle_bool T f); simpl.
    { rewrite Hm2, Hcfg2. done. }
    match goal with |- context [install g ?s3 ?tr3] =>
      destruct (install_heads g s3 tr3) as [Hlen Hcfg3] end.
    simpl in *. rewrite Hlen, Hcfg3, Hm2, Hcfg2. done.
  - destruct (install_heads g s1 tr) as [Hlen Hcfg3]. rewrite Hlen, Hcfg3. done.
Qed.

Lemma generations_heads n : ∀ g (s : RunState) tr,
  (length <$> policy_nets (model (generations n g s tr).1.2)) = (length <$> policy_nets (model s)) ∧
  config (generations n g s tr).1.2 = config s.
Proof.
  induction n as [|n IH]; intros g s tr; simpl; [done|].
  pose proof (generation_heads g s tr) as [Hlen Hcfg].
  destruct (generation g s tr) as [[[|why|e] s1] tr1]; simpl in *; [|done..].
  destruct (IH (Datatypes.S g) s1 tr1) as [Hlen' Hcfg']. split; congruence.
Qed.

(** X10. The population keeps the size it was built with.  The network
    that [_reset_experiment] builds has exactly [pop_size] heads, each
    with one layer per entry of the configured policy layer list, and
    the generation loop, however it ends, leaves a network with the same
    number of heads and of layers per head, under the same
    configuration. *)
Theorem population_stays_as_built (r : EvoACRunner) (s0 : RunState) (n g : nat)
    (tr : list Event) :
  _reset_experiment r = Ok s0 →
  let s' := (generations n g s0 tr).1.2 in
  config s' = r_config r ∧
  length (policy_nets (model s')) = pop_size (r_config r) ∧
  Forall (λ ind, length ind = length (net_policy (neural_net (r_config r))))
         (policy_nets (model s')).
Proof.
  intros Hreset. unfold _reset_experiment, EvoACModel__init__ in Hreset.
  destruct (max_episode_steps (r_env r)); [|done].
  destruct (_init_model_layers (r_config r) (r_torch_rng r)) as [[m|e] g1] eqn:Hinit; [|done].
  destruct (Adam (parameters m) (net_lr (neural_net (r_config r)))); [|done].
  injection Hreset as <-.
  destruct (generations_heads n g
              {| config := r_config r; stop_fit := r_stop_fit r; env := r_env r;
                 test_env := r_test_env r; torch_rng := g1; np_rng := r_np_rng r;
                 storage := storage_new (pop_size (r_config r)) (r_config r); model := m;
                 evo := set_params (EA_new (r_config r)) (extract_params m);
                 new_pop := None; timesteps := 0; last_log := -9999999;
                 loss_log := (0%Q, 0%Q) |} tr) as [Hlen Hcfg].
  simpl in *. split; [done|].
  unfold _init_model_layers in Hinit.
  destruct (_add_layers (net_shared (neural_net (r_config r))) (r_torch_rng r))
    as [[shared|e] g2]; [|done].
  destruct (add_policy_nets _ _ g2) as [[heads|e] g3] eqn:Hheads; [|done].
  destruct (_add_layers (net_value (neural_net (r_config r))) g3) as [[value|e] g4]; [|done].
  injection Hinit as <- _. simpl in Hlen.
  destruct (add_policy_nets_length _ _ _ _ _ Hheads) as [Hn Hall].
  pose proof (f_equal length Hlen) as Hcount. rewrite !length_fmap in Hcount.
  split; [congruence|].
  apply Forall_lookup. intros i ind Hi.
  pose proof (f_equal (λ l, l !! i) Hlen) as Hi'. simpl in Hi'.
  rewrite !list_lookup_fmap, Hi in Hi'. simpl in Hi'.
  destruct (heads !! i) as [ind0|] eqn:Hi0; simpl in Hi'; [|done].
  pose proof (Forall_lookup_1 _ _ _ _ Hall Hi0). congruence.
Qed.

(** ** The ensemble strategies *)

Lemma inverse_cdf_bound probs : ∀ u i,
  inverse_cdf probs u i < i + Nat.max 1 (length probs).
Proof.
  induction probs as [|p rest IH]; intros u i; simpl; [lia|].
  destruct (Qltb u p); [lia|].
  destruct rest as [|q rest']; [lia|].
  specialize (IH (u - p)%Q (Datatypes.S i)). simpl in IH. simpl. lia.
Qed.

(** X11. Under "best" the evaluation consults one individual: the one
    of least index among those of greatest training fitness, through
    [get_action], which samples.  With no fitness recorded,
    [np.argmax] raises [ValueError]. *)
Theorem best_strategy_consults_the_fittest (s : RunState) (obs : Obs) :
  exp_test_strat (config s) = "best"%string →
  (storage_fitnesses (storage s) = [] →
     _get_test_action obs s = (Raise ValueError, s)) ∧
  (storage_fitnesses (storage s) ≠ [] →
     ∃ best v,
       storage_fitnesses (storage s) !! best = Some v ∧
       (∀ b x, storage_fitnesses (storage s) !! b = Some x → (x <= v)%Q) ∧
       (∀ b x, b < best → storage_fitnesses (storage s) !! b = Some x → (x < v)%Q) ∧
       _get_test_action obs s = consult obs best s).
Proof.
  intros Hstrat. split.
  - intros Hnil. unfold _get_test_action, mbind, M_bind, gets. simpl.
    rewrite Hstrat, Hnil. rewrite decide_True by done. reflexivity.
  - intros Hne.
    destruct (np_argmax (storage_fitnesses (storage s))) as [best|e] eqn:Hbest.
    2:{ destruct (storage_fitnesses (storage s)); [done|discriminate]. }
    destruct (np_argmax_spec _ _ Hbest) as (v & Hv & Hmax & Hfirst).
    exists best, v. split; [done|]. split; [done|]. split; [done|].
    unfold _get_test_action, consult, mbind, M_bind, gets, lift. simpl.
    rewrite Hstrat. rewrite decide_True by done. rewrite Hbest. reflexivity.
Qed.

(** X12. Under "softmax" the evaluation draws one index from numpy's
    random source, by the softmax of the training fitnesses, and
    consults that individual; the index is below the population size.
    [np.random.choice] raises [ValueError] when the number of
    probabilities is not the population size or the population is
    empty. *)
Theorem softmax_strategy_consults_one_individual (s : RunState) (obs : Obs) :
  exp_test_strat (config s) = "softmax"%string →
  (length (softmax (storage_fitnesses (storage s))) ≠ pop_size (config s)
     ∨ pop_size (config s) = 0 →
   _get_test_action obs s = (Raise ValueError, s)) ∧
  (length (softmax (storage_fitnesses (storage s))) = pop_size (config s) →
   pop_size (config s) ≠ 0 →
   ∃ pop_idx,
     pop_idx = inverse_cdf (softmax (storage_fitnesses (storage s)))
                 (rng_next (np_rng s)).1 0 ∧
     pop_idx < pop_size (config s) ∧
     _get_test_action obs s = consult obs pop_idx (set_np_rng (rng_next (np_rng s)).2 s)).
Proof.
  intros Hstrat. split.
  - intros Hbad. unfold _get_test_action, mbind, M_bind, gets, np_random_choice. simpl.
    rewrite Hstrat. rewrite decide_False by done. rewrite decide_True by done.
    rewrite decide_False; [reflexivity|]. intros [Hlen Hn]. destruct Hbad; done.
  - intros Hlen Hn. eexists. split; [reflexivity|]. split.
    + pose proof (inverse_cdf_bound (softmax (storage_fitnesses (storage s)))
                    (rng_next (np_rng s)).1 0) as Hb.
      rewrite Hlen in Hb. lia.
    + unfold _get_test_action, consult, mbind, M_bind, gets, np_random_choice. simpl.
      rewrite Hstrat. rewrite decide_False by done. rewrite decide_True by done.
      rewrite decide_True by done. reflexivity.
Qed.

Lemma weighted_vote_in_range n actions fitnesses :
  0 < n → Forall (λ a, a < n) actions →
  ∃ a, weighted_vote n actions fitnesses = Ok a ∧ a < n.
Proof.
  intros Hn Hall. unfold weighted_vote, action_votes.
  destruct (tally_total (zip actions fitnesses) (replicate n (Fin 0))) as [votes Hvotes].
  { rewrite length_replicate. clear Hn. revert fitnesses.
    induction Hall as [|a actions Ha Hall IH]; intros [|w fitnesses]; simpl;
      by constructor. }
  rewrite Hvotes. simpl.
  destruct (tally_spec _ _ _ Hvotes) as [Hlen _]. rewrite length_replicate in Hlen.
  destruct (np_argmax_float votes) as [a|e] eqn:Ha.
  - exists a. split; [done|]. apply np_argmax_float_bound in Ha. lia.
  - destruct votes as [|v votes]; simpl in *; [lia|]. by destruct (is_nan v).
Qed.

(** X13. Under "weightedvote" the evaluation returns an action of the
    test environment whenever every individual exists, the environment
    has at least one action and no head emits more probabilities than
    there are actions: every sampled action is then in range, so the
    tally cannot raise [IndexError] and the vote is not empty. *)
Theorem weightedvote_returns_an_action (s : RunState) (obs : Obs) :
  exp_test_strat (config s) = "weightedvote"%string →
  pop_size (config s) ≤ length (policy_nets (model s)) →
  0 < action_space_n (test_env s) →
  (∀ i, i < pop_size (config s) →
     length (policy_probs (neural_net (config s)) (model s) (obs2tensor obs) i)
       ≤ action_space_n (test_env s)) →
  ∃ a, (_get_test_action obs s).1 = Ok a ∧ a < action_space_n (test_env s).
Proof.
  intros Hstrat Hlen Hn Hwidth.
  pose proof (query_actions_sampled (obs2tensor obs) (pop_size (config s)) 0 s Hlen) as Hq.
  unfold _get_test_action, mbind, M_bind, gets, lift. simpl. rewrite Hstrat.
  rewrite decide_False by done. rewrite decide_False by done. rewrite decide_True by done.
  rewrite Hq. simpl.
  apply weighted_vote_in_range; [done|].
  apply Forall_fmap, Forall_forall. intros i Hi. simpl.
  apply elem_of_seq in Hi as [_ Hi]. unfold categorical_sample.
  match goal with |- inverse_cdf ?p ?u 0 < _ => pose proof (inverse_cdf_bound p u 0) as Hb end.
  specialize (Hwidth i ltac:(lia)). lia.
Qed.

(** ** The critic and the install *)

(** X15. Installing a population does not touch the critic: for every
    input and every individual, [forward] on the network after a
    successful [insert_params] gives the same value output, or raises
    the same exception, as before. *)
Theorem install_keeps_value_estimate (m m' : EvoACModel) (incoming : Bundle)
    (net : NetConfig) (x : list Q) (pop_idx : nat) :
  insert_params m incoming = Ok m' →
  value_estimate net m' x pop_idx = value_estimate net m x pop_idx.
Proof.
  intros Hins. unfold insert_params in Hins.
  destruct (insert_individuals_keeps m incoming (policy_nets m) m 0 m'
              eq_refl eq_refl Hins) as (Hsk & Hshared & Hvalue).
  destruct (skeleton_lengths _ _ Hsk) as [Hlen _].
  unfold value_estimate, forward. rewrite Hshared, Hvalue.
  destruct (policy_nets m !! pop_idx) as [head|] eqn:Hhead.
  - destruct (lookup_lt_is_Some_2 (policy_nets m') pop_idx) as [head' ->]; [|done].
    apply lookup_lt_Some in Hhead. lia.
  - rewrite (lookup_ge_None_2 (policy_nets m') pop_idx); [done|].
    apply lookup_ge_None_1 in Hhead. lia.
Qed.

(** ** The calls that close a run and the experiment *)

Lemma count_events_app p tr1 tr2 :
  count_events p (tr1 ++ tr2) = count_events p tr1 + count_events p tr2.
Proof. unfold count_events. by rewrite List.filter_app, length_app. Qed.

Lemma count_generation_events new :
  (∀ i ev, new !! i = Some ev → is_Some (event_gen ev)) →
  count_events is_end_run new = 0 ∧ count_events is_end_experiment new = 0.
Proof.
  induction new as [|ev new IH]; intros Hall; [done|].
  destruct IH as [IH1 IH2]; [intros i ev' Hi; by apply (Hall (Datatypes.S i))|].
  destruct (Hall 0 ev eq_refl) as [g Hg].
  unfold count_events in *. destruct ev; simpl in *; done.
Qed.

Lemma generations_counts n g (s : RunState) tr :
  count_events is_end_run (generations n g s tr).2 = count_events is_end_run tr ∧
  count_events is_end_experiment (generations n g s tr).2
    = count_events is_end_experiment tr.
Proof.
  destruct (generations_blocks n g s tr) as (o & s' & new & -> & _ & Hblocks). simpl.
  destruct (count_generation_events new) as [H1 H2].
  { intros i ev Hi. destruct (run_blocks_tag _ _ _ _ _ _ _ Hblocks Hi) as (g' & -> & _).
    by eexists. }
  rewrite !count_events_app, H1, H2. lia.
Qed.

Lemma run_counts (r : EvoACRunner) tr :
  match run r tr with
  | (Aborted e, _, tr') =>
      count_events is_end_run tr' = count_events is_end_run tr ∧
      count_events is_end_experiment tr' = count_events is_end_experiment tr
  | (_, so, tr') =>
      is_Some so ∧
      count_events is_end_run tr' = Datatypes.S (count_events is_end_run tr) ∧
      count_events is_end_experiment tr' = count_events is_end_experiment tr
  end.
Proof.
  unfold run. destruct (_reset_experiment r) as [s0|e]; [|done].
  pose proof (generations_counts 10000 0 s0 tr) as [H1 H2].
  destruct (generations 10000 0 s0 tr) as [[o s1] tr1]. simpl in *.
  destruct o as [why| |e]; [| |done].
  - split; [by eexists|]. rewrite !count_events_app.
    change (count_events is_end_run [EvEndRun]) with 1.
    change (count_events is_end_experiment [EvEndRun]) with 0. split; lia.
  - split; [by eexists|]. rewrite !count_events_app.
    change (count_events is_end_run [EvEndRun]) with 1.
    change (count_events is_end_experiment [EvEndRun]) with 0. split; lia.
Qed.

Lemma runs_counts n : ∀ (r : EvoACRunner) tr,
  match runs n r tr with
  | (Ok _, tr') =>
      count_events is_end_run tr' = count_events is_end_run tr + n ∧
      count_events is_end_experiment tr' = count_events is_end_experiment tr
  | (Raise _, tr') =>
      count_events is_end_run tr' < count_events is_end_run tr + n ∧
      count_events is_end_experiment tr' = count_events is_end_experiment tr
  end.
Proof.
  induction n as [|n IH]; intros r tr; simpl; [split; [lia|done]|].
  pose proof (run_counts r tr) as Hrun.
  destruct (run r tr) as [[o so] tr1].
  destruct o as [why| |e].
  - destruct Hrun as ([s1 ->] & H1 & H2).
    specialize (IH (runner_of s1) tr1).
    destruct (runs n (runner_of s1) tr1) as [[r'|e] tr2]; destruct IH; split; lia.
  - destruct Hrun as ([s1 ->] & H1 & H2).
    specialize (IH (runner_of s1) tr1).
    destruct (runs n (runner_of s1) tr1) as [[r'|e] tr2]; destruct IH; split; lia.
  - destruct Hrun. split; lia.
Qed.

(** X16. The logger's closing calls.  When [train] returns, the logger
    has been told the end of a run exactly [num_runs] times and the end
    of the experiment exactly once, as the last call.  When [train]
    raises, the run in progress has not been closed and the end of the
    experiment has not been logged. *)
Theorem train_closes_runs_and_experiment (r : EvoACRunner) :
  (∀ r' tr, train r = (Ok r', tr) →
     count_events is_end_run tr = exp_num_runs (r_config r) ∧
     count_events is_end_experiment tr = 1 ∧
     last tr = Some EvEndExperiment) ∧
  (∀ e tr, train r = (Raise e, tr) →
     count_events is_end_run tr < exp_num_runs (r_config r) ∧
     count_events is_end_experiment tr = 0).
Proof.
  unfold train.
  pose proof (runs_counts (exp_num_runs (r_config r)) r []) as Hruns.
  destruct (runs (exp_num_runs (r_config r)) r []) as [[r1|e1] tr1];
    destruct Hruns as [H1 H2]; unfold count_events in H1, H2; simpl in H1, H2.
  - split; [|intros e tr [=]]. intros r' tr [= <- <-].
    rewrite !count_events_app. unfold count_events. simpl.
    split; [lia|]. split; [lia|]. by rewrite last_snoc.
  - split; [intros r' tr [=]|]. intros e tr [= <- <-]. unfold count_events. split; lia.
Qed.

(** ** The last generation of a run that exhausts its budget *)

(** X20. A run that stops because the step budget is exhausted has
    evaluated its last generation: the pass that breaks on the budget
    first runs the evaluation (it is due as soon as the counter exceeds
    the budget, whatever the log interval), logs it, and installs the
    new population before it breaks. *)
Theorem budget_stop_follows_evaluation (g : nat) (s : RunState) :
  (generation g s []).1.1 = Break ByBudget →
  ∃ hd f ts,
    (generation g s []).2 !! 0 = Some (EvEvaluate g hd f) ∧
    (generation g s []).2 !! 1 = Some (EvSaveFitnesses g ts f) ∧
    (exp_timesteps (config s) < ts)%Z ∧
    ∃ pre post, last (generation g s []).2 = Some (EvInsertParams g pre post).
Proof.
  unfold generation.
  pose proof (collect_and_update_training s) as (Hcfg1 & _).
  destruct (collect_and_update s) as [[[]|e] s1]; simpl in *; [|done].
  unfold evaluation_due.
  destruct (Z.ltb_spec (exp_timesteps (config s1)) (timesteps s1)) as [Hover|Hin].
  - rewrite orb_true_r.
    pose proof (_test_algorithm_same s1) as ([Hcfg2 _] & _ & Hts2 & _).
    destruct (_test_algorithm s1) as [[f|e] s2]; simpl in *; [|done].
    destruct (exp_print_interval (config s2) =? 0)%Z; simpl; [done|].
    set (tr2 := if (Z.of_nat g mod exp_print_interval (config s2) =? 0)%Z then _ else _).
    assert (∃ rest, tr2 = EvEvaluate g (head_data (model s1)) f
                          :: EvSaveFitnesses g (timesteps s2) f :: rest) as [rest Htr2].
    { unfold tr2. destruct (_ =? _)%Z; simpl; eauto. }
    destruct (stop_fit s2) as [T|]; simpl; [|done].
    destruct (Qle_bool T f); simpl; [done|].
    destruct (install_block g (set_last_log (timesteps s2) s2) tr2)
      as (flow & s4 & blk & -> & _ & Hblk). simpl.
    intros ->. destruct Hblk as [(e & [=] & _)|(post & -> & _)].
    exists (head_data (model s1)), f, (timesteps s2). rewrite Htr2.
    split; [done|]. split; [done|]. split; [rewrite Hts2, <- Hcfg1; done|].
    eexists _, _. by rewrite last_snoc.
  - rewrite orb_false_r.
    destruct (exp_log_interval (config s1) <=? timesteps s1 - last_log s1)%Z.
    + pose proof (_test_algorithm_same s1) as ([Hcfg2 _] & _ & Hts2 & _).
      destruct (_test_algorithm s1) as [[f|e] s2]; simpl in *; [|done].
      destruct (exp_print_interval (config s2) =? 0)%Z; simpl; [done|].
      destruct (stop_fit s2) as [T|]; simpl; [|done].
      destruct (Qle_bool T f); simpl; [done|].
      match goal with |- context [install g ?s3 ?tr3] =>
        destruct (install_block g s3 tr3) as (flow & s4 & blk & -> & _ & Hblk) end.
      simpl. intros ->.
      destruct Hblk as [(e & [=] & _)|(post & _ & [[[=] _]|[_ Hover]])].
      simpl in Hover. rewrite Hcfg2, Hts2 in Hover. lia.
    + destruct (install_block g s1 []) as (flow & s4 & blk & -> & _ & Hblk).
      simpl. intros ->.
      destruct Hblk as [(e & [=] & _)|(post & _ & [[[=] _]|[_ Hover]])]. lia.
Qed.

End RunnerMore.

(* ================================================================== *)
(** * Further properties of bundles and of the weighted vote *)

(** ** Extracted bundles across an install *)

Lemma imap_by_length {A B C} (g : nat → C) (l : list A) (l' : list B) :
  length l = length l' → imap (λ k _, g k) l = imap (λ k _, g k) l'.
Proof.
  revert g l'. induction l as [|x l IH]; intros g [|y l'] Hlen; simpl in *; try done.
  f_equal. apply (IH (g ∘ Datatypes.S)). lia.
Qed.

Lemma extract_params_skeleton m :
  extract_params m =
  imap (λ pop sk, concat (imap (λ li sl, imap (λ k _, DataOf pop li k) sl) sk)) (skeleton m).
Proof.
  unfold extract_params, skeleton. rewrite imap_fmap. apply imap_ext. intros pop ind _. simpl.
  unfold individual_params, named_parameters. rewrite imap_fmap. f_equal.
  apply imap_ext. intros li layer _. simpl.
  apply (imap_by_length (λ k, DataOf pop li k)). by rewrite length_fmap.
Qed.

Lemma wf_model_skeleton m :
  wf_model m ↔ Forall (Forall (λ sl, NoDup ((λ x, x.1.1) <$> sl))) (skeleton m).
Proof.
  unfold wf_model, skeleton, wf_layer. rewrite Forall_fmap.
  apply Forall_iff. intros ind. simpl. rewrite Forall_fmap.
  apply Forall_iff. intros layer. simpl. rewrite <- list_fmap_compose.
  by replace (fst <$> layer) with ((λ x, x.1.1) ∘ pinfo <$> layer).
Qed.

(** X17. The tensor objects of an extracted bundle stay valid across
    an install: after a successful [insert_params], [extract_params]
    returns the same tensor objects as before (so a bundle extracted
    earlier now shows the installed values), and a network whose
    parameter names are distinct within each layer remains so. *)
Theorem extracted_bundle_survives_install (m m' : EvoACModel) (incoming : Bundle) :
  insert_params m incoming = Ok m' →
  extract_params m' = extract_params m ∧ (wf_model m → wf_model m').
Proof.
  intros Hins. unfold insert_params in Hins.
  destruct (insert_individuals_keeps m incoming (policy_nets m) m 0 m'
              eq_refl eq_refl Hins) as (Hsk & _ & _).
  split.
  - by rewrite !extract_params_skeleton, Hsk.
  - by rewrite !wf_model_skeleton, Hsk.
Qed.

(** ** The weighted vote on ill-matched input *)

Lemma tally_Raise ballots : ∀ votes e,
  tally votes ballots = Raise e →
  e = IndexError ∧ ∃ i a w, ballots !! i = Some (a, w) ∧ length votes ≤ a.
Proof.
  induction ballots as [|[a w] ballots IH]; intros votes e Htally; simpl in Htally; [done|].
  destruct (votes !! a) as [v|] eqn:Ha.
  - destruct (IH _ _ Htally) as (-> & i & a' & w' & Hi & Hle).
    rewrite length_insert in Hle. split; [done|]. by exists (Datatypes.S i), a', w'.
  - injection Htally as <-. split; [done|]. exists 0, a, w. split; [done|].
    by apply lookup_ge_None_1.
Qed.

Lemma lookup_zip_Some {A B} (l1 : list A) (l2 : list B) i a b :
  zip l1 l2 !! i = Some (a, b) ↔ l1 !! i = Some a ∧ l2 !! i = Some b.
Proof.
  revert l2 i. induction l1 as [|x l1 IH]; intros [|y l2] [|i]; simpl;
    try (split; [done|intros [? ?]; done]).
  - split; [by intros [= -> ->]|by intros [[= ->] [= ->]]].
  - apply IH.
Qed.

(** X18. How the weighted vote fails.  It raises [IndexError] only when
    an individual that has a recorded fitness proposes an action
    outside the vote array, and [ValueError] only when the environment
    reports no action and there is no ballot to count; it raises
    nothing else. *)
Theorem weighted_vote_errors (n : nat) (actions : list nat) (fitnesses : list Q)
    (e : PyError) :
  weighted_vote n actions fitnesses = Raise e →
  (e = IndexError ∧
   ∃ i a w, actions !! i = Some a ∧ fitnesses !! i = Some w ∧ n ≤ a) ∨
  (e = ValueError ∧ n = 0 ∧ (actions = [] ∨ fitnesses = [])).
Proof.
  unfold weighted_vote, action_votes.
  destruct (tally (replicate n (Fin 0)) (zip actions fitnesses)) as [votes|e'] eqn:Htally; simpl.
  - intros Harg. destruct votes as [|v votes]; [|simpl in Harg; by destruct (is_nan v)].
    injection Harg as <-. right.
    destruct (tally_spec _ _ _ Htally) as [Hlen _]. rewrite length_replicate in Hlen.
    simpl in Hlen. subst n. split; [done|]. split; [done|].
    destruct actions as [|a actions]; [by left|].
    destruct fitnesses as [|w fitnesses]; [by right|]. simpl in Htally. done.
  - intros [= ->]. left.
    destruct (tally_Raise _ _ _ Htally) as (-> & i & a & w & Hi & Hle).
    rewrite length_replicate in Hle. apply lookup_zip_Some in Hi as [Ha Hw].
    split; [done|]. by exists i, a, w.
Qed.

Lemma zip_take_min {A B} (l1 : list A) (l2 : list B) :
  zip l1 l2 = zip (take (length l1 `min` length l2) l1) (take (length l1 `min` length l2) l2).
Proof.
  revert l2. induction l1 as [|x l1 IH]; intros [|y l2]; simpl; try done.
  f_equal. apply IH.
Qed.

(** X19. The vote pairs individuals with fitnesses by position and
    stops at the shorter list: the actions of individuals beyond the
    recorded fitnesses, and fitnesses beyond the queried individuals,
    have no effect on the selected action or on the exception. *)
Theorem weighted_vote_counts_paired_ballots (n : nat) (actions : list nat)
    (fitnesses : list Q) :
  weighted_vote n actions fitnesses =
  weighted_vote n (take (length actions `min` length fitnesses) actions)
                  (take (length actions `min` length fitnesses) fitnesses).
Proof.
  unfold weighted_vote, action_votes. by rewrite <- zip_take_min.
Qed.

(* ================================================================== *)
(** * Instances of the further properties *)

Lemma one_head_wf : wf_model one_head.
Proof. unfold wf_model, wf_layer. refine (bool_decide_unpack _ _). vm_compute. exact I. Defined.

(** Installing the surplus bundle on the single Linear head. *)
Lemma insert_params_keeps_structure_witness :
  ∃ m', insert_params one_head surplus_bundle = Ok m' ∧
    shared_net m' = shared_net one_head ∧
    value_net m' = value_net one_head ∧
    skeleton m' = skeleton one_head ∧
    length (policy_nets m') = length (policy_nets one_head) ∧
    (length <$> policy_nets m') = (length <$> policy_nets one_head).
Proof.
  destruct (insert_params one_head surplus_bundle) as [m'|e] eqn:Hins.
  - exists m'. split; [reflexivity|].
    exact (insert_params_keeps_structure one_head m' surplus_bundle Hins).
  - vm_compute in Hins. discriminate.
Defined.

(** A bundle without the bias of the single head: [IndexError], for
    the missing entry. *)
Lemma insert_params_errors_witness :
  insert_params one_head [ [Fresh (tensor1 [30; 40]%Z)] ] = Raise IndexError ∧
  ((IndexError = IndexError ∧
    ∃ pop j r, incoming_at (extract_params one_head) pop j = Some r ∧
               incoming_at [ [Fresh (tensor1 [30; 40]%Z)] ] pop j = None) ∨
   (IndexError = RuntimeError ∧
    ∃ pop j r r', incoming_at (extract_params one_head) pop j = Some r ∧
                  incoming_at [ [Fresh (tensor1 [30; 40]%Z)] ] pop j = Some r' ∧
                  ref_shape one_head r' ≠ ref_shape one_head r)).
Proof.
  assert (insert_params one_head [ [Fresh (tensor1 [30; 40]%Z)] ] = Raise IndexError) as Hins
    by reflexivity.
  split; [exact Hins|].
  exact (insert_params_errors one_head _ IndexError one_head_wf Hins).
Defined.

(** The first generation of the small world takes four steps for two
    individuals. *)
Lemma rollouts_advance_timesteps_witness :
  let s := toy_state "LunarLander-v2" "weightedvote" 1 (9 # 10) in
  (collect_and_update s).1 = Ok tt ∧
  (timesteps s + Z.of_nat (pop_size (config s)) <= timesteps (collect_and_update s).2)%Z.
Proof.
  intros s.
  assert ((collect_and_update s).1 = Ok tt) as Hok by (vm_compute; reflexivity).
  split; [exact Hok|]. exact (rollouts_advance_timesteps s Hok).
Defined.

(** Three generations within a budget of 100 steps. *)
Lemma ceiling_needs_budget_witness :
  let s := toy_state_with_budget 100 (9 # 10) in
  3 ≠ 0 ∧ (generations 3 0 s []).1.1 = Exhausted ∧
  (timesteps s + Z.of_nat (3 * pop_size (config s)) <= exp_timesteps (config s))%Z.
Proof.
  intros s.
  assert (3 ≠ 0) as Hn by lia.
  assert ((generations 3 0 s []).1.1 = Exhausted) as Hex by (vm_compute; reflexivity).
  split; [exact Hn|]. split; [exact Hex|]. exact (ceiling_needs_budget 3 0 s Hn Hex).
Defined.

(** The first generation of the LunarLander run of the small world. *)
Lemma first_generation_is_evaluated_witness :
  let s := toy_state "LunarLander-v2" "weightedvote" 1 (9 # 10) in
  last_log s = (-9999999)%Z ∧ (0 <= timesteps s)%Z ∧
  (exp_log_interval (config s) <= 9999999)%Z ∧
  (∀ e, (generation 0 s []).1.1 ≠ Raised e) ∧
  ∃ hd f, (generation 0 s []).2 !! 0 = Some (EvEvaluate 0 hd f).
Proof.
  intros s.
  assert (last_log s = (-9999999)%Z) as H1 by reflexivity.
  assert (0 <= timesteps s)%Z as H2 by (vm_compute; discriminate).
  assert (exp_log_interval (config s) <= 9999999)%Z as H3 by (vm_compute; discriminate).
  assert ((generation 0 s []).1.1 = Break ByBudget) as Hflow by (vm_compute; reflexivity).
  assert (∀ e, (generation 0 s []).1.1 ≠ Raised e) as H4
    by (intros e; rewrite Hflow; discriminate).
  split; [exact H1|]. split; [exact H2|]. split; [exact H3|]. split; [exact H4|].
  exact (first_generation_is_evaluated 0 s H1 H2 H3 H4).
Defined.

(** The population of the small world after a generation: two heads of
    one layer. *)
Lemma population_stays_as_built_witness :
  let r := toy_runner "LunarLander-v2" "weightedvote" 1 (9 # 10) in
  let s0 := toy_state "LunarLander-v2" "weightedvote" 1 (9 # 10) in
  _reset_experiment r = Ok s0 ∧
  let s' := (generations 1 0 s0 []).1.2 in
  config s' = r_config r ∧
  length (policy_nets (model s')) = pop_size (r_config r) ∧
  Forall (λ ind, length ind = length (net_policy (neural_net (r_config r))))
         (policy_nets (model s')).
Proof.
  intros r s0.
  assert (_reset_experiment r = Ok s0) as Hreset by reflexivity.
  split; [exact Hreset|]. exact (population_stays_as_built r s0 1 0 [] Hreset).
Defined.

(** Under "best" with fitnesses [0, 0], individual 0 is consulted. *)
Lemma best_strategy_consults_the_fittest_witness :
  let s := toy_state "Acrobot-v1" "best" (-1) (9 # 10) in
  exp_test_strat (config s) = "best"%string ∧
  storage_fitnesses (storage s) ≠ [] ∧
  ∃ best v,
    storage_fitnesses (storage s) !! best = Some v ∧
    (∀ b x, storage_fitnesses (storage s) !! b = Some x → Qle x v) ∧
    (∀ b x, b < best → storage_fitnesses (storage s) !! b = Some x → Qlt x v) ∧
    _get_test_action 0 s = consult 0 best s.
Proof.
  intros s.
  assert (exp_test_strat (config s) = "best"%string) as Hstrat by reflexivity.
  assert (storage_fitnesses (storage s) ≠ []) as Hne by (vm_compute; discriminate).
  split; [exact Hstrat|]. split; [exact Hne|].
  exact (proj2 (best_strategy_consults_the_fittest s 0 Hstrat) Hne).
Defined.

(** Under "softmax" with two equal fitnesses and a draw of 9/10,
    an individual below the population size is consulted. *)
Lemma softmax_strategy_consults_one_individual_witness :
  let s := toy_state "CartPole-v1" "softmax" 250 (9 # 10) in
  exp_test_strat (config s) = "softmax"%string ∧
  length (softmax (storage_fitnesses (storage s))) = pop_size (config s) ∧
  pop_size (config s) ≠ 0 ∧
  ∃ pop_idx,
    pop_idx = inverse_cdf (softmax (storage_fitnesses (storage s)))
                (rng_next (np_rng s)).1 0 ∧
    pop_idx < pop_size (config s) ∧
    _get_test_action 0 s = consult 0 pop_idx (set_np_rng (rng_next (np_rng s)).2 s).
Proof.
  intros s.
  assert (exp_test_strat (config s) = "softmax"%string) as Hstrat by reflexivity.
  assert (length (softmax (storage_fitnesses (storage s))) = pop_size (config s)) as Hlen
    by (vm_compute; reflexivity).
  assert (pop_size (config s) ≠ 0) as Hn by (vm_compute; discriminate).
  split; [exact Hstrat|]. split; [exact Hlen|]. split; [exact Hn|].
  exact (proj2 (softmax_strategy_consults_one_individual s 0 Hstrat) Hlen Hn).
Defined.

(** The weighted vote of the small world returns one of its two
    actions. *)
Lemma weightedvote_returns_an_action_witness :
  let s := toy_state "LunarLander-v2" "weightedvote" 1 (9 # 10) in
  exp_test_strat (config s) = "weightedvote"%string ∧
  pop_size (config s) ≤ length (policy_nets (model s)) ∧
  0 < action_space_n (test_env s) ∧
  ∃ a, (_get_test_action 0 s).1 = Ok a ∧ a < action_space_n (test_env s).
Proof.
  intros s.
  assert (exp_test_strat (config s) = "weightedvote"%string) as H1 by reflexivity.
  assert (pop_size (config s) ≤ length (policy_nets (model s))) as H2 by (vm_compute; lia).
  assert (0 < action_space_n (test_env s)) as H3 by (vm_compute; lia).
  assert (∀ i, i < pop_size (config s) →
            length (policy_probs (neural_net (config s)) (model s) (obs2tensor 0) i)
              ≤ action_space_n (test_env s)) as H4.
  { intros [|[|i]] Hi; [vm_compute; lia|vm_compute; lia|]. vm_compute in Hi. lia. }
  split; [exact H1|]. split; [exact H2|]. split; [exact H3|].
  exact (weightedvote_returns_an_action s 0 H1 H2 H3 H4).
Defined.

(** The value output of the single Linear head before and after the
    install of the surplus bundle. *)
Lemma install_keeps_value_estimate_witness :
  let net := neural_net (toy_config "LunarLander-v2" "weightedvote") in
  ∃ m', insert_params one_head surplus_bundle = Ok m' ∧
    value_estimate net m' [0%Q] 0 = value_estimate net one_head [0%Q] 0.
Proof.
  intros net.
  destruct (insert_params one_head surplus_bundle) as [m'|e] eqn:Hins.
  - exists m'. split; [reflexivity|].
    exact (install_keeps_value_estimate one_head m' surplus_bundle net [0%Q] 0 Hins).
  - vm_compute in Hins. discriminate.
Defined.

(** The experiment of the small world: one run, closed once, and the
    end of the experiment as the last call. *)
Lemma train_closes_runs_and_experiment_witness :
  let r := toy_runner "LunarLander-v2" "weightedvote" 1 (9 # 10) in
  ∃ r' tr, train r = (Ok r', tr) ∧
    count_events is_end_run tr = exp_num_runs (r_config r) ∧
    count_events is_end_experiment tr = 1 ∧
    last tr = Some EvEndExperiment.
Proof.
  intros r.
  destruct (train r) as [[r'|e] tr] eqn:Htrain.
  - exists r', tr. split; [reflexivity|].
    exact (proj1 (train_closes_runs_and_experiment r) r' tr Htrain).
  - apply (f_equal fst) in Htrain. vm_compute in Htrain. discriminate.
Defined.

(** The bundle of the single head before and after the install. *)
Lemma extracted_bundle_survives_install_witness :
  ∃ m', insert_params one_head surplus_bundle = Ok m' ∧
    extract_params m' = extract_params one_head ∧ wf_model m'.
Proof.
  destruct (insert_params one_head surplus_bundle) as [m'|e] eqn:Hins.
  - exists m'. split; [reflexivity|].
    destruct (extracted_bundle_survives_install one_head m' surplus_bundle Hins) as [Hsame Hwf].
    split; [exact Hsame|exact (Hwf one_head_wf)].
  - vm_compute in Hins. discriminate.
Defined.

(** An individual proposing action 5 of 2: [IndexError]. *)
Lemma weighted_vote_errors_witness :
  weighted_vote 2 [0; 5] [1; 1]%Q = Raise IndexError ∧
  ((IndexError = IndexError ∧
    ∃ i a w, [0; 5] !! i = Some a ∧ ([1; 1]%Q : list Q) !! i = Some w ∧ 2 ≤ a) ∨
   (IndexError = ValueError ∧ 2 = 0 ∧ ([0; 5] = [] ∨ ([1; 1]%Q : list Q) = []))).
Proof.
  assert (weighted_vote 2 [0; 5] [1; 1]%Q = Raise IndexError) as Hraise by reflexivity.
  split; [exact Hraise|]. exact (weighted_vote_errors 2 [0; 5] [1; 1]%Q IndexError Hraise).
Defined.

(** The first generation of the small world exceeds its budget of
    three steps: it is evaluated, logged and installed, then the run
    stops. *)
Lemma budget_stop_follows_evaluation_witness :
  let s := toy_state "LunarLander-v2" "weightedvote" 1 (9 # 10) in
  (generation 0 s []).1.1 = Break ByBudget ∧
  ∃ hd f ts,
    (generation 0 s []).2 !! 0 = Some (EvEvaluate 0 hd f) ∧
    (generation 0 s []).2 !! 1 = Some (EvSaveFitnesses 0 ts f) ∧
    (exp_timesteps (config s) < ts)%Z ∧
    ∃ pre post, last (generation 0 s []).2 = Some (EvInsertParams 0 pre post).
Proof.
  intros s.
  assert ((generation 0 s []).1.1 = Break ByBudget) as Hflow by (vm_compute; reflexivity).
  split; [exact Hflow|]. exact (budget_stop_follows_evaluation 0 s Hflow).
Defined.
